(** * Cycloidal reducer design tool: geometry engine, quality advisor and exporters

    A shallow embedding of [utils/geometry.ts], [utils/dxf.ts] and the records
    of [types.ts].

    Numbers.  A JavaScript [number] is modelled by a real number: arithmetic is
    exact and every value is finite.  [Math.PI], [Math.sin], [Math.cos],
    [Math.sqrt], [Math.abs], [Math.max] and [Math.atan2] are the real
    functions.  The two fields that bound a [for] loop ([resolution] and
    [outputPinCount]) are natural numbers.  The one division whose divisor
    vanishes on ordinary designs, the curvature radius [numerator / denominator]
    of [calculatePhysicsMetrics], is modelled with its non-finite outcome.
    The other divisors ([resolution], [pinCircleRadius], [pinCount]) are zero
    only outside the data model; a statement that depends on such a quotient
    assumes its divisor non-zero.

    Text.  [Number.prototype.toFixed] is modelled as the decimal text of the
    value rounded half away from zero, and [parseFloat] as a reader of such
    text; the shortest-representation printer behind template literals
    ([`${v}`]) and the path generator of d3 are parameters. *)

From Stdlib Require Import Reals Lra Lia List Bool Arith ZArith String Ascii.
Import ListNotations.

Local Open Scope R_scope.

(** ** Comparisons as the code uses them (boolean tests) *)

Definition Rltb (a b : R) : bool := if Rlt_dec a b then true else false.
Definition Rgtb (a b : R) : bool := Rltb b a.

(** [isNaN]: no real number is a NaN.  In the source [len] is NaN only when
    [t] is, which happens at resolution 0 alone, where [t] is 0/0. *)
Definition isNaN (_ : R) : bool := false.

(** The literal [1e-6]. *)
Definition eps : R := / 1000000.

(** ** types.ts *)

Inductive DriveConfig : Set := housingFixed | outputFixed.

Record CycloParams : Type := mkParams {
  pinCount : R;
  pinCircleRadius : R;
  pinRadius : R;
  eccentricity : R;
  holeRadius : R;
  resolution : nat;
  tolerance : R;
  holeTolerance : R;
  outputPinCount : nat;
  outputPinRadius : R;
  outputPinCircleRadius : R;
  driveConfig : DriveConfig
}.

(** A curvature radius is the quotient of two reals: when the divisor is zero
    JavaScript yields [Infinity], [-Infinity] or [NaN]. *)
Inductive number : Type :=
| Finite (v : R)
| NonFinite.

Record Point : Type := mkPoint {
  x : R;
  y : R;
  nx : option R;
  ny : option R;
  pressureAngle : option R;
  curvatureRadius : option number
}.

Record PhysicsMetrics : Type := mkMetrics {
  minCurvatureRadius : R;
  maxPressureAngle : R;
  points : list Point
}.

(** ** geometry.ts: the sampled curve *)

(** [dist], the helper of geometry.ts. *)
Definition dist (p1 p2 : Point) : R :=
  sqrt ((x p2 - x p1) ^ 2 + (y p2 - y p1) ^ 2).

(** [t = (i / resolution) * 2 * Math.PI].  At resolution 0 the source's
    quotient 0/0 is NaN, where the quotient of the real numbers is 0: what is
    stated about the values of the samples takes a resolution of at least 1. *)
Definition sample_t (resolution : nat) (i : nat) : R :=
  INR i / INR resolution * 2 * PI.

(** [N], [R0] and [E] are the source's [N], [R] and [E]; the name [R] is
    taken by the type of the real numbers. *)
Section Curve.
Variables (N R0 E : R).

Definition locus_x (t : R) : R := R0 * cos t - E * cos (N * t).
Definition locus_y (t : R) : R := R0 * sin t - E * sin (N * t).
Definition dxdt (t : R) : R := - R0 * sin t + E * N * sin (N * t).
Definition dydt (t : R) : R := R0 * cos t - E * N * cos (N * t).
Definition tangent_len (t : R) : R :=
  sqrt (dxdt t * dxdt t + dydt t * dydt t).
End Curve.

(** The body of the loop of [generateCycloidProfile]: [None] is [continue]. *)
Definition profile_sample (N R0 r E : R) (t : R) : option Point :=
  let sx := locus_x N R0 E t in
  let sy := locus_y N R0 E t in
  let dx := dxdt N R0 E t in
  let dy := dydt N R0 E t in
  let len := sqrt (dx * dx + dy * dy) in
  if Rltb len eps || isNaN len then None
  else
    let nx := - dy / len in
    let ny := dx / len in
    let px := sx + r * nx in
    let py := sy + r * ny in
    Some (mkPoint px py (Some nx) (Some ny) None None).

(** [points.push] inside [for (let i = 0; i <= resolution; i++)]. *)
Definition generateCycloidProfile (params : CycloParams)
    (overrideTolerance : option R) : list Point :=
  let effectiveTolerance :=
    match overrideTolerance with
    | Some o => o
    | None => tolerance params
    end in
  let N := pinCount params in
  let R0 := pinCircleRadius params in
  let r := pinRadius params + effectiveTolerance in
  let E := eccentricity params in
  fold_left
    (fun points i =>
       let t := sample_t (resolution params) i in
       match profile_sample N R0 r E t with
       | None => points
       | Some pt => points ++ [pt]
       end)
    (seq 0 (S (resolution params))) [].

(** ** geometry.ts: physics metrics *)

(** [Number.MAX_VALUE], the largest finite double: (2^53 - 1) * 2^971. *)
Definition MAX_VALUE : R := IZR (2 ^ 1024 - 2 ^ 971).

(** [Math.atan2 (y, x)] on real arguments. *)
Definition atan2 (y0 x0 : R) : R :=
  if Rltb 0 x0 then atan (y0 / x0)
  else if Rltb x0 0 then
    (if Rltb y0 0 then atan (y0 / x0) - PI else atan (y0 / x0) + PI)
  else if Rltb 0 y0 then PI / 2
  else if Rltb y0 0 then - (PI / 2)
  else 0.

(** [Math.pow (b, 1.5)] for a base [b >= 0] (the base is a squared length). *)
Definition pow15 (b : R) : R := b * sqrt b.

(** [a / b] where [b] may vanish. *)
Definition js_div (a b : R) : number :=
  if Req_dec_T b 0 then NonFinite else Finite (a / b).

Definition num_minus (a : number) (r : R) : number :=
  match a with
  | Finite v => Finite (v - r)
  | NonFinite => NonFinite
  end.

(** [Math.abs (a) < Math.abs (m)] for a finite [m]: an infinite or NaN left
    side never compares below a finite number. *)
Definition abs_lt (a : number) (m : R) : bool :=
  match a with
  | Finite v => Rltb (Rabs v) (Rabs m)
  | NonFinite => false
  end.

(** [rho] and [surfaceCurvature] of the sample at parameter [t]. *)
Definition rho (N R0 E : R) (t : R) : number :=
  let phi := (N - 1) * t in
  let term1 := R0 * R0 + E * E * N * N - 2 * R0 * E * N * cos phi in
  let numerator := pow15 term1 in
  let denominator :=
    R0 * R0 + E * E * N * N * N - R0 * E * N * (N + 1) * cos phi in
  js_div numerator denominator.

Definition surfaceCurvature (N R0 E r : R) (t : R) : number :=
  num_minus (rho N R0 E t) r.

(** [pressureDeg] of the sample at parameter [t]. *)
Definition pressureDeg (N R0 E : R) (t : R) : R :=
  let K := E * N / R0 in
  let num := K * sin (N * t) in
  let den := 1 - K * cos (N * t) in
  let pressureRad := atan2 (Rabs num) (Rabs den) in
  pressureRad * (180 / PI).

(** One turn of the loop of [calculatePhysicsMetrics]; the three mutable
    variables of the loop are the fields of the state. *)
Definition physics_step (N R0 E r : R) (resolution : nat)
    (st : PhysicsMetrics) (i : nat) : PhysicsMetrics :=
  let t := sample_t resolution i in
  let dx := dxdt N R0 E t in
  let dy := dydt N R0 E t in
  let len := sqrt (dx * dx + dy * dy) in
  if Rltb len eps then st
  else
    let pDeg := pressureDeg N R0 E t in
    let maxP :=
      if Rgtb pDeg (maxPressureAngle st) then pDeg else maxPressureAngle st in
    let sc := surfaceCurvature N R0 E r t in
    let minC :=
      match sc with
      | Finite v => if abs_lt sc (minCurvatureRadius st) then v
                    else minCurvatureRadius st
      | NonFinite => minCurvatureRadius st
      end in
    let nx := - dy / len in
    let ny := dx / len in
    let sx := locus_x N R0 E t in
    let sy := locus_y N R0 E t in
    mkMetrics minC maxP
      (points st ++
       [mkPoint (sx + r * nx) (sy + r * ny) (Some nx) (Some ny)
                (Some pDeg) (Some sc)]).

Definition calculatePhysicsMetrics (params : CycloParams) : PhysicsMetrics :=
  let N := pinCount params in
  let R0 := pinCircleRadius params in
  let E := eccentricity params in
  let r := pinRadius params in
  fold_left (physics_step N R0 E r (resolution params))
    (seq 0 (S (resolution params)))
    (mkMetrics MAX_VALUE 0 []).

(** ** Number formatting: [toFixed] and [parseFloat] *)

Local Open Scope string_scope.

Definition digit_char (k : Z) : ascii := ascii_of_nat (48 + Z.to_nat k).

Definition char_digit (c : ascii) : option Z :=
  let n := nat_of_ascii c in
  if (48 <=? n)%nat && (n <=? 57)%nat then Some (Z.of_nat (n - 48)) else None.

(** The [d] low decimal digits of [n], most significant first. *)
Fixpoint fixed_digits (d : nat) (n : Z) : string :=
  match d with
  | O => ""
  | S d' => fixed_digits d' (n / 10) ++ String (digit_char (n mod 10)) ""
  end.

(** How many decimal digits [n >= 0] has (at least one). *)
Fixpoint count_digits (fuel : nat) (n : Z) : nat :=
  match fuel with
  | O => 1
  | S f => if (n <? 10)%Z then 1%nat else S (count_digits f (n / 10))
  end.

Definition int_digits (n : Z) : string :=
  fixed_digits (count_digits (Z.to_nat (Z.log2 n)) n) n.

(** The integer [n] for which [n / 10^d - |v|] is as close to zero as
    possible, the larger one on a tie. *)
Definition scaled_round (d : nat) (v : R) : Z :=
  Int_part (Rabs v * 10 ^ d + / 2).

(** [v.toFixed (d)]: sign, integer digits, and [d] fraction digits after a
    point when [d > 0].  (From 10^21 on JavaScript prints an exponent instead;
    such magnitudes are outside the model.) *)
Definition toFixed (d : nat) (v : R) : string :=
  let n := scaled_round d v in
  (if Rltb v 0 then "-" else "") ++
  int_digits (n / 10 ^ Z.of_nat d) ++
  (match d with O => "" | S _ => "." ++ fixed_digits d n end).

(** Reads a run of digits: the number read so far, how many digits were read,
    and the rest of the text. *)
Fixpoint read_digits (s : string) (acc : Z) (k : nat) : Z * nat * string :=
  match s with
  | String c s' =>
      match char_digit c with
      | Some dg => read_digits s' (acc * 10 + dg) (S k)
      | None => (acc, k, s)
      end
  | EmptyString => (acc, k, s)
  end.

Definition read_sign (s : string) : bool * string :=
  match s with
  | String c s' =>
      if Ascii.eqb c "-" then (true, s')
      else if Ascii.eqb c "+" then (false, s')
      else (false, s)
  | EmptyString => (false, s)
  end.

Definition read_fraction (s : string) : Z * nat * string :=
  match s with
  | String c s' =>
      if Ascii.eqb c "." then read_digits s' 0 0 else (0%Z, 0%nat, s)
  | EmptyString => (0%Z, 0%nat, s)
  end.

(** [parseFloat] on plain decimal text: optional sign, digits, optional point
    and digits.  Text with no digit at all reads as NaN in JavaScript; it is
    read as [0] here and never arises from [toFixed]. *)
Definition parseFloat (s : string) : R :=
  let '(neg, s1) := read_sign s in
  let '(ip, ki, s2) := read_digits s1 0 0 in
  let '(fp, kf, _) := read_fraction s2 in
  let mag := (IZR ip + IZR fp / 10 ^ kf)%R in
  if (ki + kf =? 0)%nat then 0%R
  else if neg then (- mag)%R else mag.

(** The value of [parseFloat (v.toFixed (d))]. *)
Definition round_to (d : nat) (v : R) : R :=
  ((if Rltb v 0 then -1 else 1) * (IZR (scaled_round d v) / 10 ^ d))%R.

(** ** dxf.ts *)

Definition nl : string := String (ascii_of_nat 10) "".

Definition vertex_text (p : Point) : string :=
  ("0" ++ nl ++ "VERTEX" ++ nl ++ "8" ++ nl ++ "CycloidProfile" ++ nl) ++
  ("10" ++ nl ++ toFixed 4 (x p) ++ nl ++ "20" ++ nl ++ toFixed 4 (y p) ++ nl ++
   "30" ++ nl ++ "0.0" ++ nl).

Definition generateDXF (points holes : list Point) (params : CycloParams)
    : string :=
  let dxf := "0" ++ nl ++ "SECTION" ++ nl ++ "2" ++ nl ++ "ENTITIES" ++ nl in
  let dxf := dxf ++ ("0" ++ nl ++ "POLYLINE" ++ nl ++ "8" ++ nl ++
                     "CycloidProfile" ++ nl ++ "66" ++ nl ++ "1" ++ nl ++
                     "70" ++ nl ++ "1" ++ nl) in
  let dxf := fold_left (fun dxf p => dxf ++ vertex_text p) points dxf in
  let dxf := dxf ++ ("0" ++ nl ++ "SEQEND" ++ nl) in
  let effectiveHoleRadius := (holeRadius params + holeTolerance params)%R in
  let dxf := dxf ++ ("0" ++ nl ++ "CIRCLE" ++ nl ++ "8" ++ nl ++
                     "CenterHole" ++ nl) in
  let dxf := dxf ++ ("10" ++ nl ++ "0.0" ++ nl ++ "20" ++ nl ++ "0.0" ++ nl ++
                     "30" ++ nl ++ "0.0" ++ nl) in
  let dxf := dxf ++ ("40" ++ nl ++ toFixed 4 effectiveHoleRadius ++ nl) in
  let dxf := dxf ++ ("0" ++ nl ++ "ENDSEC" ++ nl ++ "0" ++ nl ++ "EOF" ++ nl) in
  dxf.

(** ** geometry.ts: the quality advisor *)

Record GeometricFix : Type := mkFix {
  label : string;
  description : string;
  params : CycloParams
}.

Record GeometricQuality : Type := mkQuality {
  valid : bool;
  warnings : list string;
  fixes : list GeometricFix
}.

(** The object spreads [{ ...params, field: v }]. *)
Definition with_eccentricity (p : CycloParams) (v : R) : CycloParams :=
  mkParams (pinCount p) (pinCircleRadius p) (pinRadius p) v (holeRadius p)
    (resolution p) (tolerance p) (holeTolerance p) (outputPinCount p)
    (outputPinRadius p) (outputPinCircleRadius p) (driveConfig p).

Definition with_pinCircleRadius (p : CycloParams) (v : R) : CycloParams :=
  mkParams (pinCount p) v (pinRadius p) (eccentricity p) (holeRadius p)
    (resolution p) (tolerance p) (holeTolerance p) (outputPinCount p)
    (outputPinRadius p) (outputPinCircleRadius p) (driveConfig p).

Definition with_pinRadius (p : CycloParams) (v : R) : CycloParams :=
  mkParams (pinCount p) (pinCircleRadius p) v (eccentricity p) (holeRadius p)
    (resolution p) (tolerance p) (holeTolerance p) (outputPinCount p)
    (outputPinRadius p) (outputPinCircleRadius p) (driveConfig p).

Definition with_holeRadius (p : CycloParams) (v : R) : CycloParams :=
  mkParams (pinCount p) (pinCircleRadius p) (pinRadius p) (eccentricity p) v
    (resolution p) (tolerance p) (holeTolerance p) (outputPinCount p)
    (outputPinRadius p) (outputPinCircleRadius p) (driveConfig p).

Definition DriveConfig_eq_dec (a b : DriveConfig) : {a = b} + {a <> b}.
Proof. decide equality. Defined.

Definition CycloParams_eq_dec (a b : CycloParams) : {a = b} + {a <> b}.
Proof.
  decide equality;
    solve [ apply Req_dec_T | apply Nat.eq_dec | apply DriveConfig_eq_dec ].
Defined.

(** [JSON.stringify (a) === JSON.stringify (b)] on parameter records of finite
    numbers: the texts agree exactly when every field agrees. *)
Definition json_eqb (a b : CycloParams) : bool :=
  if CycloParams_eq_dec a b then true else false.

(** [Array.prototype.findIndex]: the first index that satisfies [f], else -1. *)
Fixpoint findIndex {A : Type} (f : A -> bool) (l : list A) : Z :=
  match l with
  | [] => (-1)%Z
  | a :: l' =>
      if f a then 0%Z
      else let k := findIndex f l' in
           if (k <? 0)%Z then (-1)%Z else (k + 1)%Z
  end.

(** [Array.prototype.filter] with the element's index, counted from [i]. *)
Fixpoint filter_indexed {A : Type} (f : A -> nat -> bool) (i : nat)
    (l : list A) : list A :=
  match l with
  | [] => []
  | a :: l' =>
      if f a i then a :: filter_indexed f (S i) l'
      else filter_indexed f (S i) l'
  end.

Definition uniqueFixes (fixes : list GeometricFix) : list GeometricFix :=
  filter_indexed
    (fun fx index =>
       (Z.of_nat index =?
        findIndex (fun f => String.eqb (label f) (label fx) &&
                            json_eqb (params f) (params fx)) fixes)%Z)
    0 fixes.

Section Rendering.
(** The text of a number inside a template literal. *)
Variable toString : R -> string.
(** [d3.line ().x ().y ().curve (d3.curveLinearClosed)]: the closed outline
    through the points, or [null]. *)
Variable lineGenerator : list Point -> option string.

Definition eccentricity_rule (params : CycloParams)
    : list string * list GeometricFix :=
  let maxSafeEccentricity :=
    (pinCircleRadius params / (1.5 * pinCount params))%R in
  if Rgtb (eccentricity params) maxSafeEccentricity then
    let safeE :=
      parseFloat
        (toFixed 2 (pinCircleRadius params / (2.0 * pinCount params))%R) in
    let safeR :=
      parseFloat
        (toFixed 1 (eccentricity params * 2.0 * pinCount params)%R) in
    (["Eccentricity (" ++ toString (eccentricity params) ++
      "mm) is too high for this radius."],
     [mkFix "Reduce Eccentricity"
            ("Lower E to " ++ toString safeE ++ "mm")
            (with_eccentricity params safeE);
      mkFix "Increase Radius"
            ("Enlarge R to " ++ toString safeR ++ "mm")
            (with_pinCircleRadius params safeR)])
  else ([], []).

Definition pin_rule (params : CycloParams)
    : list string * list GeometricFix :=
  let pinSpacing :=
    (2 * PI * pinCircleRadius params / pinCount params)%R in
  if Rgtb (pinRadius params * 2) (pinSpacing * 0.95) then
    let safePinR := parseFloat (toFixed 2 (pinSpacing * 0.9 / 2)%R) in
    (["Pins are too large for spacing."],
     [mkFix "Shrink Pins"
            ("Reduce pin Ø to " ++ toString (safePinR * 2)%R ++ "mm")
            (with_pinRadius params safePinR)])
  else ([], []).

Definition approxInnerRadius (params : CycloParams) : R :=
  (pinCircleRadius params - pinCount params * eccentricity params
   - pinRadius params)%R.

Definition wall_rule (params : CycloParams)
    : list string * list GeometricFix :=
  if Rltb (approxInnerRadius params) (holeRadius params + 1.5) then
    let maxHole := Rmax 2 (approxInnerRadius params - 2.0) in
    let safeHole := parseFloat (toFixed 1 maxHole) in
    (["Wall thickness is critically low."],
     if Rgtb safeHole 0 then
       [mkFix "Shrink Center Hole"
              ("Set Hole R to " ++ toString safeHole ++ "mm")
              (with_holeRadius params safeHole)]
     else [])
  else ([], []).

(** The three rules run in order, each pushing onto [warnings] and
    [fixes]. *)
Definition getGeometricQuality (params : CycloParams) : GeometricQuality :=
  let '(w1, f1) := eccentricity_rule params in
  let '(w2, f2) := pin_rule params in
  let '(w3, f3) := wall_rule params in
  let warnings := (w1 ++ w2 ++ w3)%list in
  let fixes := (f1 ++ f2 ++ f3)%list in
  mkQuality (Nat.eqb (List.length warnings) 0) warnings (uniqueFixes fixes).

(** *** geometry.ts: the SVG path of the disc *)

Definition hole_text (holeR cx cy : R) : string :=
  (" M " ++ toString (cx + holeR) ++ " " ++ toString cy) ++
  (" A " ++ toString holeR ++ " " ++ toString holeR ++ " 0 1 0 " ++
   toString (cx - holeR) ++ " " ++ toString cy) ++
  (" A " ++ toString holeR ++ " " ++ toString holeR ++ " 0 1 0 " ++
   toString (cx + holeR) ++ " " ++ toString cy).

Definition getDiscSVGPath (profilePoints : list Point)
    (params : CycloParams) : string :=
  let pathD :=
    match lineGenerator profilePoints with
    | Some s => s
    | None => ""
    end in
  let holeR :=
    (outputPinRadius params + eccentricity params + holeTolerance params)%R in
  let numHoles := outputPinCount params in
  let holeDist := outputPinCircleRadius params in
  fold_left
    (fun pathD i =>
       let angle := (INR i / INR numHoles * 2 * PI)%R in
       let cx := (holeDist * cos angle)%R in
       let cy := (holeDist * sin angle)%R in
       pathD ++ hole_text holeR cx cy)
    (seq 0 numHoles) pathD.
End Rendering.

(** ** Vocabulary of the statements *)

Local Close Scope string_scope.
Local Open Scope R_scope.

(** The sample at [t] is degenerate: its tangent is shorter than [1e-6]. *)
Definition degenerate (p : CycloParams) (t : R) : Prop :=
  tangent_len (pinCount p) (pinCircleRadius p) (eccentricity p) t < eps.

(** The inward unit normal at [t]: (-dy/dt, dx/dt) / |tangent|. *)
Definition normal_x (p : CycloParams) (t : R) : R :=
  - dydt (pinCount p) (pinCircleRadius p) (eccentricity p) t /
  tangent_len (pinCount p) (pinCircleRadius p) (eccentricity p) t.

Definition normal_y (p : CycloParams) (t : R) : R :=
  dxdt (pinCount p) (pinCircleRadius p) (eccentricity p) t /
  tangent_len (pinCount p) (pinCircleRadius p) (eccentricity p) t.

(** The profile point of the sample at [t] for an offset [r]. *)
Definition offset_point (p : CycloParams) (r t : R) : Point :=
  mkPoint
    (locus_x (pinCount p) (pinCircleRadius p) (eccentricity p) t
     + r * normal_x p t)
    (locus_y (pinCount p) (pinCircleRadius p) (eccentricity p) t
     + r * normal_y p t)
    (Some (normal_x p t)) (Some (normal_y p t)) None None.

(** [pinRadius + effectiveTolerance] *)
Definition effective_offset (p : CycloParams) (ov : option R) : R :=
  pinRadius p + match ov with Some o => o | None => tolerance p end.

(** One list element for [Some], none for [None]. *)
Definition option_list {A : Type} (o : option A) : list A :=
  match o with
  | Some a => [a]
  | None => []
  end.

(** The sample indices of the loop, [0 .. resolution]. *)
Definition sample_indices (p : CycloParams) : list nat :=
  seq 0 (S (resolution p)).

(** [DEFAULT_PARAMS] of constants.ts. *)
Definition DEFAULT_PARAMS : CycloParams :=
  mkParams 12 50 5 1.5 10 720 0.15 0.1 6 5 25 housingFixed.

(** Point [b] is point [a] moved by [tol] along the unit normal they share,
    both stemming from sample [k] of the grid. *)
Definition displaced (p : CycloParams) (tol : R) (a b : Point) : Prop :=
  exists k : nat,
    (k <= resolution p)%nat /\
    let t := sample_t (resolution p) k in
    let n1 := normal_x p t in
    let n2 := normal_y p t in
    ~ degenerate p t /\
    nx a = Some n1 /\ ny a = Some n2 /\
    nx b = Some n1 /\ ny b = Some n2 /\
    n1 ^ 2 + n2 ^ 2 = 1 /\
    x b = x a + tol * n1 /\
    y b = y a + tol * n2 /\
    x b = locus_x (pinCount p) (pinCircleRadius p) (eccentricity p) t
          + (pinRadius p + tol) * n1 /\
    y b = locus_y (pinCount p) (pinCircleRadius p) (eccentricity p) t
          + (pinRadius p + tol) * n2 /\
    dist a b = tol.

(** The test [len < 1e-6] of the sample with index [i]. *)
Definition degenerateb (p : CycloParams) (i : nat) : bool :=
  Rltb (tangent_len (pinCount p) (pinCircleRadius p) (eccentricity p)
          (sample_t (resolution p) i)) eps.

(** The constraints of the data model on the curve parameters. *)
Definition data_model (p : CycloParams) : Prop :=
  (exists k : Z, pinCount p = IZR k /\ (4 <= k)%Z) /\
  0 < pinCircleRadius p /\ 0 < pinRadius p /\ 0 <= eccentricity p.

(** A cusp design: R = E * N with N = 4. *)
Definition cusp_params : CycloParams :=
  mkParams 4 4 1 1 0 3 0 0 0 0 0 housingFixed.

(** The indices of the samples that are kept. *)
Definition emitted_indices (p : CycloParams) : list nat :=
  filter (fun i => negb (degenerateb p i)) (sample_indices p).

(** [surfaceCurvature] and [pressureDeg] of the sample with index [i]. *)
Definition curvature_at (p : CycloParams) (i : nat) : number :=
  surfaceCurvature (pinCount p) (pinCircleRadius p) (eccentricity p)
    (pinRadius p) (sample_t (resolution p) i).

Definition pressure_at (p : CycloParams) (i : nat) : R :=
  pressureDeg (pinCount p) (pinCircleRadius p) (eccentricity p)
    (sample_t (resolution p) i).

(** The enriched point pushed for sample [i]. *)
Definition physics_point (p : CycloParams) (i : nat) : Point :=
  let pt := offset_point p (pinRadius p) (sample_t (resolution p) i) in
  mkPoint (x pt) (y pt) (nx pt) (ny pt)
    (Some (pressure_at p i)) (Some (curvature_at p i)).

(** The two running extrema of [calculatePhysicsMetrics]. *)
Definition min_update (m : R) (sc : number) : R :=
  match sc with
  | Finite v => if Rltb (Rabs v) (Rabs m) then v else m
  | NonFinite => m
  end.

Definition max_update (m : R) (d : R) : R := if Rgtb d m then d else m.

(** A design with R = E * N^2: the curve is flat at every sample of a
    3-step grid. *)
Definition flat_params : CycloParams :=
  mkParams 4 16 5 1 0 3 0 0 0 0 0 housingFixed.

(** The conditions of the three rules of the advisor. *)
Definition eccentricity_trigger (p : CycloParams) : bool :=
  Rgtb (eccentricity p) (pinCircleRadius p / (1.5 * pinCount p)).

Definition pin_trigger (p : CycloParams) : bool :=
  Rgtb (pinRadius p * 2) (2 * PI * pinCircleRadius p / pinCount p * 0.95).

Definition wall_trigger (p : CycloParams) : bool :=
  Rltb (approxInnerRadius p) (holeRadius p + 1.5).

(** The values proposed by the fixes. *)
Definition safeE (p : CycloParams) : R :=
  round_to 2 (pinCircleRadius p / (2 * pinCount p)).

Definition safeR (p : CycloParams) : R :=
  round_to 1 (eccentricity p * 2 * pinCount p).

Definition safePinR (p : CycloParams) : R :=
  round_to 2 (2 * PI * pinCircleRadius p / pinCount p * 0.9 / 2).

Definition safeHole (p : CycloParams) : R :=
  round_to 1 (Rmax 2 (approxInnerRadius p - 2)).

(** The four fixes and three warnings the advisor can emit. *)
Definition eccentricity_warning (toString : R -> string) (p : CycloParams)
    : string :=
  ("Eccentricity (" ++ toString (eccentricity p) ++
   "mm) is too high for this radius.")%string.

Definition reduce_eccentricity_fix (toString : R -> string) (p : CycloParams)
    : GeometricFix :=
  mkFix "Reduce Eccentricity"
    ("Lower E to " ++ toString (safeE p) ++ "mm")%string
    (with_eccentricity p (safeE p)).

Definition increase_radius_fix (toString : R -> string) (p : CycloParams)
    : GeometricFix :=
  mkFix "Increase Radius"
    ("Enlarge R to " ++ toString (safeR p) ++ "mm")%string
    (with_pinCircleRadius p (safeR p)).

Definition shrink_pins_fix (toString : R -> string) (p : CycloParams)
    : GeometricFix :=
  mkFix "Shrink Pins"
    ("Reduce pin Ø to " ++ toString (safePinR p * 2) ++ "mm")%string
    (with_pinRadius p (safePinR p)).

Definition shrink_hole_fix (toString : R -> string) (p : CycloParams)
    : GeometricFix :=
  mkFix "Shrink Center Hole"
    ("Set Hole R to " ++ toString (safeHole p) ++ "mm")%string
    (with_holeRadius p (safeHole p)).

(** A fix changes one field of [p] and nothing else. *)
Definition single_field_fix (p : CycloParams) (f : GeometricFix) : Prop :=
  (label f = "Reduce Eccentricity"%string /\
   params f = with_eccentricity p (eccentricity (params f))) \/
  (label f = "Increase Radius"%string /\
   params f = with_pinCircleRadius p (pinCircleRadius (params f))) \/
  (label f = "Shrink Pins"%string /\
   params f = with_pinRadius p (pinRadius (params f))) \/
  (label f = "Shrink Center Hole"%string /\
   params f = with_holeRadius p (holeRadius (params f))).

(** A printer of numbers to put in place of the parameter [toString]. *)
Definition print3 : R -> string := toFixed 3.

(** A very small drive: R = 0.15 mm with 12 pins. *)
Definition tiny_params : CycloParams :=
  mkParams 12 0.15 0.01 1 0 720 0 0 6 0.01 0.05 housingFixed.

(** A drive whose estimated inner radius is 1 mm around a 5 mm bore. *)
Definition thin_wall_params : CycloParams :=
  mkParams 4 10 5 1 5 720 0 0 6 1 3 housingFixed.

(** The warnings and fixes pushed by the three rules, in order. *)
Definition pushed_warnings (toString : R -> string) (p : CycloParams)
    : list string :=
  (if eccentricity_trigger p then [eccentricity_warning toString p] else []) ++
  (if pin_trigger p then ["Pins are too large for spacing."%string] else []) ++
  (if wall_trigger p then ["Wall thickness is critically low."%string] else []).

Definition pushed_fixes (toString : R -> string) (p : CycloParams)
    : list GeometricFix :=
  (if eccentricity_trigger p
   then [reduce_eccentricity_fix toString p; increase_radius_fix toString p]
   else []) ++
  (if pin_trigger p then [shrink_pins_fix toString p] else []) ++
  (if wall_trigger p then [shrink_hole_fix toString p] else []).

(** The default drive with its eccentricity raised to 5 mm. *)
Definition steep_params : CycloParams := with_eccentricity DEFAULT_PARAMS 5.

(** *** The export document, line by line *)

(** The text whose lines are [ls], each ended by a line feed. *)
Definition unlines (ls : list string) : string :=
  fold_right (fun l acc => (l ++ nl ++ acc)%string) ""%string ls.

(** The group codes and values of one VERTEX entity. *)
Definition vertex_lines (p : Point) : list string :=
  ["0"; "VERTEX"; "8"; "CycloidProfile";
   "10"; toFixed 4 (x p); "20"; toFixed 4 (y p); "30"; "0.0"]%string.

(** The closed POLYLINE on layer CycloidProfile with its vertices. *)
Definition polyline_lines (pts : list Point) : list string :=
  ["0"; "POLYLINE"; "8"; "CycloidProfile"; "66"; "1"; "70"; "1"]%string
  ++ flat_map vertex_lines pts ++ ["0"; "SEQEND"]%string.

(** The CIRCLE on layer CenterHole, centred at (0,0,0), of radius text [r]. *)
Definition circle_lines (r : string) : list string :=
  ["0"; "CIRCLE"; "8"; "CenterHole";
   "10"; "0.0"; "20"; "0.0"; "30"; "0.0"; "40"; r]%string.

Definition dxf_lines (pts : list Point) (p : CycloParams) : list string :=
  ["0"; "SECTION"; "2"; "ENTITIES"]%string
  ++ polyline_lines pts
  ++ circle_lines (toFixed 4 (holeRadius p + holeTolerance p))
  ++ ["0"; "ENDSEC"; "0"; "EOF"]%string.

(** [s] is the text of [v] with exactly [d] digits after the point. *)
Definition decimal_text (d : nat) (v : R) (s : string) : Prop :=
  (exists a b, s = (a ++ "." ++ b)%string /\ String.length b = d) /\
  parseFloat s = round_to d v.

Fixpoint has_dot (s : string) : bool :=
  match s with
  | EmptyString => false
  | String c s' => Ascii.eqb c "." || has_dot s'
  end.

(** How many lines of [ls] are exactly [s]. *)
Definition count_lines (s : string) (ls : list string) : nat :=
  List.length (filter (String.eqb s) ls).

(** [p] with another output stage (pin count, pin radius, pin circle). *)
Definition with_output_stage (p : CycloParams) (n : nat) (r c : R)
    : CycloParams :=
  mkParams (pinCount p) (pinCircleRadius p) (pinRadius p) (eccentricity p)
    (holeRadius p) (resolution p) (tolerance p) (holeTolerance p) n r c
    (driveConfig p).

(** *** SVG path commands *)

(** The two path commands of a cutout: an absolute move, and an absolute
    elliptical arc with its radii, x-axis rotation 0, large-arc and sweep
    flags and end point. *)
Inductive PathCmd : Type :=
| MoveTo (px py : R)
| ArcTo (rx ry : R) (largeArc sweep : bool) (px py : R).

Definition flag_text (b : bool) : string := if b then "1"%string else "0"%string.

Definition render_cmd (toString : R -> string) (c : PathCmd) : string :=
  match c with
  | MoveTo px py => (" M " ++ toString px ++ " " ++ toString py)%string
  | ArcTo rx ry la sw px py =>
      (" A " ++ toString rx ++ " " ++ toString ry ++ " 0 " ++
       flag_text la ++ " " ++ flag_text sw ++ " " ++
       toString px ++ " " ++ toString py)%string
  end.

Definition render_path (toString : R -> string) (cs : list PathCmd) : string :=
  fold_right (fun c acc => (render_cmd toString c ++ acc)%string) ""%string cs.

(** The radius and the centres of the output-pin cutouts. *)
Definition hole_radius (p : CycloParams) : R :=
  outputPinRadius p + eccentricity p + holeTolerance p.

Definition hole_angle (p : CycloParams) (i : nat) : R :=
  2 * PI * INR i / INR (outputPinCount p).

Definition hole_cx (p : CycloParams) (i : nat) : R :=
  outputPinCircleRadius p * cos (hole_angle p i).

Definition hole_cy (p : CycloParams) (i : nat) : R :=
  outputPinCircleRadius p * sin (hole_angle p i).

(** A circle of radius [r] about (cx, cy) drawn as two half-circle arcs, both
    with sweep flag 0: from the point at angle 0 to the opposite point and
    back. *)
Definition hole_cmds (r cx cy : R) : list PathCmd :=
  [MoveTo (cx + r) cy;
   ArcTo r r true false (cx - r) cy;
   ArcTo r r true false (cx + r) cy].




(** The 'Heavy Duty' preset of constants.ts. *)
Definition HEAVY_DUTY : CycloParams :=
  mkParams 8 100 15 4.0 25 720 0.25 0.2 6 12 50 housingFixed.

(** A plain circle: the default drive with no eccentricity. *)
Definition circle_params : CycloParams := with_eccentricity DEFAULT_PARAMS 0.

(** ** geometry.ts: the remaining helpers, and their callers *)

(** How often [for (let i = 0; i < n; i++)] runs for a real bound [n]: the
    least natural number that is not below [n]. *)
Definition loop_count (n : R) : nat := Z.to_nat (- Int_part (- n)).

(** [generatePinPoints]: one point per housing pin. *)
Definition generatePinPoints (params : CycloParams) : list Point :=
  let pinCount := pinCount params in
  let pinCircleRadius := pinCircleRadius params in
  fold_left
    (fun pins i =>
       let angle := INR i / pinCount * 2 * PI in
       pins ++ [mkPoint (pinCircleRadius * cos angle)
                        (pinCircleRadius * sin angle) None None None None])
    (seq 0 (loop_count pinCount)) [].

(** [calculateMinWallThickness]: the least distance from the centre bore to
    a point, starting from [Number.MAX_VALUE]. *)
Definition calculateMinWallThickness (points : list Point) (holeRadius : R)
    : R :=
  fold_left
    (fun minDist p =>
       let d := sqrt (x p * x p + y p * y p) in
       let wall := d - holeRadius in
       if Rltb wall minDist then wall else minDist)
    points MAX_VALUE.

(** [checkInterference] *)
Definition checkInterference (points : list Point) : bool := false.

(** Visualizer.tsx: the output pins that are drawn. *)
Definition outputPinPoints (params : CycloParams) : list Point :=
  fold_left
    (fun pins i =>
       let angle := INR i / INR (outputPinCount params) * 2 * PI in
       pins ++ [mkPoint (outputPinCircleRadius params * cos angle)
                        (outputPinCircleRadius params * sin angle)
                        None None None None])
    (seq 0 (outputPinCount params)) [].

(** App.tsx, [handleDownload]: the text that is saved. *)
Definition dxfContent (params : CycloParams) : string :=
  let profilePoints := generateCycloidProfile params None in
  let pinPoints := generatePinPoints params in
  generateDXF profilePoints pinPoints params.

(** AIAssistant.tsx, [handleAnalyze]: the wall thickness sent for analysis. *)
Definition analysisMinWall (params : CycloParams) : R :=
  let points := generateCycloidProfile params None in
  calculateMinWallThickness points (holeRadius params).

(** Controls.tsx: the caption under the pressure-angle gauge. *)
Definition efficiencyCaption (params : CycloParams) : string :=
  let physics := calculatePhysicsMetrics params in
  if Rgtb (maxPressureAngle physics) 45 then "Inefficient"%string
  else "Good Efficiency"%string.

(** *** Vocabulary for their statements *)

(** The distance of a point from the centre of the disc. *)
Definition radius_of (pt : Point) : R := sqrt (x pt * x pt + y pt * y pt).

(** The point at angle [a] of the circle of radius [r] about the origin. *)
Definition circle_point (r a : R) : Point :=
  mkPoint (r * cos a) (r * sin a) None None None None.

(** A point turned by the angle [a] about the origin, its normal with it. *)
Definition rotate (a : R) (pt : Point) : Point :=
  mkPoint (cos a * x pt - sin a * y pt) (sin a * x pt + cos a * y pt)
    (match nx pt, ny pt with
     | Some n1, Some n2 => Some (cos a * n1 - sin a * n2)
     | _, _ => None
     end)
    (match nx pt, ny pt with
     | Some n1, Some n2 => Some (sin a * n1 + cos a * n2)
     | _, _ => None
     end)
    (pressureAngle pt) (curvatureRadius pt).

(** The geometric part of a point: position and normal. *)
Definition geometry_of (pt : Point) : Point :=
  mkPoint (x pt) (y pt) (nx pt) (ny pt) None None.

(** Two fixes that the de-duplication pass takes for the same. *)
Definition same_fix (a b : GeometricFix) : Prop :=
  label a = label b /\ params a = params b.

(** The default drive sampled at 22 steps, two per lobe. *)
Definition coarse_params : CycloParams :=
  mkParams 12 50 5 1.5 10 22 0.15 0.1 6 5 25 housingFixed.

(** The default drive with pins of radius 20 mm, too large for their spacing. *)
Definition fat_pin_params : CycloParams := with_pinRadius DEFAULT_PARAMS 20.

(** [pinSpacing] of the advisor. *)
Definition pinSpacing (p : CycloParams) : R :=
  2 * PI * pinCircleRadius p / pinCount p.

(** The test of the de-duplication pass: same label and same parameters. *)
Definition same_fixb (f fx : GeometricFix) : bool :=
  String.eqb (label f) (label fx) && json_eqb (params f) (params fx).

(** Keeps the elements of [l] that match none of [seen] nor any earlier
    element of [l]. *)
Fixpoint keep_first (seen l : list GeometricFix) : list GeometricFix :=
  match l with
  | [] => []
  | a :: l' =>
      if existsb (fun f => same_fixb f a) seen
      then keep_first (seen ++ [a]) l'
      else a :: keep_first (seen ++ [a]) l'
  end.

(** The default drive with an eccentricity of 0.3 mm: R > E * N^2. *)
Definition gentle_params : CycloParams := with_eccentricity DEFAULT_PARAMS 0.3.

(** *** Which way the normal points *)

(** The scalar product of the normal at [t] with the position vector of the
    locus point: negative when the normal points to the side of the centre. *)
Definition normal_dot_locus (p : CycloParams) (t : R) : R :=
  locus_x (pinCount p) (pinCircleRadius p) (eccentricity p) t * normal_x p t
  + locus_y (pinCount p) (pinCircleRadius p) (eccentricity p) t * normal_y p t.

(** (R - E) (R - E N) / (R + E N): on a design with E N < R the locus never
    comes closer to the centre, measured along the normal. *)
Definition centre_margin (p : CycloParams) : R :=
  (pinCircleRadius p - eccentricity p)
  * (pinCircleRadius p - eccentricity p * pinCount p)
  / (pinCircleRadius p + eccentricity p * pinCount p).

(** The default drive with an eccentricity of 10 mm: E * N > R, the locus
    has loops. *)
Definition loop_params : CycloParams := with_eccentricity DEFAULT_PARAMS 10.

(** * Properties *)

(** ** Boolean tests *)

Lemma Rltb_true (a b : R) : Rltb a b = true <-> a < b.
Proof. unfold Rltb; destruct (Rlt_dec a b); split; intros; auto; discriminate. Qed.

Lemma Rltb_false (a b : R) : Rltb a b = false <-> b <= a.
Proof.
  unfold Rltb; destruct (Rlt_dec a b); split; intros; auto; try discriminate; lra.
Qed.

Lemma Rltb_spec (a b : R) : reflect (a < b) (Rltb a b).
Proof. unfold Rltb; destruct (Rlt_dec a b); constructor; assumption. Qed.

Lemma eps_pos : 0 < eps.
Proof. unfold eps; lra. Qed.

(** ** Loops that push onto an array *)

Lemma fold_push {A B : Type} (f : B -> option A) (l : list B) (init : list A) :
  fold_left (fun acc i => match f i with
                          | None => acc
                          | Some v => acc ++ [v]
                          end) l init
  = init ++ flat_map (fun i => option_list (f i)) l.
Proof.
  revert init; induction l as [|b l IH]; intros init; simpl.
  - now rewrite app_nil_r.
  - rewrite IH. destruct (f b); simpl.
    + now rewrite <- app_assoc.
    + reflexivity.
Qed.

Lemma flat_map_option_length {A B : Type} (f : B -> option A) (l : list B) :
  (List.length (flat_map (fun i => option_list (f i)) l) <= List.length l)%nat.
Proof.
  induction l as [|b l IH]; simpl; [lia|].
  rewrite length_app. destruct (f b); simpl; lia.
Qed.

(** ** generateCycloidProfile *)

Lemma profile_sample_spec (p : CycloParams) (r t : R) :
  profile_sample (pinCount p) (pinCircleRadius p) r (eccentricity p) t
  = if Rltb (tangent_len (pinCount p) (pinCircleRadius p) (eccentricity p) t) eps
    then None else Some (offset_point p r t).
Proof.
  unfold profile_sample, offset_point, normal_x, normal_y, tangent_len, isNaN.
  rewrite orb_false_r. reflexivity.
Qed.

Lemma generateCycloidProfile_samples (p : CycloParams) (ov : option R) :
  generateCycloidProfile p ov
  = flat_map
      (fun i =>
         option_list
           (profile_sample (pinCount p) (pinCircleRadius p)
              (effective_offset p ov) (eccentricity p)
              (sample_t (resolution p) i)))
      (sample_indices p).
Proof.
  unfold generateCycloidProfile, sample_indices, effective_offset.
  now rewrite fold_push.
Qed.

Lemma tangent_len_sqr (N R0 E t : R) :
  tangent_len N R0 E t * tangent_len N R0 E t
  = dxdt N R0 E t * dxdt N R0 E t + dydt N R0 E t * dydt N R0 E t.
Proof.
  unfold tangent_len. apply sqrt_sqrt. nra.
Qed.

Lemma normal_unit (p : CycloParams) (t : R) :
  ~ degenerate p t -> normal_x p t ^ 2 + normal_y p t ^ 2 = 1.
Proof.
  unfold degenerate, normal_x, normal_y. intros Hd.
  pose proof eps_pos as He.
  pose proof (tangent_len_sqr (pinCount p) (pinCircleRadius p) (eccentricity p) t)
    as Hs.
  set (len := tangent_len _ _ _ t) in *.
  assert (Hlen : len <> 0) by lra.
  field_simplify_eq; [|exact Hlen]. nra.
Qed.

Lemma shift_distance (a b r tol n1 n2 : R) :
  0 <= tol -> n1 ^ 2 + n2 ^ 2 = 1 ->
  sqrt ((a + (r + tol) * n1 - (a + (r + 0) * n1)) ^ 2
        + (b + (r + tol) * n2 - (b + (r + 0) * n2)) ^ 2) = tol.
Proof.
  intros Htol Hu.
  replace ((a + (r + tol) * n1 - (a + (r + 0) * n1)) ^ 2
           + (b + (r + tol) * n2 - (b + (r + 0) * n2)) ^ 2)
    with (tol * tol * (n1 ^ 2 + n2 ^ 2)) by ring.
  rewrite Hu, Rmult_1_r. now apply sqrt_square.
Qed.

(** The squared tangent length in closed form. *)
Lemma tangent_len_sq (N R0 E t : R) :
  tangent_len N R0 E t * tangent_len N R0 E t
  = R0 * R0 + E * E * N * N - 2 * R0 * E * N * cos ((N - 1) * t).
Proof.
  rewrite tangent_len_sqr. unfold dxdt, dydt.
  replace ((N - 1) * t) with (N * t - t) by ring. rewrite cos_minus.
  pose proof (sin2_cos2 t) as H1. pose proof (sin2_cos2 (N * t)) as H2.
  unfold Rsqr in H1, H2.
  set (s := sin t) in *. set (c := cos t) in *.
  set (s' := sin (N * t)) in *. set (c' := cos (N * t)) in *.
  replace ((- R0 * s + E * N * s') * (- R0 * s + E * N * s')
           + (R0 * c - E * N * c') * (R0 * c - E * N * c'))
    with (R0 * R0 * (s * s + c * c) + E * E * N * N * (s' * s' + c' * c')
          - 2 * R0 * E * N * (c' * c + s' * s)) by ring.
  rewrite H1, H2. ring.
Qed.

Lemma tangent_len_nonneg (N R0 E t : R) : 0 <= tangent_len N R0 E t.
Proof. unfold tangent_len. apply sqrt_pos. Qed.

(** ** Which way the normal points *)

(** The locus point against the rotated tangent (-dy/dt, dx/dt). *)
Lemma locus_dot_normal (N R0 E t : R) :
  locus_x N R0 E t * - dydt N R0 E t + locus_y N R0 E t * dxdt N R0 E t
  = - (R0 * R0 + E * E * N - R0 * E * (N + 1) * cos ((N - 1) * t)).
Proof.
  unfold locus_x, locus_y, dxdt, dydt.
  replace ((N - 1) * t) with (N * t - t) by ring. rewrite cos_minus.
  pose proof (sin2_cos2 t) as H1. pose proof (sin2_cos2 (N * t)) as H2.
  unfold Rsqr in H1, H2.
  set (s := sin t) in *. set (c := cos t) in *.
  set (s' := sin (N * t)) in *. set (c' := cos (N * t)) in *.
  replace ((R0 * c - E * c') * - (R0 * c - E * N * c')
           + (R0 * s - E * s') * (- R0 * s + E * N * s'))
    with (- (R0 * R0 * (s * s + c * c) + E * E * N * (s' * s' + c' * c')
             - R0 * E * (N + 1) * (c' * c + s' * s))) by ring.
  rewrite H1, H2. ring.
Qed.

(** Without loops the tangent is between R - E N and R + E N long. *)
Lemma tangent_len_between (N R0 E t : R) :
  0 <= E -> 1 <= N -> E * N < R0 ->
  R0 - E * N <= tangent_len N R0 E t <= R0 + E * N.
Proof.
  intros HE HN HR.
  pose proof (tangent_len_sq N R0 E t) as Hs.
  pose proof (tangent_len_nonneg N R0 E t) as H0.
  pose proof (COS_bound ((N - 1) * t)) as [Hc1 Hc2].
  assert (HEN : 0 <= E * N) by (apply Rmult_le_pos; lra).
  assert (Hp : 0 <= R0 * E * N) by nra.
  assert (Hu : R0 * E * N * cos ((N - 1) * t) <= R0 * E * N) by nra.
  assert (Hl : - (R0 * E * N) <= R0 * E * N * cos ((N - 1) * t)) by nra.
  set (len := tangent_len N R0 E t) in *.
  split; apply Rnot_lt_le; intros Hlt; nra.
Qed.

Lemma normal_unit_pos (p : CycloParams) (t : R) :
  0 < tangent_len (pinCount p) (pinCircleRadius p) (eccentricity p) t ->
  normal_x p t * normal_x p t + normal_y p t * normal_y p t = 1.
Proof.
  unfold normal_x, normal_y. intros Hd.
  pose proof (tangent_len_sqr (pinCount p) (pinCircleRadius p) (eccentricity p) t)
    as Hs.
  set (len := tangent_len _ _ _ t) in *.
  assert (Hlen : len <> 0) by lra.
  field_simplify_eq; [|exact Hlen]. nra.
Qed.

(** On a design without loops (E N < R) the normal has a component of at
    least [centre_margin] towards the centre, at every parameter. *)
Lemma normal_towards_centre (p : CycloParams) (t : R) :
  0 <= eccentricity p -> 1 <= pinCount p ->
  eccentricity p * pinCount p < pinCircleRadius p ->
  0 < centre_margin p /\ normal_dot_locus p t <= - centre_margin p.
Proof.
  intros HE HN HR.
  pose proof (tangent_len_between (pinCount p) (pinCircleRadius p)
                (eccentricity p) t HE HN HR) as [Hlo Hhi].
  pose proof (locus_dot_normal (pinCount p) (pinCircleRadius p)
                (eccentricity p) t) as Hdot.
  pose proof (COS_bound ((pinCount p - 1) * t)) as [_ Hc].
  assert (HEN : 0 <= eccentricity p * pinCount p) by (apply Rmult_le_pos; lra).
  unfold normal_dot_locus, centre_margin, normal_x, normal_y.
  set (len := tangent_len _ _ _ t) in *.
  set (D := pinCircleRadius p * pinCircleRadius p
            + eccentricity p * eccentricity p * pinCount p
            - pinCircleRadius p * eccentricity p * (pinCount p + 1)
              * cos ((pinCount p - 1) * t)) in *.
  set (M := (pinCircleRadius p - eccentricity p)
            * (pinCircleRadius p - eccentricity p * pinCount p)).
  assert (HM : 0 < M).
  { unfold M. apply Rmult_lt_0_compat; nra. }
  assert (HD : M <= D).
  { unfold M, D.
    assert (pinCircleRadius p * eccentricity p * (pinCount p + 1)
            * cos ((pinCount p - 1) * t)
            <= pinCircleRadius p * eccentricity p * (pinCount p + 1)).
    { assert (0 <= pinCircleRadius p * eccentricity p * (pinCount p + 1))
        by (repeat apply Rmult_le_pos; lra).
      nra. }
    lra. }
  assert (Hlen : 0 < len) by lra.
  assert (Hsum : 0 < pinCircleRadius p + eccentricity p * pinCount p) by lra.
  split.
  - unfold Rdiv. apply Rmult_lt_0_compat; [exact HM|].
    now apply Rinv_0_lt_compat.
  - replace (locus_x (pinCount p) (pinCircleRadius p) (eccentricity p) t
             * (- dydt (pinCount p) (pinCircleRadius p) (eccentricity p) t / len)
             + locus_y (pinCount p) (pinCircleRadius p) (eccentricity p) t
               * (dxdt (pinCount p) (pinCircleRadius p) (eccentricity p) t / len))
      with (- (D / len)).
    2:{ replace D
          with (- (locus_x (pinCount p) (pinCircleRadius p) (eccentricity p) t
                   * - dydt (pinCount p) (pinCircleRadius p) (eccentricity p) t
                   + locus_y (pinCount p) (pinCircleRadius p) (eccentricity p) t
                     * dxdt (pinCount p) (pinCircleRadius p) (eccentricity p) t))
          by lra.
        field. lra. }
    apply Ropp_le_contravar.
    apply Rle_trans with (M / len).
    + unfold Rdiv. apply Rmult_le_compat_l; [lra|].
      apply Rinv_le_contravar; lra.
    + unfold Rdiv. apply Rmult_le_compat_r; [|exact HD].
      left. now apply Rinv_0_lt_compat.
Qed.

(** A larger offset along such a normal brings the point closer to the
    centre, as long as the offset stays within the margin. *)
Lemma offset_point_closer (p : CycloParams) (tol t : R) :
  0 <= eccentricity p -> 1 <= pinCount p ->
  eccentricity p * pinCount p < pinCircleRadius p ->
  0 < tol -> pinRadius p + tol / 2 < centre_margin p ->
  radius_of (offset_point p (pinRadius p + tol) t)
  < radius_of (offset_point p (pinRadius p + 0) t).
Proof.
  intros HE HN HR Htol Hm.
  pose proof (normal_towards_centre p t HE HN HR) as [_ Hdot].
  pose proof (tangent_len_between (pinCount p) (pinCircleRadius p)
                (eccentricity p) t HE HN HR) as [Hlo _].
  assert (Hu : normal_x p t * normal_x p t + normal_y p t * normal_y p t = 1)
    by (apply normal_unit_pos; lra).
  unfold normal_dot_locus in Hdot.
  unfold radius_of, offset_point. cbn [x y].
  set (u := locus_x _ _ _ t) in *. set (v := locus_y _ _ _ t) in *.
  set (n1 := normal_x p t) in *. set (n2 := normal_y p t) in *.
  set (r := pinRadius p) in *. set (M := centre_margin p) in *.
  apply sqrt_lt_1_alt. split.
  - pose proof (Rle_0_sqr (u + (r + tol) * n1)) as S1.
    pose proof (Rle_0_sqr (v + (r + tol) * n2)) as S2.
    unfold Rsqr in S1, S2. lra.
  - assert (Hd : (u + (r + tol) * n1) * (u + (r + tol) * n1)
                 + (v + (r + tol) * n2) * (v + (r + tol) * n2)
                 - ((u + (r + 0) * n1) * (u + (r + 0) * n1)
                    + (v + (r + 0) * n2) * (v + (r + 0) * n2))
                 = tol * (2 * (u * n1 + v * n2)
                          + (2 * r + tol) * (n1 * n1 + n2 * n2))) by ring.
    rewrite Hu in Hd.
    assert (Hneg : tol * (2 * (u * n1 + v * n2) + (2 * r + tol) * 1) < 0).
    { assert (2 * (u * n1 + v * n2) + (2 * r + tol) * 1 < 0) by lra. nra. }
    lra.
Qed.

Lemma Forall2_map_same {A B C : Type} (Q : B -> C -> Prop) (f : A -> B)
    (g : A -> C) (l : list A) :
  (forall a, In a l -> Q (f a) (g a)) -> Forall2 Q (map f l) (map g l).
Proof.
  induction l as [|a l IH]; intros H; simpl; constructor.
  - apply H. now left.
  - apply IH. intros b Hb. apply H. now right.
Qed.

Lemma displaced_offset_points (p : CycloParams) (tol : R) (k : nat) :
  0 <= tol -> (k <= resolution p)%nat ->
  ~ degenerate p (sample_t (resolution p) k) ->
  displaced p tol
    (offset_point p (pinRadius p + 0) (sample_t (resolution p) k))
    (offset_point p (pinRadius p + tol) (sample_t (resolution p) k)).
Proof.
  intros Htol Hk Hd. exists k. split; [exact Hk|]. cbv zeta.
  pose proof (normal_unit p _ Hd) as Hu.
  repeat split; simpl; try reflexivity; try assumption; try ring.
  unfold dist; simpl. now apply shift_distance.
Qed.

Lemma flat_map_option_filter {A B : Type} (c : B -> bool) (g : B -> A)
    (l : list B) :
  flat_map (fun i => option_list (if c i then None else Some (g i))) l
  = map g (filter (fun i => negb (c i)) l).
Proof.
  induction l as [|b l IH]; simpl; [reflexivity|].
  rewrite IH. now destruct (c b).
Qed.

Lemma generateCycloidProfile_filter (p : CycloParams) (ov : option R) :
  generateCycloidProfile p ov
  = map (fun i => offset_point p (effective_offset p ov)
                    (sample_t (resolution p) i))
      (filter (fun i => negb (degenerateb p i)) (sample_indices p)).
Proof.
  rewrite generateCycloidProfile_samples.
  rewrite <- flat_map_option_filter. apply flat_map_ext. intros i.
  now rewrite profile_sample_spec.
Qed.

(** C1 (amended). For every parameter set and every tolerance [tol >= 0],
    the zero-tolerance profile and the [tol] profile have the same length;
    corresponding points carry the same unit normal
    (-dy/dt, dx/dt)/|tangent| of their common sample, and the [tol] point is
    the zero-tolerance point moved by exactly [tol] along that normal, that is
    locus + (pinRadius + tol) * normal, at distance [tol] from it.  The normal
    points to the side of the centre on the designs without loops: for
    E >= 0, N >= 1 and E N < R its scalar product with the position of the
    locus point is negative at every parameter, and when moreover [tol > 0]
    and pinRadius + tol/2 < (R - E)(R - E N)/(R + E N) every [tol] point is
    strictly closer to the centre than its zero-tolerance point. *)
Theorem C1_offset_along_normal (p : CycloParams) (tol : R) :
  0 <= tol ->
  List.length (generateCycloidProfile p (Some 0))
  = List.length (generateCycloidProfile p (Some tol)) /\
  Forall2 (displaced p tol)
    (generateCycloidProfile p (Some 0))
    (generateCycloidProfile p (Some tol)) /\
  (0 <= eccentricity p -> 1 <= pinCount p ->
   eccentricity p * pinCount p < pinCircleRadius p ->
   (forall t : R, normal_dot_locus p t < 0) /\
   (0 < tol -> pinRadius p + tol / 2 < centre_margin p ->
    Forall2 (fun a b => radius_of b < radius_of a)
      (generateCycloidProfile p (Some 0))
      (generateCycloidProfile p (Some tol)))).
Proof.
  intros Htol.
  assert (HF : Forall2 (displaced p tol)
                 (generateCycloidProfile p (Some 0))
                 (generateCycloidProfile p (Some tol))).
  { rewrite !generateCycloidProfile_samples. unfold effective_offset.
    assert (Hin : forall i, In i (sample_indices p) -> (i <= resolution p)%nat).
    { unfold sample_indices. intros i Hi. apply in_seq in Hi. lia. }
    induction (sample_indices p) as [|i l IH]; simpl; [constructor|].
    apply Forall2_app.
    - rewrite !profile_sample_spec.
      destruct (Rltb_spec
                  (tangent_len (pinCount p) (pinCircleRadius p)
                     (eccentricity p) (sample_t (resolution p) i)) eps)
        as [Hlt|Hge]; simpl; constructor; [|constructor].
      apply displaced_offset_points; auto. apply Hin; now left.
    - apply IH. intros j Hj. apply Hin; now right. }
  split; [now apply Forall2_length in HF|].
  split; [exact HF|].
  intros HE HN HR. split.
  - intros t. destruct (normal_towards_centre p t HE HN HR) as [Hm Hd]. lra.
  - intros Hpos Hm. rewrite !generateCycloidProfile_filter.
    apply Forall2_map_same. intros i _. unfold effective_offset.
    now apply offset_point_closer.
Qed.

Lemma C1_offset_along_normal_witness :
  0 <= 0.15 /\
  Forall2 (displaced DEFAULT_PARAMS 0.15)
    (generateCycloidProfile DEFAULT_PARAMS (Some 0))
    (generateCycloidProfile DEFAULT_PARAMS (Some 0.15)) /\
  Forall2 (fun a b => radius_of b < radius_of a)
    (generateCycloidProfile DEFAULT_PARAMS (Some 0))
    (generateCycloidProfile DEFAULT_PARAMS (Some 0.15)).
Proof.
  assert (H0 : 0 <= 0.15) by lra.
  assert (HE : 0 <= eccentricity DEFAULT_PARAMS) by (simpl; lra).
  assert (HN : 1 <= pinCount DEFAULT_PARAMS) by (simpl; lra).
  assert (HR : eccentricity DEFAULT_PARAMS * pinCount DEFAULT_PARAMS
               < pinCircleRadius DEFAULT_PARAMS) by (simpl; lra).
  assert (Hp : 0 < 0.15) by lra.
  assert (Hm : pinRadius DEFAULT_PARAMS + 0.15 / 2
               < centre_margin DEFAULT_PARAMS)
    by (unfold centre_margin; simpl; lra).
  split; [exact H0|]. split.
  - exact (proj1 (proj2 (C1_offset_along_normal DEFAULT_PARAMS 0.15 H0))).
  - exact (proj2 (proj2 (proj2 (C1_offset_along_normal DEFAULT_PARAMS 0.15 H0))
                    HE HN HR) Hp Hm).
Defined.

Lemma degenerateb_false (p : CycloParams) (i : nat) :
  degenerateb p i = false <-> ~ degenerate p (sample_t (resolution p) i).
Proof.
  unfold degenerateb, degenerate. rewrite Rltb_false. split; lra.
Qed.

(** At [t = 0] the tangent is (0, R - E*N). *)
Lemma tangent_len_0 (N R0 E : R) : tangent_len N R0 E 0 = Rabs (R0 - E * N).
Proof.
  unfold tangent_len, dxdt, dydt.
  rewrite !Rmult_0_r, sin_0, cos_0.
  replace (- R0 * 0 + E * N * 0) with 0 by ring.
  replace (0 * 0 + (R0 * 1 - E * N * 1) * (R0 * 1 - E * N * 1))
    with ((R0 - E * N) * (R0 - E * N)) by ring.
  change ((R0 - E * N) * (R0 - E * N)) with (Rsqr (R0 - E * N)).
  apply sqrt_Rsqr_abs.
Qed.

Lemma sample_t_0 (res : nat) : sample_t res 0 = 0.
Proof. unfold sample_t; simpl; unfold Rdiv; ring. Qed.

(** The first point of the profile is the sample at t = 0, when it is kept. *)
Lemma profile_head (p : CycloParams) (ov : option R) :
  ~ degenerate p 0 ->
  hd_error (generateCycloidProfile p ov)
  = Some (offset_point p (effective_offset p ov) 0).
Proof.
  intros Hd. rewrite generateCycloidProfile_filter. unfold sample_indices.
  rewrite <- cons_seq. cbn [filter].
  assert (H : degenerateb p 0 = false)
    by (apply degenerateb_false; now rewrite sample_t_0).
  rewrite H. cbn [negb map hd_error]. now rewrite sample_t_0.
Qed.

(** On the looped design the sample at t = 0 has the normal (1, 0). *)
Lemma loop_first_point (r : R) :
  offset_point loop_params r 0
  = mkPoint (40 + r) 0 (Some 1) (Some 0) None None.
Proof.
  unfold offset_point, normal_x, normal_y. rewrite tangent_len_0.
  unfold locus_x, locus_y, dxdt, dydt. cbn [loop_params DEFAULT_PARAMS
    with_eccentricity pinCount pinCircleRadius eccentricity].
  rewrite !Rmult_0_r, sin_0, cos_0.
  replace (50 - 10 * 12) with (- (70)) by lra.
  rewrite Rabs_Ropp, Rabs_pos_eq by lra.
  f_equal; try (f_equal; field); field.
Qed.

(** C1, as stated, fails: the design N = 12, R = 50, E = 10 meets the data
    model; the first point of its zero-tolerance profile is (45, 0) with the
    normal (1, 0), which points away from the centre, and the first point of
    the profile of tolerance 0.15 is (45.15, 0), farther from the centre. *)
Lemma C1_counterexample :
  data_model loop_params /\ 0 <= 0.15 /\
  exists a b : Point,
    hd_error (generateCycloidProfile loop_params (Some 0)) = Some a /\
    hd_error (generateCycloidProfile loop_params (Some 0.15)) = Some b /\
    nx a = Some 1 /\ ny a = Some 0 /\
    x a = 45 /\ y a = 0 /\ x b = 45.15 /\ y b = 0 /\
    radius_of a < radius_of b.
Proof.
  assert (Hd : ~ degenerate loop_params 0).
  { unfold degenerate. rewrite tangent_len_0. simpl.
    replace (50 - 10 * 12) with (- (70)) by lra.
    rewrite Rabs_Ropp, Rabs_pos_eq by lra. unfold eps. lra. }
  split; [|split; [lra|]].
  { unfold data_model; simpl. repeat split; try lra.
    exists 12%Z. split; [reflexivity|lia]. }
  exists (mkPoint (40 + (5 + 0)) 0 (Some 1) (Some 0) None None),
         (mkPoint (40 + (5 + 0.15)) 0 (Some 1) (Some 0) None None).
  split; [|split].
  - rewrite (profile_head loop_params (Some 0) Hd). f_equal.
    apply (loop_first_point (5 + 0)).
  - rewrite (profile_head loop_params (Some 0.15) Hd). f_equal.
    apply (loop_first_point (5 + 0.15)).
  - cbn [nx ny x y]. repeat split; try reflexivity; try lra.
    unfold radius_of. cbn [x y]. apply sqrt_lt_1_alt. nra.
Qed.

(** C6 (amended). [generateCycloidProfile] is total and its result has at
    most resolution + 1 points.  For a resolution of at least 1 it holds
    exactly one point per sample whose tangent is at least 1e-6 long, in
    sample order, degenerate samples being dropped; it is non-empty exactly
    when some sample is not degenerate, which is the case whenever
    |R - E*N| >= 1e-6 (the sample at t = 0). *)
Theorem C6_profile_points (p : CycloParams) (ov : option R) :
  (List.length (generateCycloidProfile p ov) <= resolution p + 1)%nat /\
  ((1 <= resolution p)%nat ->
   generateCycloidProfile p ov
   = map (fun i => offset_point p (effective_offset p ov)
                     (sample_t (resolution p) i))
       (filter (fun i => negb (degenerateb p i)) (seq 0 (resolution p + 1))) /\
   (generateCycloidProfile p ov <> [] <->
    exists i, (i <= resolution p)%nat /\
              ~ degenerate p (sample_t (resolution p) i)) /\
   (eps <= Rabs (pinCircleRadius p - eccentricity p * pinCount p) ->
    generateCycloidProfile p ov <> [])).
Proof.
  assert (Hne : generateCycloidProfile p ov <> [] <->
                exists i, (i <= resolution p)%nat /\
                          ~ degenerate p (sample_t (resolution p) i)).
  { rewrite generateCycloidProfile_filter. split.
    - intros Hn.
      destruct (filter (fun i => negb (degenerateb p i)) (sample_indices p))
        as [|i l] eqn:Hf; [now destruct Hn|].
      assert (Hi : In i (filter (fun i => negb (degenerateb p i))
                           (sample_indices p))) by (rewrite Hf; now left).
      apply filter_In in Hi. destruct Hi as [Hi Hb].
      exists i. split.
      + unfold sample_indices in Hi. apply in_seq in Hi. lia.
      + apply degenerateb_false. now destruct (degenerateb p i).
    - intros [i [Hi Hd]] Hnil.
      assert (Hin : In i (filter (fun i => negb (degenerateb p i))
                            (sample_indices p))).
      { apply filter_In. split.
        - unfold sample_indices. apply in_seq. lia.
        - apply degenerateb_false in Hd. now rewrite Hd. }
      apply (in_map (fun i => offset_point p (effective_offset p ov)
                                (sample_t (resolution p) i))) in Hin.
      rewrite Hnil in Hin. destruct Hin. }
  replace (resolution p + 1)%nat with (S (resolution p)) by lia.
  split; [|intros _; repeat split].
  - rewrite generateCycloidProfile_samples.
    etransitivity; [apply flat_map_option_length|].
    unfold sample_indices. now rewrite length_seq.
  - apply generateCycloidProfile_filter.
  - apply Hne.
  - apply Hne.
  - intros H0. apply Hne. exists 0%nat. split; [lia|].
    unfold degenerate. rewrite sample_t_0, tangent_len_0. lra.
Qed.

Lemma C6_profile_points_witness :
  (1 <= resolution DEFAULT_PARAMS)%nat /\
  eps <= Rabs (pinCircleRadius DEFAULT_PARAMS
               - eccentricity DEFAULT_PARAMS * pinCount DEFAULT_PARAMS) /\
  generateCycloidProfile DEFAULT_PARAMS None <> [].
Proof.
  assert (H1 : (1 <= resolution DEFAULT_PARAMS)%nat) by (simpl; lia).
  assert (H : eps <= Rabs (pinCircleRadius DEFAULT_PARAMS
               - eccentricity DEFAULT_PARAMS * pinCount DEFAULT_PARAMS)).
  { simpl. unfold eps. rewrite Rabs_pos_eq; lra. }
  split; [exact H1|]. split; [exact H|].
  exact (proj2 (proj2 (proj2 (C6_profile_points DEFAULT_PARAMS None) H1)) H).
Defined.

(** On the cusp design every sample of the grid has a null tangent. *)
Lemma cusp_tangent (i : nat) :
  tangent_len 4 4 1 (sample_t 3 i) = 0.
Proof.
  unfold tangent_len, dxdt, dydt, sample_t.
  replace (4 * (INR i / INR 3 * 2 * PI))
    with (INR i / INR 3 * 2 * PI + 2 * INR i * PI) by (simpl; field).
  rewrite sin_period, cos_period.
  set (s := sin _). set (c := cos _).
  replace (- (4) * s + 1 * 4 * s) with 0 by ring.
  replace (4 * c - 1 * 4 * c) with 0 by ring.
  replace (0 * 0 + 0 * 0) with 0 by ring. apply sqrt_0.
Qed.

Lemma cusp_profile_empty (ov : option R) :
  generateCycloidProfile cusp_params ov = [].
Proof.
  rewrite generateCycloidProfile_filter.
  assert (H : forall i, degenerateb cusp_params i = true).
  { intros i. unfold degenerateb. simpl. rewrite cusp_tangent.
    apply Rltb_true, eps_pos. }
  unfold sample_indices. simpl. now rewrite !H.
Qed.

(** C6, as stated, fails: the cusp design N = 4, R = 4, E = 1 meets the data
    model, has resolution 3, and its profile is empty. *)
Lemma C6_counterexample :
  data_model cusp_params /\ resolution cusp_params = 3%nat /\
  generateCycloidProfile cusp_params None = [].
Proof.
  split; [|split; [reflexivity|apply cusp_profile_empty]].
  unfold data_model; simpl. repeat split; try lra.
  exists 4%Z. split; [reflexivity|lia].
Qed.

(** ** calculatePhysicsMetrics *)

Lemma physics_step_spec (p : CycloParams) (st : PhysicsMetrics) (i : nat) :
  physics_step (pinCount p) (pinCircleRadius p) (eccentricity p) (pinRadius p)
    (resolution p) st i
  = if degenerateb p i then st
    else mkMetrics (min_update (minCurvatureRadius st) (curvature_at p i))
           (max_update (maxPressureAngle st) (pressure_at p i))
           (points st ++ [physics_point p i]).
Proof.
  unfold physics_step, degenerateb, tangent_len.
  destruct (Rltb _ eps); [reflexivity|].
  f_equal.
  unfold curvature_at. destruct (surfaceCurvature _ _ _ _ _); reflexivity.
Qed.

Lemma physics_fold (p : CycloParams) (l : list nat) (st : PhysicsMetrics) :
  fold_left (physics_step (pinCount p) (pinCircleRadius p) (eccentricity p)
               (pinRadius p) (resolution p)) l st
  = let kept := filter (fun i => negb (degenerateb p i)) l in
    mkMetrics
      (fold_left min_update (map (curvature_at p) kept) (minCurvatureRadius st))
      (fold_left max_update (map (pressure_at p) kept) (maxPressureAngle st))
      (points st ++ map (physics_point p) kept).
Proof.
  revert st; induction l as [|i l IH]; intros st; simpl.
  - rewrite app_nil_r. now destruct st.
  - rewrite IH, physics_step_spec.
    destruct (degenerateb p i); simpl; [reflexivity|].
    now rewrite <- app_assoc.
Qed.

Lemma calculatePhysicsMetrics_spec (p : CycloParams) :
  calculatePhysicsMetrics p
  = mkMetrics
      (fold_left min_update (map (curvature_at p) (emitted_indices p)) MAX_VALUE)
      (fold_left max_update (map (pressure_at p) (emitted_indices p)) 0)
      (map (physics_point p) (emitted_indices p)).
Proof.
  unfold calculatePhysicsMetrics. rewrite physics_fold. reflexivity.
Qed.

Lemma MAX_VALUE_pos : 0 < MAX_VALUE.
Proof. unfold MAX_VALUE. apply IZR_lt. reflexivity. Qed.

(** The running minimum either keeps its start value, no finite element being
    smaller in magnitude, or is the earliest element of least magnitude. *)
Lemma min_update_fold (scs : list number) (m0 : R) :
  let r := fold_left min_update scs m0 in
  (r = m0 /\ forall v, In (Finite v) scs -> Rabs m0 <= Rabs v)
  \/ (exists k, nth_error scs k = Some (Finite r) /\
                Rabs r < Rabs m0 /\
                (forall v, In (Finite v) scs -> Rabs r <= Rabs v) /\
                (forall j v, (j < k)%nat -> nth_error scs j = Some (Finite v) ->
                             Rabs r < Rabs v)).
Proof.
  revert m0; induction scs as [|s rest IH]; intros m0; simpl.
  - left. split; [reflexivity|]. intros v [].
  - specialize (IH (min_update m0 s)). simpl in IH.
    remember (fold_left min_update rest (min_update m0 s)) as r eqn:Er.
    clear Er.
    assert (Hcases : (exists v, s = Finite v /\ Rabs v < Rabs m0 /\
                                min_update m0 s = v)
                     \/ (min_update m0 s = m0 /\
                         forall v, s = Finite v -> Rabs m0 <= Rabs v)).
    { destruct s as [v|]; simpl.
      - destruct (Rltb_spec (Rabs v) (Rabs m0)) as [Hlt|Hge].
        + left. exists v. auto.
        + right. split; [reflexivity|]. intros w Hw. inversion Hw; subst. lra.
      - right. split; [reflexivity|]. intros w Hw. discriminate. }
    destruct Hcases as [[v [Hs [Hlt Hm]]]|[Hm Hge]]; rewrite Hm in IH.
    + right. destruct IH as [[Hr Hall]|[k [Hk [Hlt' [Hall Hearly]]]]].
      * exists 0%nat. simpl. rewrite Hr, Hs. repeat split; auto.
        -- intros w [Hw|Hw]; [inversion Hw; subst; lra|auto].
        -- intros j w Hj. lia.
      * exists (S k). simpl. repeat split; auto.
        -- lra.
        -- intros w [Hw|Hw]; [rewrite Hs in Hw; inversion Hw; subst; lra|auto].
        -- intros [|j] w Hj Hn; simpl in Hn.
           ++ rewrite Hs in Hn. inversion Hn; subst. exact Hlt'.
           ++ apply (Hearly j); [lia|exact Hn].
    + destruct IH as [[Hr Hall]|[k [Hk [Hlt' [Hall Hearly]]]]].
      * left. split; [exact Hr|].
        intros w [Hw|Hw]; [now apply Hge|auto].
      * right. exists (S k). simpl. repeat split; auto.
        -- intros w [Hw|Hw]; [apply Hge in Hw; lra|auto].
        -- intros [|j] w Hj Hn; simpl in Hn.
           ++ inversion Hn as [Hn']. apply Hge in Hn'. lra.
           ++ apply (Hearly j); [lia|exact Hn].
Qed.

(** [pow15] is the power 1.5 on positive bases. *)
Lemma pow15_Rpower (b : R) : 0 < b -> pow15 b = Rpower b 1.5.
Proof.
  intros Hb. unfold pow15.
  replace 1.5 with (1 + / 2) by lra.
  rewrite Rpower_plus, Rpower_1, Rpower_sqrt; auto.
Qed.

(** The base of the power is a squared length, hence never negative. *)
Lemma term1_nonneg (N R0 E phi : R) :
  0 <= R0 * R0 + E * E * N * N - 2 * R0 * E * N * cos phi.
Proof.
  pose proof (sin2_cos2 phi) as H. unfold Rsqr in H.
  replace (R0 * R0 + E * E * N * N - 2 * R0 * E * N * cos phi)
    with ((R0 - E * N * cos phi) * (R0 - E * N * cos phi)
          + (E * N * sin phi) * (E * N * sin phi)
          + E * E * N * N * (1 - (sin phi * sin phi + cos phi * cos phi)))
    by ring.
  rewrite H.
  pose proof (Rle_0_sqr (R0 - E * N * cos phi)) as H1.
  pose proof (Rle_0_sqr (E * N * sin phi)) as H2.
  unfold Rsqr in H1, H2. lra.
Qed.

(** The curvature formula of a sample whose denominator does not vanish. *)
Lemma surfaceCurvature_formula (N R0 E r t : R) :
  let phi := (N - 1) * t in
  let term1 := R0 ^ 2 + E ^ 2 * N ^ 2 - 2 * R0 * E * N * cos phi in
  let den := R0 ^ 2 + E ^ 2 * N ^ 3 - R0 * E * N * (N + 1) * cos phi in
  (den <> 0 -> 0 < term1 ->
   surfaceCurvature N R0 E r t = Finite (Rpower term1 1.5 / den - r)) /\
  (den = 0 -> surfaceCurvature N R0 E r t = NonFinite).
Proof.
  cbv zeta. unfold surfaceCurvature, rho, js_div.
  replace (R0 * R0 + E * E * N * N * N - R0 * E * N * (N + 1) * cos ((N - 1) * t))
    with (R0 ^ 2 + E ^ 2 * N ^ 3 - R0 * E * N * (N + 1) * cos ((N - 1) * t))
    by ring.
  replace (R0 * R0 + E * E * N * N - 2 * R0 * E * N * cos ((N - 1) * t))
    with (R0 ^ 2 + E ^ 2 * N ^ 2 - 2 * R0 * E * N * cos ((N - 1) * t))
    by ring.
  split.
  - intros Hd Ht. destruct (Req_dec_T _ 0) as [H0|_]; [contradiction|].
    simpl. now rewrite pow15_Rpower.
  - intros Hd. destruct (Req_dec_T _ 0) as [_|H0]; [reflexivity|contradiction].
Qed.

(** C2 (amended). For a resolution of at least 1, the points of
    [calculatePhysicsMetrics] carry, per kept
    sample, the curvature rho - pinRadius of that sample, where
    rho = (R^2 + E^2 N^2 - 2 R E N cos phi)^1.5
          / (R^2 + E^2 N^3 - R E N (N+1) cos phi), phi = (N-1) t,
    a non-finite value when the denominator is zero.  The returned
    minCurvatureRadius is either the start value Number.MAX_VALUE, when no kept
    sample has a finite curvature below it in magnitude, or the signed
    curvature of the earliest kept sample of least magnitude among the finite
    ones; magnitudes alone are compared. *)
Theorem C2_min_curvature (p : CycloParams) :
  (1 <= resolution p)%nat ->
  let m := calculatePhysicsMetrics p in
  let scs := map (curvature_at p) (emitted_indices p) in
  map curvatureRadius (points m) = map Some scs /\
  (forall i : nat,
     let phi := (pinCount p - 1) * sample_t (resolution p) i in
     let term1 := pinCircleRadius p ^ 2 + eccentricity p ^ 2 * pinCount p ^ 2
                  - 2 * pinCircleRadius p * eccentricity p * pinCount p * cos phi in
     let den := pinCircleRadius p ^ 2 + eccentricity p ^ 2 * pinCount p ^ 3
                - pinCircleRadius p * eccentricity p * pinCount p
                  * (pinCount p + 1) * cos phi in
     (den = 0 -> curvature_at p i = NonFinite) /\
     (den <> 0 -> 0 < term1 ->
      curvature_at p i = Finite (Rpower term1 1.5 / den - pinRadius p))) /\
  ((minCurvatureRadius m = MAX_VALUE /\
    forall v, In (Finite v) scs -> MAX_VALUE <= Rabs v)
   \/
   (exists k,
      nth_error scs k = Some (Finite (minCurvatureRadius m)) /\
      Rabs (minCurvatureRadius m) < MAX_VALUE /\
      (forall v, In (Finite v) scs -> Rabs (minCurvatureRadius m) <= Rabs v) /\
      (forall j v, (j < k)%nat -> nth_error scs j = Some (Finite v) ->
                   Rabs (minCurvatureRadius m) < Rabs v))).
Proof.
  intros _.
  cbv zeta. rewrite calculatePhysicsMetrics_spec. simpl. split; [|split].
  - rewrite !map_map. reflexivity.
  - intros i. unfold curvature_at.
    pose proof (surfaceCurvature_formula (pinCount p) (pinCircleRadius p)
                  (eccentricity p) (pinRadius p) (sample_t (resolution p) i))
      as [Hf Hn].
    split; [exact Hn|exact Hf].
  - pose proof (min_update_fold (map (curvature_at p) (emitted_indices p))
                  MAX_VALUE) as H.
    cbv zeta in H. rewrite (Rabs_pos_eq MAX_VALUE) in H
      by (left; apply MAX_VALUE_pos).
    exact H.
Qed.

Lemma C2_min_curvature_witness :
  (1 <= resolution DEFAULT_PARAMS)%nat /\
  map curvatureRadius (points (calculatePhysicsMetrics DEFAULT_PARAMS))
  = map Some (map (curvature_at DEFAULT_PARAMS)
                (emitted_indices DEFAULT_PARAMS)).
Proof.
  assert (H : (1 <= resolution DEFAULT_PARAMS)%nat) by (simpl; lia).
  split; [exact H|].
  exact (proj1 (C2_min_curvature DEFAULT_PARAMS H)).
Defined.

(** On the flat design the denominator of rho vanishes at every sample. *)
Lemma flat_curvature (i : nat) : curvature_at flat_params i = NonFinite.
Proof.
  unfold curvature_at. simpl.
  apply (surfaceCurvature_formula 4 16 1 5 (sample_t 3 i)).
  unfold sample_t.
  replace ((4 - 1) * (INR i / INR 3 * 2 * PI)) with (0 + 2 * INR i * PI)
    by (simpl; field).
  rewrite cos_period, cos_0. ring.
Qed.

(** C2, as stated, fails: on the design N = 4, R = 16, E = 1, resolution 3,
    samples are emitted, none of them has a finite curvature, and the returned
    minimum is Number.MAX_VALUE, the curvature of no sample. *)
Lemma C2_counterexample :
  let m := calculatePhysicsMetrics flat_params in
  resolution flat_params = 3%nat /\
  points m <> [] /\
  (forall pt, In pt (points m) -> curvatureRadius pt = Some NonFinite) /\
  minCurvatureRadius m = MAX_VALUE.
Proof.
  cbv zeta. rewrite calculatePhysicsMetrics_spec. simpl.
  assert (Hall : forall l, map (curvature_at flat_params) l
                           = map (fun _ => NonFinite) l).
  { intros l. apply map_ext. intros i. apply flat_curvature. }
  repeat split.
  - assert (H0 : In 0%nat (emitted_indices flat_params)).
    { unfold emitted_indices. apply filter_In. split.
      - unfold sample_indices. simpl. now left.
      - apply negb_true_iff, degenerateb_false. unfold degenerate. simpl.
        rewrite sample_t_0, tangent_len_0. unfold eps.
        rewrite Rabs_pos_eq; lra. }
    intros Hnil. apply (in_map (physics_point flat_params)) in H0.
    rewrite Hnil in H0. destruct H0.
  - intros pt Hpt. apply in_map_iff in Hpt. destruct Hpt as [i [Hi _]].
    subst pt. simpl. now rewrite flat_curvature.
  - rewrite Hall. induction (emitted_indices flat_params); simpl; auto.
Qed.

(** ** maxPressureAngle *)

Lemma max_update_mono (a b c d : R) :
  a <= b -> c <= d -> max_update a c <= max_update b d.
Proof.
  intros Hab Hcd. unfold max_update, Rgtb.
  destruct (Rltb_spec a c), (Rltb_spec b d); lra.
Qed.

Lemma max_update_fold_mono (l1 l2 : list R) :
  Forall2 Rle l1 l2 ->
  forall a b, a <= b ->
  fold_left max_update l1 a <= fold_left max_update l2 b.
Proof.
  induction 1 as [|c d l1 l2 Hcd _ IH]; intros a b Hab; simpl; [exact Hab|].
  apply IH. now apply max_update_mono.
Qed.

Lemma max_update_fold_ge_init (l : list R) (a : R) :
  a <= fold_left max_update l a.
Proof.
  revert a; induction l as [|c l IH]; intros a; simpl; [lra|].
  eapply Rle_trans; [|apply IH].
  unfold max_update, Rgtb. destruct (Rltb_spec a c); lra.
Qed.

Lemma max_update_fold_ge (l : list R) (a c : R) :
  In c l -> c <= fold_left max_update l a.
Proof.
  revert a; induction l as [|d l IH]; intros a Hin; simpl; [destruct Hin|].
  destruct Hin as [->|Hin]; [|now apply IH].
  eapply Rle_trans; [|apply max_update_fold_ge_init].
  unfold max_update, Rgtb. destruct (Rltb_spec a c); lra.
Qed.

(** The tangent is at least R - E*N long when R * E * N >= 0. *)
Lemma tangent_len_lower (N R0 E t : R) :
  0 <= R0 * E * N -> R0 - E * N <= tangent_len N R0 E t.
Proof.
  intros Hs.
  destruct (Rle_dec (R0 - E * N) 0) as [Hneg|Hpos].
  { eapply Rle_trans; [exact Hneg|]. unfold tangent_len. apply sqrt_pos. }
  assert (Hp : 0 <= R0 - E * N) by lra.
  rewrite <- (sqrt_square (R0 - E * N)) by exact Hp.
  unfold tangent_len, dxdt, dydt. apply sqrt_le_1_alt.
  pose proof (sin2_cos2 t) as H1. pose proof (sin2_cos2 (N * t)) as H2.
  unfold Rsqr in H1, H2.
  set (s := sin t) in *. set (c := cos t) in *.
  set (s' := sin (N * t)) in *. set (c' := cos (N * t)) in *.
  assert (Hcs : s * s' + c * c' <= 1).
  { pose proof (Rle_0_sqr (s - s')) as Ha.
    pose proof (Rle_0_sqr (c - c')) as Hb.
    unfold Rsqr in Ha, Hb. lra. }
  replace ((- R0 * s + E * N * s') * (- R0 * s + E * N * s')
           + (R0 * c - E * N * c') * (R0 * c - E * N * c'))
    with (R0 * R0 * (s * s + c * c) + E * N * (E * N) * (s' * s' + c' * c')
          - 2 * (R0 * E * N) * (s * s' + c * c')) by ring.
  rewrite H1, H2.
  assert (R0 * E * N * (s * s' + c * c') <= R0 * E * N) by nra.
  lra.
Qed.

Lemma atan_le (a b : R) : a <= b -> atan a <= atan b.
Proof.
  intros [Hlt| ->]; [left; now apply atan_increasing|right; reflexivity].
Qed.

Lemma atan2_pos_den (y0 x0 : R) : 0 < x0 -> atan2 y0 x0 = atan (y0 / x0).
Proof.
  intros Hx. unfold atan2. destruct (Rltb_spec 0 x0); [reflexivity|lra].
Qed.

(** Below the cusp (K < 1) the pressure angle of a sample grows with K. *)
Lemma pressureDeg_mono (N R0 E1 E2 t : R) :
  0 <= N -> 0 < R0 -> 0 <= E1 -> E1 <= E2 -> E2 * N < R0 ->
  pressureDeg N R0 E1 t <= pressureDeg N R0 E2 t.
Proof.
  intros HN HR HE1 HE HK. unfold pressureDeg.
  set (K1 := E1 * N / R0). set (K2 := E2 * N / R0).
  assert (HK1 : 0 <= K1).
  { unfold K1. apply Rmult_le_pos; [nra|]. left. now apply Rinv_0_lt_compat. }
  assert (HK12 : K1 <= K2).
  { unfold K1, K2. apply Rmult_le_compat_r.
    - left. now apply Rinv_0_lt_compat.
    - nra. }
  assert (HK2 : K2 < 1).
  { unfold K2. apply (Rmult_lt_reg_r R0); [exact HR|].
    unfold Rdiv. rewrite Rmult_assoc, Rinv_l by lra. lra. }
  pose proof (COS_bound (N * t)) as [Hc1 Hc2].
  set (c := cos (N * t)) in *. set (s := sin (N * t)).
  assert (Hd1 : 0 < 1 - K1 * c) by nra.
  assert (Hd2 : 0 < 1 - K2 * c) by nra.
  rewrite !(Rabs_pos_eq (1 - _ * c)) by lra.
  rewrite !atan2_pos_den by assumption.
  apply Rmult_le_compat_r.
  { left. apply Rdiv_lt_0_compat; [lra|apply PI_RGT_0]. }
  apply atan_le.
  rewrite !Rabs_mult, (Rabs_pos_eq K1), (Rabs_pos_eq K2) by lra.
  pose proof (Rabs_pos s) as Hs. set (a := Rabs s) in *.
  apply (Rmult_le_reg_r ((1 - K1 * c) * (1 - K2 * c))); [nra|].
  replace (K1 * a / (1 - K1 * c) * ((1 - K1 * c) * (1 - K2 * c)))
    with (K1 * a * (1 - K2 * c)) by (field; lra).
  replace (K2 * a / (1 - K2 * c) * ((1 - K1 * c) * (1 - K2 * c)))
    with (K2 * a * (1 - K1 * c)) by (field; lra).
  nra.
Qed.

Lemma nothing_dropped (p : CycloParams) :
  0 <= pinCount p -> 0 <= eccentricity p ->
  eccentricity p * pinCount p + eps <= pinCircleRadius p ->
  emitted_indices p = sample_indices p.
Proof.
  intros HN HE HR. unfold emitted_indices.
  pose proof eps_pos as He.
  assert (H : forall i, negb (degenerateb p i) = true).
  { intros i. apply negb_true_iff, degenerateb_false. unfold degenerate.
    pose proof (tangent_len_lower (pinCount p) (pinCircleRadius p)
                  (eccentricity p) (sample_t (resolution p) i)) as Hl.
    assert (Hen : 0 <= eccentricity p * pinCount p)
      by (apply Rmult_le_pos; assumption).
    assert (0 <= pinCircleRadius p * eccentricity p * pinCount p).
    { rewrite Rmult_assoc. apply Rmult_le_pos; lra. }
    lra. }
  induction (sample_indices p) as [|i l IH]; simpl; [reflexivity|].
  now rewrite H, IH.
Qed.

(** C5 (amended). maxPressureAngle is the running maximum, from 0, of the
    pressure angle atan2 (|K sin (N t)|, |1 - K cos (N t)|) in degrees,
    K = E N / R, over the kept samples of the grid.  For a fixed pin count
    N >= 0, pin circle radius R, pin radius and resolution, and for
    0 <= E1 <= E2 with E2 * N + 1e-6 <= R (so that K stays below 1 and no
    sample is dropped), it does not decrease from E1 to E2. *)
Theorem C5_pressure_monotone (p : CycloParams) (E1 E2 : R) :
  0 <= pinCount p -> 0 <= E1 -> E1 <= E2 ->
  E2 * pinCount p + eps <= pinCircleRadius p ->
  maxPressureAngle (calculatePhysicsMetrics (with_eccentricity p E1))
  <= maxPressureAngle (calculatePhysicsMetrics (with_eccentricity p E2)) /\
  (forall q : CycloParams,
     maxPressureAngle (calculatePhysicsMetrics q)
     = fold_left (fun m d => if Rltb m d then d else m)
         (map (fun i =>
                 let t := sample_t (resolution q) i in
                 let K := eccentricity q * pinCount q / pinCircleRadius q in
                 atan2 (Rabs (K * sin (pinCount q * t)))
                       (Rabs (1 - K * cos (pinCount q * t))) * (180 / PI))
            (emitted_indices q)) 0).
Proof.
  intros HN HE1 HE HR. pose proof eps_pos as He.
  assert (H12 : E1 * pinCount p <= E2 * pinCount p)
    by (apply Rmult_le_compat_r; assumption).
  assert (H1 : 0 <= E1 * pinCount p) by (apply Rmult_le_pos; assumption).
  split; [|intros q; now rewrite calculatePhysicsMetrics_spec].
  rewrite !calculatePhysicsMetrics_spec.
  cbn [maxPressureAngle].
  rewrite !nothing_dropped by (simpl; lra).
  apply max_update_fold_mono; [|lra].
  unfold sample_indices. simpl resolution.
  induction (seq 0 (S (resolution p))) as [|i l IH]; simpl; constructor.
  - unfold pressure_at. simpl. apply pressureDeg_mono; lra.
  - exact IH.
Qed.

Lemma C5_pressure_monotone_witness :
  0 <= pinCount DEFAULT_PARAMS /\ 0 <= 1 /\ 1 <= 1.5 /\
  1.5 * pinCount DEFAULT_PARAMS + eps <= pinCircleRadius DEFAULT_PARAMS /\
  maxPressureAngle (calculatePhysicsMetrics (with_eccentricity DEFAULT_PARAMS 1))
  <= maxPressureAngle
       (calculatePhysicsMetrics (with_eccentricity DEFAULT_PARAMS 1.5)).
Proof.
  assert (H1 : 0 <= pinCount DEFAULT_PARAMS) by (simpl; lra).
  assert (H2 : 0 <= 1) by lra.
  assert (H3 : 1 <= 1.5) by lra.
  assert (H4 : 1.5 * pinCount DEFAULT_PARAMS + eps
               <= pinCircleRadius DEFAULT_PARAMS)
    by (simpl; unfold eps; lra).
  repeat split; try assumption.
  exact (proj1 (C5_pressure_monotone DEFAULT_PARAMS 1 1.5 H1 H2 H3 H4)).
Defined.

(** With N = 4, R = 4 and E = 1/2 the sample of index 1 is kept and has a
    positive pressure angle. *)
Lemma half_cusp_sample :
  let p := with_eccentricity cusp_params (1 / 2) in
  In 1%nat (emitted_indices p) /\ 0 < pressure_at p 1.
Proof.
  cbv zeta.
  assert (Ht : 4 * sample_t 3 1 = sample_t 3 1 + 2 * INR 1 * PI).
  { unfold sample_t. simpl. field. }
  pose proof PI_RGT_0 as Hpi.
  assert (Hsin : 0 < sin (sample_t 3 1)).
  { apply sin_gt_0; unfold sample_t; simpl; lra. }
  split.
  - unfold emitted_indices. apply filter_In. split.
    + unfold sample_indices. simpl. auto.
    + apply negb_true_iff, degenerateb_false. unfold degenerate. simpl.
      pose proof (tangent_len_lower 4 4 (1 / 2) (sample_t 3 1)) as Hl.
      unfold eps. lra.
  - unfold pressure_at, pressureDeg. simpl.
    rewrite Ht, sin_period, cos_period.
    pose proof (COS_bound (sample_t 3 1)) as [Hc1 Hc2].
    set (c := cos _) in *. set (s := sin _) in *.
    replace (1 / 2 * 4 / 4) with (/ 2) by field.
    rewrite (Rabs_pos_eq (/ 2 * s)) by lra.
    rewrite (Rabs_pos_eq (1 - / 2 * c)) by lra.
    rewrite atan2_pos_den by lra.
    apply Rmult_lt_0_compat.
    + rewrite <- atan_0. apply atan_increasing.
      apply Rdiv_lt_0_compat; lra.
    + apply Rdiv_lt_0_compat; lra.
Qed.

(** C5, as stated, fails: with N = 4, R = 4 and resolution 3 the eccentricity
    E1 = 1/2 gives a positive maxPressureAngle, while at E2 = 1 every sample
    is a cusp, is dropped, and maxPressureAngle stays 0. *)
Lemma C5_counterexample :
  0 <= 1 / 2 /\ 1 / 2 <= 1 /\
  ~ (maxPressureAngle
       (calculatePhysicsMetrics (with_eccentricity cusp_params (1 / 2)))
     <= maxPressureAngle
          (calculatePhysicsMetrics (with_eccentricity cusp_params 1))).
Proof.
  split; [lra|]. split; [lra|].
  rewrite !calculatePhysicsMetrics_spec. simpl.
  destruct half_cusp_sample as [Hin Hpos].
  assert (H1 : emitted_indices (with_eccentricity cusp_params 1) = []).
  { unfold emitted_indices.
    assert (H : forall i, degenerateb (with_eccentricity cusp_params 1) i = true).
    { intros i. unfold degenerateb. simpl. rewrite cusp_tangent.
      apply Rltb_true, eps_pos. }
    unfold sample_indices. simpl. now rewrite !H. }
  rewrite H1. simpl.
  pose proof (max_update_fold_ge
                (map (pressure_at (with_eccentricity cusp_params (1 / 2)))
                   (emitted_indices (with_eccentricity cusp_params (1 / 2))))
                0 _ (in_map _ _ _ Hin)) as Hge.
  lra.
Qed.

(** ** toFixed and parseFloat *)

Lemma string_app_assoc (a b c : string) :
  ((a ++ b) ++ c)%string = (a ++ (b ++ c))%string.
Proof. induction a as [|ch a IH]; simpl; [reflexivity|now rewrite IH]. Qed.

Lemma string_app_nil_r (a : string) : (a ++ "")%string = a.
Proof. induction a as [|ch a IH]; simpl; [reflexivity|now rewrite IH]. Qed.

Lemma digit_cases (k : Z) :
  (0 <= k < 10)%Z ->
  k = 0%Z \/ k = 1%Z \/ k = 2%Z \/ k = 3%Z \/ k = 4%Z \/ k = 5%Z \/ k = 6%Z \/
  k = 7%Z \/ k = 8%Z \/ k = 9%Z.
Proof. lia. Qed.

Ltac each_digit H :=
  destruct (digit_cases _ H) as [->|[->|[->|[->|[->|[->|[->|[->|[->| ->]]]]]]]]].

Lemma char_digit_char (k : Z) :
  (0 <= k < 10)%Z -> char_digit (digit_char k) = Some k.
Proof. intros H. each_digit H; reflexivity. Qed.

Lemma digit_char_not_sign (k : Z) :
  (0 <= k < 10)%Z ->
  Ascii.eqb (digit_char k) "-" = false /\ Ascii.eqb (digit_char k) "+" = false.
Proof. intros H. each_digit H; split; reflexivity. Qed.

Lemma read_digits_cons (c : ascii) (s : string) (acc : Z) (k : nat) :
  read_digits (String c s) acc k
  = match char_digit c with
    | Some dg => read_digits s (acc * 10 + dg) (S k)
    | None => (acc, k, String c s)
    end.
Proof. reflexivity. Qed.

Lemma read_fixed_digits (d : nat) : forall (n acc : Z) (k : nat) (rest : string),
  (0 <= n)%Z ->
  read_digits (fixed_digits d n ++ rest)%string acc k
  = read_digits rest (acc * 10 ^ Z.of_nat d + n mod 10 ^ Z.of_nat d)%Z
      (k + d)%nat.
Proof.
  induction d as [|d IH]; intros n acc k rest Hn.
  - simpl fixed_digits. simpl append. rewrite Nat.add_0_r.
    f_equal. simpl. rewrite Z.mod_1_r. lia.
  - simpl fixed_digits. rewrite string_app_assoc. simpl append.
    rewrite IH by (apply Z.div_pos; lia).
    rewrite read_digits_cons.
    rewrite char_digit_char by (apply Z.mod_pos_bound; lia).
    f_equal; [|lia].
    rewrite Nat2Z.inj_succ, Z.pow_succ_r by lia.
    rewrite (Z.rem_mul_r n 10 (10 ^ Z.of_nat d)) by lia. ring.
Qed.

Lemma count_digits_bound (fuel : nat) : forall n : Z,
  (0 <= n < 2 ^ Z.of_nat (S fuel))%Z ->
  (n < 10 ^ Z.of_nat (count_digits fuel n))%Z.
Proof.
  induction fuel as [|f IH]; intros n Hn.
  - simpl in *. lia.
  - cbn [count_digits]. destruct (Z.ltb_spec n 10) as [Hlt|Hge].
    + simpl. lia.
    + rewrite Nat2Z.inj_succ, Z.pow_succ_r by lia.
      assert (Hq : (n / 10 < 10 ^ Z.of_nat (count_digits f (n / 10)))%Z).
      { apply IH. split; [apply Z.div_pos; lia|].
        apply Z.div_lt_upper_bound; [lia|].
        rewrite (Nat2Z.inj_succ (S f)), Z.pow_succ_r in Hn by lia. lia. }
      pose proof (Z.div_mod n 10 ltac:(lia)) as Hdm.
      pose proof (Z.mod_pos_bound n 10 ltac:(lia)). lia.
Qed.

Lemma count_digits_pos (fuel : nat) (n : Z) : (1 <= count_digits fuel n)%nat.
Proof. destruct fuel; simpl; [lia|]. destruct (n <? 10)%Z; lia. Qed.

Lemma int_digits_spec (n : Z) :
  (0 <= n)%Z ->
  exists c : nat, (1 <= c)%nat /\ int_digits n = fixed_digits c n /\
                  (n < 10 ^ Z.of_nat c)%Z.
Proof.
  intros Hn. exists (count_digits (Z.to_nat (Z.log2 n)) n).
  split; [apply count_digits_pos|]. split; [reflexivity|].
  apply count_digits_bound. split; [exact Hn|].
  rewrite Nat2Z.inj_succ, Z2Nat.id by apply Z.log2_nonneg.
  destruct (Z.eq_dec n 0) as [->|Hnz]; [simpl; lia|].
  apply Z.log2_spec. lia.
Qed.

Lemma scaled_round_nonneg (d : nat) (v : R) : (0 <= scaled_round d v)%Z.
Proof.
  unfold scaled_round.
  set (u := Rabs v * 10 ^ d + / 2).
  assert (Hu : 0 <= u).
  { unfold u. pose proof (Rabs_pos v). pose proof (pow_lt 10 d ltac:(lra)).
    assert (0 <= Rabs v * 10 ^ d) by (apply Rmult_le_pos; lra). lra. }
  pose proof (base_Int_part u) as [_ H2].
  assert (H : -1 < IZR (Int_part u)) by lra.
  apply lt_IZR in H. lia.
Qed.

Lemma fixed_digits_head (c : nat) : forall (m : Z) (rest : string),
  (1 <= c)%nat -> (0 <= m)%Z ->
  exists k s', (0 <= k < 10)%Z /\
               (fixed_digits c m ++ rest)%string = String (digit_char k) s'.
Proof.
  induction c as [|c IH]; intros m rest Hc Hm; [lia|].
  simpl fixed_digits. rewrite string_app_assoc. simpl append.
  destruct c as [|c'].
  - simpl. exists (m mod 10)%Z, rest. split; [|reflexivity].
    apply Z.mod_pos_bound. lia.
  - apply IH; [lia|]. apply Z.div_pos; lia.
Qed.

Lemma read_sign_digits (neg : bool) (body : string) (k : Z) (s' : string) :
  (0 <= k < 10)%Z -> body = String (digit_char k) s' ->
  read_sign ((if neg then "-" else "") ++ body)%string = (neg, body).
Proof.
  intros Hk ->. destruct neg.
  - reflexivity.
  - change ("" ++ String (digit_char k) s')%string
      with (String (digit_char k) s').
    unfold read_sign.
    destruct (digit_char_not_sign k Hk) as [H1 H2]. now rewrite H1, H2.
Qed.

Lemma IZR_pow10 (d : nat) : IZR (10 ^ Z.of_nat d) = 10 ^ d.
Proof. now rewrite <- pow_IZR. Qed.

(** Reading back the text of [toFixed] gives the rounded value. *)
Lemma parseFloat_toFixed (d : nat) (v : R) :
  parseFloat (toFixed d v) = round_to d v.
Proof.
  unfold toFixed, round_to.
  pose proof (scaled_round_nonneg d v) as Hn.
  set (n := scaled_round d v) in *.
  set (P := (10 ^ Z.of_nat d)%Z).
  assert (HP : (0 < P)%Z) by (apply Z.pow_pos_nonneg; lia).
  assert (Hip : (0 <= n / P)%Z) by (apply Z.div_pos; lia).
  destruct (int_digits_spec (n / P) Hip) as [c [Hc [Hint Hlt]]].
  rewrite Hint.
  set (rest := match d with
               | O => ""%string
               | S _ => ("." ++ fixed_digits d n)%string
               end).
  destruct (fixed_digits_head c (n / P) rest Hc Hip) as [k [s' [Hk Hhead]]].
  unfold parseFloat.
  rewrite (read_sign_digits (Rltb v 0) _ k s' Hk Hhead).
  rewrite read_fixed_digits by exact Hip.
  rewrite Z.mul_0_l, Z.add_0_l, Nat.add_0_l, (Z.mod_small (n / P)) by lia.
  assert (Hrest : read_digits rest (n / P) c = (n / P, c, rest)%Z
                  /\ read_fraction rest = (n mod P, d, ""%string)%Z).
  { unfold rest. destruct d as [|d'].
    - simpl. split; [reflexivity|]. unfold P. simpl. now rewrite Z.mod_1_r.
    - split; [reflexivity|].
      change ("." ++ fixed_digits (S d') n)%string
        with (String "."%char (fixed_digits (S d') n)).
      unfold read_fraction.
      change (Ascii.eqb "." ".") with true. cbv iota.
      rewrite <- (string_app_nil_r (fixed_digits (S d') n)).
      rewrite read_fixed_digits by exact Hn.
      rewrite Z.mul_0_l, Z.add_0_l, Nat.add_0_l. reflexivity. }
  destruct Hrest as [Hr1 Hr2]. rewrite Hr1, Hr2.
  replace (c + d =? 0)%nat with false
    by (symmetry; apply Nat.eqb_neq; lia).
  assert (Hmag : IZR (n / P) + IZR (n mod P) / 10 ^ d = IZR n / 10 ^ d).
  { rewrite <- IZR_pow10. fold P.
    rewrite (Z.div_mod n P) at 3 by lia.
    rewrite plus_IZR, mult_IZR. field. apply not_0_IZR. lia. }
  rewrite Hmag. destruct (Rltb v 0); ring.
Qed.

(** ** getGeometricQuality *)

(** What [round_to] computes: the nearest multiple of 10^-d, ties away from
    zero. *)
Lemma scaled_round_bounds (d : nat) (v : R) :
  Rabs v * 10 ^ d - / 2 < IZR (scaled_round d v) <= Rabs v * 10 ^ d + / 2.
Proof.
  unfold scaled_round.
  pose proof (base_Int_part (Rabs v * 10 ^ d + / 2)) as [H1 H2]. lra.
Qed.

Lemma scaled_round_eq (d : nat) (v : R) (z : Z) :
  IZR z <= Rabs v * 10 ^ d + / 2 < IZR z + 1 -> scaled_round d v = z.
Proof.
  intros [H1 H2]. unfold scaled_round. symmetry.
  apply Int_part_spec. lra.
Qed.

Lemma round_to_nonneg (d : nat) (v : R) :
  0 <= v -> round_to d v = IZR (scaled_round d v) / 10 ^ d.
Proof.
  intros Hv. unfold round_to.
  destruct (Rltb_spec v 0); [lra|ring].
Qed.

Lemma round_to_error (d : nat) (v : R) :
  Rabs (round_to d v - v) <= / 2 / 10 ^ d.
Proof.
  pose proof (scaled_round_bounds d v) as [H1 H2].
  pose proof (pow_lt 10 d ltac:(lra)) as Hp.
  unfold round_to. set (n := IZR (scaled_round d v)) in *.
  assert (Hq : Rabs (n / 10 ^ d - Rabs v) <= / 2 / 10 ^ d).
  { replace (n / 10 ^ d - Rabs v) with ((n - Rabs v * 10 ^ d) / 10 ^ d)
      by (field; lra).
    unfold Rdiv. rewrite Rabs_mult, (Rabs_pos_eq (/ 10 ^ d))
      by (left; now apply Rinv_0_lt_compat).
    apply Rmult_le_compat_r; [left; now apply Rinv_0_lt_compat|].
    apply Rabs_le. lra. }
  destruct (Rltb_spec v 0) as [Hneg|Hpos].
  - rewrite (Rabs_left v) in Hq by exact Hneg.
    replace (-1 * (n / 10 ^ d) - v) with (- (n / 10 ^ d - - v)) by ring.
    now rewrite Rabs_Ropp.
  - rewrite (Rabs_pos_eq v) in Hq by lra.
    now replace (1 * (n / 10 ^ d)) with (n / 10 ^ d) by ring.
Qed.

Lemma round_to_upper (d : nat) (v : R) :
  round_to d v <= v + / 2 / 10 ^ d.
Proof.
  pose proof (round_to_error d v) as H.
  pose proof (Rle_abs (round_to d v - v)). lra.
Qed.

(** Rounding never goes below a multiple of 10^-d that the value reaches. *)
Lemma round_to_ge_grid (d : nat) (v : R) (z : Z) :
  (0 <= z)%Z -> IZR z / 10 ^ d <= v -> IZR z / 10 ^ d <= round_to d v.
Proof.
  intros Hz Hv.
  pose proof (pow_lt 10 d ltac:(lra)) as Hp.
  assert (Hz' : 0 <= IZR z) by now apply IZR_le.
  assert (Hv0 : 0 <= v).
  { eapply Rle_trans; [|exact Hv].
    apply Rmult_le_pos; [exact Hz'|left; now apply Rinv_0_lt_compat]. }
  rewrite round_to_nonneg by exact Hv0.
  apply Rmult_le_compat_r; [left; now apply Rinv_0_lt_compat|].
  pose proof (scaled_round_bounds d v) as [H1 _].
  rewrite (Rabs_pos_eq v) in H1 by exact Hv0.
  assert (Hzv : IZR z <= v * 10 ^ d).
  { apply (Rmult_le_reg_r (/ 10 ^ d)); [now apply Rinv_0_lt_compat|].
    rewrite Rmult_assoc, Rinv_r by lra. lra. }
  assert (Hlt : IZR z - 1 < IZR (scaled_round d v)) by lra.
  rewrite <- minus_IZR in Hlt. apply lt_IZR in Hlt.
  apply IZR_le. lia.
Qed.

Section Advisor.
Variable toString : R -> string.

Lemma eccentricity_rule_spec (p : CycloParams) :
  eccentricity_rule toString p
  = if eccentricity_trigger p
    then ([eccentricity_warning toString p],
          [reduce_eccentricity_fix toString p; increase_radius_fix toString p])
    else ([], []).
Proof.
  unfold eccentricity_rule, eccentricity_trigger, reduce_eccentricity_fix,
    increase_radius_fix, eccentricity_warning, safeE, safeR.
  rewrite !parseFloat_toFixed.
  replace 2.0 with 2 by lra. reflexivity.
Qed.

Lemma pin_rule_spec (p : CycloParams) :
  pin_rule toString p
  = if pin_trigger p
    then (["Pins are too large for spacing."%string], [shrink_pins_fix toString p])
    else ([], []).
Proof.
  unfold pin_rule, pin_trigger, shrink_pins_fix, safePinR.
  rewrite !parseFloat_toFixed. reflexivity.
Qed.

Lemma safeHole_ge_2 (p : CycloParams) : 2 <= safeHole p.
Proof.
  unfold safeHole.
  replace 2 with (IZR 20 / 10 ^ 1) at 1 by (simpl; lra).
  apply round_to_ge_grid; [lia|].
  simpl. pose proof (Rmax_l 2 (approxInnerRadius p - 2)). lra.
Qed.

Lemma wall_rule_spec (p : CycloParams) :
  wall_rule toString p
  = if wall_trigger p
    then (["Wall thickness is critically low."%string],
          [shrink_hole_fix toString p])
    else ([], []).
Proof.
  unfold wall_rule, wall_trigger, shrink_hole_fix.
  rewrite !parseFloat_toFixed.
  replace 2.0 with 2 by lra. fold (safeHole p).
  pose proof (safeHole_ge_2 p) as H.
  unfold Rgtb. destruct (Rltb_spec 0 (safeHole p)); [reflexivity|lra].
Qed.
End Advisor.

(** *** The de-duplication pass *)

Lemma findIndex_lower {A : Type} (f : A -> bool) (l : list A) :
  (-1 <= findIndex f l)%Z.
Proof.
  induction l as [|a l IH]; simpl; [lia|].
  destruct (f a); [lia|]. destruct (Z.ltb_spec (findIndex f l) 0); lia.
Qed.

Lemma findIndex_first {A : Type} (f : A -> bool) (pre : list A) (a : A)
    (suf : list A) :
  (forall b, In b pre -> f b = false) -> f a = true ->
  findIndex f (pre ++ a :: suf) = Z.of_nat (List.length pre).
Proof.
  intros Hpre Ha. induction pre as [|b pre IH]; simpl.
  - now rewrite Ha.
  - rewrite (Hpre b) by now left.
    rewrite IH by (intros c Hc; apply Hpre; now right).
    destruct (Z.ltb_spec (Z.of_nat (List.length pre)) 0); lia.
Qed.

Lemma json_eqb_refl (a : CycloParams) : json_eqb a a = true.
Proof. unfold json_eqb. destruct (CycloParams_eq_dec a a); congruence. Qed.

(** Fixes with pairwise distinct labels all survive the filter. *)
Lemma uniqueFixes_distinct_labels (l : list GeometricFix) :
  NoDup (map label l) -> uniqueFixes l = l.
Proof.
  intros Hnd. unfold uniqueFixes.
  assert (H : forall suf pre, l = pre ++ suf ->
            filter_indexed
              (fun fx index =>
                 (Z.of_nat index =?
                  findIndex (fun f => String.eqb (label f) (label fx) &&
                                      json_eqb (params f) (params fx)) l)%Z)
              (List.length pre) suf = suf).
  { induction suf as [|a suf IH]; intros pre Hl; simpl; [reflexivity|].
    rewrite Hl at 1.
    rewrite findIndex_first, Z.eqb_refl.
    - f_equal.
      replace (S (List.length pre)) with (List.length (pre ++ [a]))
        by (rewrite length_app; simpl; lia).
      apply IH. now rewrite <- app_assoc.
    - intros b Hb. apply andb_false_iff. left. apply String.eqb_neq.
      intros Heq. rewrite Hl, map_app in Hnd. simpl in Hnd.
      apply NoDup_remove_2 in Hnd. apply Hnd.
      apply in_or_app. left. rewrite <- Heq. now apply in_map.
    - now rewrite String.eqb_refl, json_eqb_refl. }
  exact (H l [] eq_refl).
Qed.

Section AdvisorResult.
Variable toString : R -> string.

Lemma pushed_fixes_labels (p : CycloParams) :
  NoDup (map label (pushed_fixes toString p)).
Proof.
  unfold pushed_fixes.
  destruct (eccentricity_trigger p), (pin_trigger p), (wall_trigger p);
    cbn [map app label reduce_eccentricity_fix increase_radius_fix
         shrink_pins_fix shrink_hole_fix];
    repeat (constructor; [cbn [In]; intuition discriminate|]);
    constructor.
Qed.

Lemma getGeometricQuality_spec (p : CycloParams) :
  getGeometricQuality toString p
  = mkQuality (Nat.eqb (List.length (pushed_warnings toString p)) 0)
      (pushed_warnings toString p) (pushed_fixes toString p).
Proof.
  unfold getGeometricQuality.
  rewrite eccentricity_rule_spec, pin_rule_spec, wall_rule_spec.
  rewrite <- (uniqueFixes_distinct_labels _ (pushed_fixes_labels p)).
  unfold pushed_warnings, pushed_fixes.
  destruct (eccentricity_trigger p), (pin_trigger p), (wall_trigger p);
    reflexivity.
Qed.
End AdvisorResult.

Lemma eccentricity_trigger_true (p : CycloParams) :
  eccentricity_trigger p = true
  <-> pinCircleRadius p / (1.5 * pinCount p) < eccentricity p.
Proof. unfold eccentricity_trigger, Rgtb. apply Rltb_true. Qed.

Lemma wall_trigger_true (p : CycloParams) :
  wall_trigger p = true <-> approxInnerRadius p < holeRadius p + 1.5.
Proof. unfold wall_trigger. apply Rltb_true. Qed.

(** When R >= 0.03 * N the rounded R/(2N) stays within R/(1.5N). *)
Lemma safeE_within_limit (p : CycloParams) :
  0 < pinCount p -> 0.03 * pinCount p <= pinCircleRadius p ->
  safeE p <= pinCircleRadius p / (1.5 * pinCount p).
Proof.
  intros HN HR. unfold safeE.
  eapply Rle_trans; [apply round_to_upper|].
  set (u := pinCircleRadius p / pinCount p).
  assert (Hu : 0.03 <= u).
  { unfold u. apply (Rmult_le_reg_r (pinCount p)); [exact HN|].
    unfold Rdiv. rewrite Rmult_assoc, Rinv_l by lra. lra. }
  replace (pinCircleRadius p / (2 * pinCount p)) with (u / 2)
    by (unfold u; field; lra).
  replace (pinCircleRadius p / (1.5 * pinCount p)) with (u / 1.5)
    by (unfold u; field; lra).
  simpl. lra.
Qed.

(** C3 (amended). When E > R/(1.5 N) the advisor reports the design as not
    valid, its first warning is the eccentricity warning, its first fix sets
    eccentricity to R/(2N) rounded to 2 decimals and its second fix sets
    pinCircleRadius to E*2*N rounded to 1 decimal, every other field being
    kept.  If moreover N > 0 and R >= 0.03 * N, the parameters of the first
    fix do not trigger the eccentricity rule again. *)
Theorem C3_eccentricity_fixes (toString : R -> string) (p : CycloParams) :
  pinCircleRadius p / (1.5 * pinCount p) < eccentricity p ->
  let q := getGeometricQuality toString p in
  let fix1 := reduce_eccentricity_fix toString p in
  let fix2 := increase_radius_fix toString p in
  valid q = false /\
  nth_error (warnings q) 0 = Some (eccentricity_warning toString p) /\
  nth_error (fixes q) 0 = Some fix1 /\
  nth_error (fixes q) 1 = Some fix2 /\
  params fix1
  = with_eccentricity p (round_to 2 (pinCircleRadius p / (2 * pinCount p))) /\
  params fix2
  = with_pinCircleRadius p (round_to 1 (eccentricity p * 2 * pinCount p)) /\
  Rabs (eccentricity (params fix1) - pinCircleRadius p / (2 * pinCount p))
  <= / 2 / 10 ^ 2 /\
  Rabs (pinCircleRadius (params fix2) - eccentricity p * 2 * pinCount p)
  <= / 2 / 10 ^ 1 /\
  (0 < pinCount p -> 0.03 * pinCount p <= pinCircleRadius p ->
   eccentricity_trigger (params fix1) = false /\
   eccentricity_rule toString (params fix1) = ([], [])).
Proof.
  intros Htrig. cbv zeta. apply eccentricity_trigger_true in Htrig.
  rewrite getGeometricQuality_spec. unfold pushed_warnings, pushed_fixes.
  rewrite Htrig. cbn [valid warnings fixes app nth_error List.length Nat.eqb].
  repeat split; try reflexivity.
  - apply round_to_error.
  - apply round_to_error.
  - apply Rltb_false. cbn. now apply safeE_within_limit.
  - rewrite eccentricity_rule_spec.
    replace (eccentricity_trigger (params (reduce_eccentricity_fix toString p)))
      with false; [reflexivity|].
    symmetry. apply Rltb_false. cbn. now apply safeE_within_limit.
Qed.

Lemma C3_eccentricity_fixes_witness :
  pinCircleRadius steep_params / (1.5 * pinCount steep_params)
  < eccentricity steep_params /\
  0 < pinCount steep_params /\
  0.03 * pinCount steep_params <= pinCircleRadius steep_params /\
  nth_error (fixes (getGeometricQuality print3 steep_params)) 0
  = Some (reduce_eccentricity_fix print3 steep_params) /\
  eccentricity_trigger (params (reduce_eccentricity_fix print3 steep_params))
  = false.
Proof.
  assert (H1 : pinCircleRadius steep_params / (1.5 * pinCount steep_params)
               < eccentricity steep_params) by (simpl; lra).
  assert (H2 : 0 < pinCount steep_params) by (simpl; lra).
  assert (H3 : 0.03 * pinCount steep_params <= pinCircleRadius steep_params)
    by (simpl; lra).
  pose proof (C3_eccentricity_fixes print3 steep_params H1) as H.
  cbv zeta in H.
  destruct H as [_ [_ [Hf [_ [_ [_ [_ [_ Hre]]]]]]]].
  repeat split; try assumption.
  exact (proj1 (Hre H2 H3)).
Defined.

(** On the tiny drive R/(2N) = 0.00625 rounds up to 0.01, above the limit
    R/(1.5 N) = 0.00833... *)
Lemma tiny_safeE : safeE tiny_params = / 100.
Proof.
  unfold safeE. simpl pinCircleRadius. simpl pinCount.
  rewrite round_to_nonneg by lra.
  rewrite (scaled_round_eq 2 (0.15 / (2 * 12)) 1).
  - simpl. lra.
  - rewrite Rabs_pos_eq by lra. simpl. lra.
Qed.

Lemma tiny_first_fix (toString : R -> string) :
  pinCircleRadius tiny_params / (1.5 * pinCount tiny_params)
  < eccentricity tiny_params /\
  nth_error (fixes (getGeometricQuality toString tiny_params)) 0
  = Some (reduce_eccentricity_fix toString tiny_params) /\
  eccentricity (params (reduce_eccentricity_fix toString tiny_params)) = / 100 /\
  eccentricity_trigger (params (reduce_eccentricity_fix toString tiny_params))
  = true.
Proof.
  assert (Ht : pinCircleRadius tiny_params / (1.5 * pinCount tiny_params)
               < eccentricity tiny_params) by (simpl; lra).
  split; [exact Ht|].
  rewrite getGeometricQuality_spec. unfold pushed_fixes.
  rewrite (proj2 (eccentricity_trigger_true tiny_params) Ht).
  split; [reflexivity|]. split; [apply tiny_safeE|].
  apply eccentricity_trigger_true. cbn. rewrite tiny_safeE. lra.
Qed.

(** C3, as stated, fails: for N = 12, R = 0.15, E = 1 the rule fires and the
    first fix proposes E = 0.01, which still exceeds R/(1.5 N). *)
Lemma C3_counterexample :
  ~ (forall (toString : R -> string) (p : CycloParams),
       pinCircleRadius p / (1.5 * pinCount p) < eccentricity p ->
       exists f,
         nth_error (fixes (getGeometricQuality toString p)) 0 = Some f /\
         eccentricity_trigger (params f) = false).
Proof.
  intros H.
  destruct (tiny_first_fix print3) as [Ht [Hf [_ Hre]]].
  destruct (H print3 tiny_params Ht) as [f [Hf' Hno]].
  rewrite Hf in Hf'. inversion Hf'; subst f. congruence.
Qed.

(** ** The wall-thickness rule *)

Lemma pushed_fixes_hole (toString : R -> string) (p : CycloParams)
    (f : GeometricFix) :
  In f (pushed_fixes toString p) -> label f = "Shrink Center Hole"%string ->
  wall_trigger p = true /\ f = shrink_hole_fix toString p.
Proof.
  unfold pushed_fixes. intros Hin Hl.
  apply in_app_or in Hin. destruct Hin as [Hin|Hin].
  { destruct (eccentricity_trigger p); [|destruct Hin].
    destruct Hin as [<-|[<-|[]]]; discriminate. }
  apply in_app_or in Hin. destruct Hin as [Hin|Hin].
  { destruct (pin_trigger p); [|destruct Hin].
    destruct Hin as [<-|[]]; discriminate. }
  destruct (wall_trigger p); [|destruct Hin].
  destruct Hin as [<-|[]]. split; reflexivity.
Qed.

Lemma pushed_fixes_wall (toString : R -> string) (p : CycloParams) :
  wall_trigger p = true ->
  In (shrink_hole_fix toString p) (pushed_fixes toString p) /\
  In "Wall thickness is critically low."%string (pushed_warnings toString p).
Proof.
  intros Hw. unfold pushed_fixes, pushed_warnings. rewrite Hw. split.
  - apply in_or_app. right. apply in_or_app. right. now left.
  - apply in_or_app. right. apply in_or_app. right. now left.
Qed.

(** C4 (amended). A 'Shrink Center Hole' fix is proposed exactly when the
    wall-thickness rule fires (approxInnerRadius < holeRadius + 1.5, with
    approxInnerRadius = R - N*E - pinRadius); the warning is emitted with it,
    whatever the sign of approxInnerRadius - 2.0, because the proposed
    holeRadius, max (2, approxInnerRadius - 2.0) rounded to 1 decimal, is at
    least 2 and so passes the test [safeHole > 0]. *)
Theorem C4_shrink_center_hole (toString : R -> string) (p : CycloParams) :
  let q := getGeometricQuality toString p in
  let fx := shrink_hole_fix toString p in
  approxInnerRadius p
  = pinCircleRadius p - pinCount p * eccentricity p - pinRadius p /\
  (Exists (fun f => label f = "Shrink Center Hole"%string) (fixes q)
   <-> approxInnerRadius p < holeRadius p + 1.5) /\
  Forall (fun f => label f = "Shrink Center Hole"%string -> f = fx) (fixes q) /\
  (approxInnerRadius p < holeRadius p + 1.5 ->
   In "Wall thickness is critically low."%string (warnings q) /\
   In fx (fixes q)) /\
  params fx
  = with_holeRadius p (round_to 1 (Rmax 2 (approxInnerRadius p - 2))) /\
  2 <= holeRadius (params fx).
Proof.
  cbv zeta. rewrite getGeometricQuality_spec. cbn [fixes warnings].
  split; [reflexivity|]. split; [|split; [|split; [|split]]].
  - rewrite Exists_exists. split.
    + intros [f [Hin Hl]]. apply wall_trigger_true.
      now destruct (pushed_fixes_hole toString p f Hin Hl).
    + intros Hw. apply wall_trigger_true in Hw.
      exists (shrink_hole_fix toString p). split; [|reflexivity].
      now apply pushed_fixes_wall.
  - apply Forall_forall. intros f Hin Hl.
    now destruct (pushed_fixes_hole toString p f Hin Hl).
  - intros Hw. apply wall_trigger_true in Hw.
    destruct (pushed_fixes_wall toString p Hw). now split.
  - reflexivity.
  - apply safeHole_ge_2.
Qed.

Lemma C4_shrink_center_hole_witness :
  approxInnerRadius thin_wall_params < holeRadius thin_wall_params + 1.5 /\
  In (shrink_hole_fix print3 thin_wall_params)
     (fixes (getGeometricQuality print3 thin_wall_params)).
Proof.
  assert (H : approxInnerRadius thin_wall_params
              < holeRadius thin_wall_params + 1.5)
    by (unfold approxInnerRadius; simpl; lra).
  split; [exact H|].
  pose proof (C4_shrink_center_hole print3 thin_wall_params) as HC.
  cbv zeta in HC. destruct HC as [_ [_ [_ [Hw _]]]].
  exact (proj2 (Hw H)).
Defined.

(** C4, as stated, fails: with R = 10, N = 4, E = 1, pinRadius = 5 and
    holeRadius = 5 the rule fires, approxInnerRadius - 2.0 = -1 <= 0, and a
    'Shrink Center Hole' fix is proposed all the same. *)
Lemma C4_counterexample :
  ~ (forall (toString : R -> string) (p : CycloParams),
       approxInnerRadius p < holeRadius p + 1.5 ->
       approxInnerRadius p - 2 <= 0 ->
       ~ Exists (fun f => label f = "Shrink Center Hole"%string)
           (fixes (getGeometricQuality toString p))).
Proof.
  intros H.
  assert (H1 : approxInnerRadius thin_wall_params
               < holeRadius thin_wall_params + 1.5)
    by (unfold approxInnerRadius; simpl; lra).
  assert (H2 : approxInnerRadius thin_wall_params - 2 <= 0)
    by (unfold approxInnerRadius; simpl; lra).
  apply (H print3 thin_wall_params H1 H2).
  rewrite getGeometricQuality_spec. cbn [fixes].
  apply Exists_exists. exists (shrink_hole_fix print3 thin_wall_params).
  split; [|reflexivity].
  apply pushed_fixes_wall. now apply wall_trigger_true.
Qed.

(** C10. Every fix proposed by [getGeometricQuality] carries the input
    parameters with one field replaced: eccentricity for 'Reduce
    Eccentricity', pinCircleRadius for 'Increase Radius', pinRadius for
    'Shrink Pins', holeRadius for 'Shrink Center Hole'; every other field,
    resolution, tolerances and output-stage fields included, is the input's. *)
Theorem C10_fix_frame (toString : R -> string) (p : CycloParams) :
  Forall (single_field_fix p) (fixes (getGeometricQuality toString p)).
Proof.
  rewrite getGeometricQuality_spec. cbn [fixes]. unfold pushed_fixes.
  apply Forall_app; split.
  - destruct (eccentricity_trigger p); [|apply Forall_nil].
    apply Forall_cons; [|apply Forall_cons; [|apply Forall_nil]].
    + left. split; reflexivity.
    + right. left. split; reflexivity.
  - apply Forall_app; split.
    + destruct (pin_trigger p); [|apply Forall_nil].
      apply Forall_cons; [|apply Forall_nil].
      right. right. left. split; reflexivity.
    + destruct (wall_trigger p); [|apply Forall_nil].
      apply Forall_cons; [|apply Forall_nil].
      right. right. right. split; reflexivity.
Qed.

(** ** generateDXF *)

Lemma fold_append {A : Type} (f : A -> string) (l : list A) (init : string) :
  fold_left (fun acc a => (acc ++ f a)%string) l init
  = (init ++ fold_right (fun a acc => (f a ++ acc)%string) ""%string l)%string.
Proof.
  revert init; induction l as [|a l IH]; intros init; simpl.
  - now rewrite string_app_nil_r.
  - now rewrite IH, string_app_assoc.
Qed.

(** Brings a text built with [++] to right-nested form. *)
Ltac norm_strings :=
  repeat (first [ rewrite string_app_assoc | progress cbn [append] ]).

Lemma unlines_app (a b : list string) :
  unlines (a ++ b) = (unlines a ++ unlines b)%string.
Proof.
  induction a as [|l a IH]; simpl; [reflexivity|].
  now rewrite IH, !string_app_assoc.
Qed.

Lemma vertex_text_lines (p : Point) : vertex_text p = unlines (vertex_lines p).
Proof.
  unfold vertex_text, vertex_lines, unlines, nl.
  generalize (toFixed 4 (x p)) (toFixed 4 (y p)). intros a b.
  cbn [fold_right]. norm_strings. reflexivity.
Qed.

Lemma vertices_text_lines (pts : list Point) :
  fold_right (fun a acc => (vertex_text a ++ acc)%string) ""%string pts
  = unlines (flat_map vertex_lines pts).
Proof.
  induction pts as [|p pts IH]; [reflexivity|].
  change (flat_map vertex_lines (p :: pts))
    with (vertex_lines p ++ flat_map vertex_lines pts).
  rewrite unlines_app, <- IH, <- vertex_text_lines. reflexivity.
Qed.

Lemma generateDXF_lines (pts holes : list Point) (p : CycloParams) :
  generateDXF pts holes p = unlines (dxf_lines pts p).
Proof.
  unfold generateDXF, dxf_lines, polyline_lines, circle_lines.
  rewrite fold_append, vertices_text_lines.
  rewrite !unlines_app.
  set (v := unlines (flat_map vertex_lines pts)).
  set (r := toFixed 4 (holeRadius p + holeTolerance p)).
  clearbody v r. unfold unlines, nl.
  cbn [fold_right]. norm_strings. reflexivity.
Qed.

Lemma fixed_digits_length (d : nat) : forall n : Z,
  String.length (fixed_digits d n) = d.
Proof.
  assert (Hl : forall a b : string,
             String.length (a ++ b) = (String.length a + String.length b)%nat).
  { induction a as [|c a IH]; intros b; simpl; [reflexivity|now rewrite IH]. }
  induction d as [|d IH]; intros n; simpl; [reflexivity|].
  rewrite Hl, IH. simpl. lia.
Qed.

Lemma has_dot_app (a b : string) : has_dot (a ++ "." ++ b) = true.
Proof.
  change ("." ++ b)%string with (String "."%char b).
  induction a as [|c a IH]; cbn [append has_dot]; [reflexivity|].
  rewrite IH. apply orb_true_r.
Qed.

Lemma toFixed_decimal_text (d : nat) (v : R) :
  decimal_text (S d) v (toFixed (S d) v).
Proof.
  split; [|apply parseFloat_toFixed].
  unfold toFixed.
  exists ((if Rltb v 0 then "-" else "") ++
          int_digits (scaled_round (S d) v / 10 ^ Z.of_nat (S d)))%string,
         (fixed_digits (S d) (scaled_round (S d) v)).
  split; [now rewrite string_app_assoc|apply fixed_digits_length].
Qed.

Lemma toFixed_has_dot (d : nat) (v : R) : has_dot (toFixed (S d) v) = true.
Proof.
  destruct (toFixed_decimal_text d v) as [[a [b [-> _]]] _]. apply has_dot_app.
Qed.

Lemma eqb_no_dot (k s : string) :
  has_dot k = false -> has_dot s = true -> String.eqb k s = false.
Proof.
  intros Hk Hs. apply String.eqb_neq. intros ->. congruence.
Qed.

Lemma count_lines_app (s : string) (a b : list string) :
  count_lines s (a ++ b) = (count_lines s a + count_lines s b)%nat.
Proof. unfold count_lines. now rewrite filter_app, length_app. Qed.

(** A keyword without a point is counted in a VERTEX entity only among its
    fixed lines. *)
Lemma count_lines_vertex (k : string) (p : Point) :
  has_dot k = false ->
  count_lines k (vertex_lines p)
  = count_lines k ["0"; "VERTEX"; "8"; "CycloidProfile";
                   "10"; "20"; "30"; "0.0"]%string.
Proof.
  intros Hk. unfold count_lines, vertex_lines. cbn [filter].
  rewrite !(eqb_no_dot k (toFixed 4 _)) by (auto using toFixed_has_dot).
  destruct (String.eqb k "0"), (String.eqb k "VERTEX"), (String.eqb k "8"),
    (String.eqb k "CycloidProfile"), (String.eqb k "10"), (String.eqb k "20"),
    (String.eqb k "30"), (String.eqb k "0.0"); reflexivity.
Qed.

Lemma count_lines_vertices (k : string) (pts : list Point) (c : nat) :
  has_dot k = false ->
  count_lines k ["0"; "VERTEX"; "8"; "CycloidProfile";
                 "10"; "20"; "30"; "0.0"]%string = c ->
  count_lines k (flat_map vertex_lines pts) = (c * List.length pts)%nat.
Proof.
  intros Hk Hc. induction pts as [|p pts IH]; [cbv [count_lines]; simpl; lia|].
  change (flat_map vertex_lines (p :: pts))
    with (vertex_lines p ++ flat_map vertex_lines pts).
  rewrite count_lines_app, IH, count_lines_vertex, Hc by exact Hk.
  simpl List.length. rewrite Nat.mul_succ_r. lia.
Qed.

Lemma count_lines_circle (k r : string) :
  has_dot k = false -> has_dot r = true ->
  count_lines k (circle_lines r)
  = count_lines k ["0"; "CIRCLE"; "8"; "CenterHole";
                   "10"; "0.0"; "20"; "0.0"; "30"; "0.0"; "40"]%string.
Proof.
  intros Hk Hr. unfold count_lines, circle_lines. cbn [filter].
  rewrite (eqb_no_dot k r Hk Hr).
  destruct (String.eqb k "0"), (String.eqb k "CIRCLE"), (String.eqb k "8"),
    (String.eqb k "CenterHole"), (String.eqb k "10"), (String.eqb k "0.0"),
    (String.eqb k "20"), (String.eqb k "30"), (String.eqb k "40"); reflexivity.
Qed.

(** The entity count of a keyword in the whole document. *)
Lemma count_lines_dxf (k : string) (pts : list Point) (p : CycloParams)
    (cv : nat) :
  has_dot k = false ->
  count_lines k ["0"; "VERTEX"; "8"; "CycloidProfile";
                 "10"; "20"; "30"; "0.0"]%string = cv ->
  count_lines k (dxf_lines pts p)
  = (count_lines k ["0"; "SECTION"; "2"; "ENTITIES"]%string
     + (count_lines k ["0"; "POLYLINE"; "8"; "CycloidProfile";
                       "66"; "1"; "70"; "1"]%string
        + (cv * List.length pts + count_lines k ["0"; "SEQEND"]%string))
     + (count_lines k ["0"; "CIRCLE"; "8"; "CenterHole";
                       "10"; "0.0"; "20"; "0.0"; "30"; "0.0"; "40"]%string
        + count_lines k ["0"; "ENDSEC"; "0"; "EOF"]%string))%nat.
Proof.
  intros Hk Hv. unfold dxf_lines, polyline_lines.
  rewrite !count_lines_app.
  rewrite (count_lines_vertices k pts cv Hk Hv).
  rewrite count_lines_circle by (auto using toFixed_has_dot).
  lia.
Qed.

(** The scenario of the specification: 10 + 0.1 prints as 10.1000. *)
Lemma toFixed_10_1 : toFixed 4 (10 + 0.1) = "10.1000"%string.
Proof.
  unfold toFixed.
  rewrite (scaled_round_eq 4 (10 + 0.1) 101000).
  - destruct (Rltb_spec (10 + 0.1) 0) as [H|_]; [lra|]. reflexivity.
  - rewrite Rabs_pos_eq by lra. simpl. lra.
Qed.

(** C7. For every point sequence and parameter set the export is the text of
    these lines: the SECTION / ENTITIES header, one closed POLYLINE on layer
    CycloidProfile with one VERTEX (x, y at 4 decimals, z = 0.0) per input
    point and a SEQEND, one CIRCLE on layer CenterHole centred at (0,0,0)
    whose radius is holeRadius + holeTolerance at 4 decimals, then ENDSEC and
    EOF.  For holeRadius = 10 and holeTolerance = 0.1 the radius line is
    10.1000. *)
Theorem C7_dxf_document (pts holes : list Point) (p : CycloParams) :
  let radius := toFixed 4 (holeRadius p + holeTolerance p) in
  generateDXF pts holes p
  = unlines
      (["0"; "SECTION"; "2"; "ENTITIES"]%string
       ++ (["0"; "POLYLINE"; "8"; "CycloidProfile"; "66"; "1"; "70"; "1"]%string
           ++ flat_map
                (fun pt => ["0"; "VERTEX"; "8"; "CycloidProfile";
                            "10"; toFixed 4 (x pt); "20"; toFixed 4 (y pt);
                            "30"; "0.0"]%string) pts
           ++ ["0"; "SEQEND"]%string)
       ++ ["0"; "CIRCLE"; "8"; "CenterHole";
           "10"; "0.0"; "20"; "0.0"; "30"; "0.0"; "40"; radius]%string
       ++ ["0"; "ENDSEC"; "0"; "EOF"]%string) /\
  count_lines "POLYLINE" (dxf_lines pts p) = 1%nat /\
  count_lines "CIRCLE" (dxf_lines pts p) = 1%nat /\
  count_lines "VERTEX" (dxf_lines pts p) = List.length pts /\
  Forall (fun pt => decimal_text 4 (x pt) (toFixed 4 (x pt)) /\
                    decimal_text 4 (y pt) (toFixed 4 (y pt))) pts /\
  decimal_text 4 (holeRadius p + holeTolerance p) radius /\
  (holeRadius p = 10 -> holeTolerance p = 0.1 -> radius = "10.1000"%string).
Proof.
  cbv zeta. split; [apply generateDXF_lines|].
  split; [|split; [|split; [|split; [|split]]]].
  - now rewrite (count_lines_dxf "POLYLINE" pts p 0).
  - now rewrite (count_lines_dxf "CIRCLE" pts p 0).
  - rewrite (count_lines_dxf "VERTEX" pts p 1) by reflexivity.
    cbv [count_lines]. simpl. lia.
  - apply Forall_forall. intros pt _. split; apply toFixed_decimal_text.
  - apply toFixed_decimal_text.
  - intros -> ->. apply toFixed_10_1.
Qed.

Lemma C7_dxf_document_witness :
  holeRadius DEFAULT_PARAMS = 10 /\ holeTolerance DEFAULT_PARAMS = 0.1 /\
  toFixed 4 (holeRadius DEFAULT_PARAMS + holeTolerance DEFAULT_PARAMS)
  = "10.1000"%string.
Proof.
  split; [reflexivity|]. split; [reflexivity|].
  exact (proj2 (proj2 (proj2 (proj2 (proj2 (proj2
           (C7_dxf_document [] [] DEFAULT_PARAMS))))))
           eq_refl eq_refl).
Defined.

(** C9. The export does not depend on its [holes] argument, nor on the
    output stage of the parameters: it holds the profile polyline and the
    centre-bore circle, the only CIRCLE of the document, and none of the
    output-pin holes. *)
Theorem C9_holes_ignored (pts h1 h2 : list Point) (p : CycloParams) :
  generateDXF pts h1 p = generateDXF pts h2 p /\
  (forall (n : nat) (r c : R),
     generateDXF pts h1 p = generateDXF pts h2 (with_output_stage p n r c)) /\
  generateDXF pts h1 p = unlines (dxf_lines pts p) /\
  count_lines "CIRCLE" (dxf_lines pts p) = 1%nat.
Proof.
  split; [reflexivity|]. split; [reflexivity|].
  split; [apply generateDXF_lines|].
  now rewrite (count_lines_dxf "CIRCLE" pts p 0).
Qed.

(** ** getDiscSVGPath *)

Section DiscPath.
Variable toString : R -> string.
Variable lineGenerator : list Point -> option string.

Lemma hole_text_cmds (r cx cy : R) :
  hole_text toString r cx cy = render_path toString (hole_cmds r cx cy).
Proof.
  unfold hole_text, render_path, hole_cmds, render_cmd, flag_text.
  cbn [fold_right].
  generalize (toString r) (toString cy) (toString (cx + r)) (toString (cx - r)).
  intros a b c d. norm_strings. now rewrite string_app_nil_r.
Qed.

Lemma render_path_app (a b : list PathCmd) :
  render_path toString (a ++ b)
  = (render_path toString a ++ render_path toString b)%string.
Proof.
  induction a as [|c a IH]; simpl; [reflexivity|].
  now rewrite IH, string_app_assoc.
Qed.

Lemma sample_angle (n i : nat) :
  INR i / INR n * 2 * PI = 2 * PI * INR i / INR n.
Proof. unfold Rdiv. ring. Qed.

Lemma getDiscSVGPath_cmds (pts : list Point) (p : CycloParams) :
  getDiscSVGPath toString lineGenerator pts p
  = ((match lineGenerator pts with Some s => s | None => "" end) ++
     render_path toString
       (flat_map (fun i => hole_cmds (hole_radius p) (hole_cx p i) (hole_cy p i))
          (seq 0 (outputPinCount p))))%string.
Proof.
  unfold getDiscSVGPath. rewrite fold_append. f_equal.
  induction (seq 0 (outputPinCount p)) as [|i l IH]; [reflexivity|].
  change (flat_map (fun i => hole_cmds (hole_radius p) (hole_cx p i) (hole_cy p i))
            (i :: l))
    with (hole_cmds (hole_radius p) (hole_cx p i) (hole_cy p i)
          ++ flat_map (fun i => hole_cmds (hole_radius p) (hole_cx p i)
                                  (hole_cy p i)) l).
  rewrite render_path_app, <- IH, <- hole_text_cmds.
  cbn [fold_right]. unfold hole_cx, hole_cy, hole_angle, hole_radius.
  now rewrite sample_angle.
Qed.
End DiscPath.


(** ** Worked scenarios *)

(** Magnitudes are compared, the sign is kept: -1 wins over 3 and 2. *)
Example min_update_keeps_sign :
  fold_left min_update [Finite 3; Finite (-1); Finite 2; NonFinite] MAX_VALUE
  = -1.
Proof.
  pose proof MAX_VALUE_pos as Hm.
  assert (H3 : 3 < MAX_VALUE) by (apply IZR_lt; reflexivity).
  assert (A1 : Rltb (Rabs 3) (Rabs MAX_VALUE) = true).
  { apply Rltb_true. rewrite !Rabs_pos_eq by lra. lra. }
  assert (A2 : Rltb (Rabs (-1)) (Rabs 3) = true).
  { apply Rltb_true. rewrite (Rabs_left (-1)), (Rabs_pos_eq 3) by lra. lra. }
  assert (A3 : Rltb (Rabs 2) (Rabs (-1)) = false).
  { apply Rltb_false. rewrite (Rabs_left (-1)), (Rabs_pos_eq 2) by lra. lra. }
  cbn [fold_left min_update]. now rewrite A1, A2, A3.
Qed.

(** With no eccentricity the profile is a circle: every sample is kept, has
    curvature radius R - pinRadius = 45 and pressure angle 0. *)
Example circle_design_metrics :
  minCurvatureRadius (calculatePhysicsMetrics circle_params) = 45 /\
  maxPressureAngle (calculatePhysicsMetrics circle_params) = 0 /\
  List.length (points (calculatePhysicsMetrics circle_params)) = 721%nat.
Proof.
  rewrite calculatePhysicsMetrics_spec. cbn [minCurvatureRadius maxPressureAngle points].
  rewrite nothing_dropped by (simpl; unfold eps; lra).
  assert (Hc : forall i, curvature_at circle_params i = Finite 45).
  { intros i. unfold curvature_at, surfaceCurvature, rho, js_div, pow15. simpl.
    replace (50 * 50 + 0 * 0 * 12 * 12
             - 2 * 50 * 0 * 12 * cos ((12 - 1) * sample_t 720 i))
      with (50 * 50) by ring.
    replace (50 * 50 + 0 * 0 * 12 * 12 * 12
             - 50 * 0 * 12 * (12 + 1) * cos ((12 - 1) * sample_t 720 i))
      with (50 * 50) by ring.
    rewrite sqrt_square by lra.
    destruct (Req_dec_T (50 * 50) 0) as [H|_]; [lra|].
    simpl. f_equal. field. }
  assert (Hp : forall i, pressure_at circle_params i = 0).
  { intros i. unfold pressure_at, pressureDeg. simpl.
    replace (0 * 12 / 50) with 0 by field.
    rewrite !Rmult_0_l, Rminus_0_r, Rabs_R0, Rabs_R1.
    rewrite atan2_pos_den by lra.
    replace (0 / 1) with 0 by field. rewrite atan_0. ring. }
  assert (H45 : 45 < MAX_VALUE) by (apply IZR_lt; reflexivity).
  split; [|split].
  - unfold sample_indices. cbn [seq map fold_left]. rewrite Hc. simpl min_update.
    unfold Rltb at 1.
    destruct (Rlt_dec (Rabs 45) (Rabs MAX_VALUE)) as [_|H];
      [|exfalso; apply H; rewrite !Rabs_pos_eq by lra; lra].
    induction (seq 1 (resolution circle_params)) as [|i l IH]; [reflexivity|].
    cbn [map fold_left]. rewrite Hc. simpl min_update. unfold Rltb at 1.
    destruct (Rlt_dec (Rabs 45) (Rabs 45)) as [H|_]; [lra|exact IH].
  - induction (sample_indices circle_params) as [|i l IH]; [reflexivity|].
    cbn [map fold_left]. rewrite Hp. unfold max_update at 2, Rgtb, Rltb.
    destruct (Rlt_dec 0 0) as [H|_]; [lra|exact IH].
  - rewrite length_map. unfold sample_indices. now rewrite length_seq.
Qed.

(** The heavy-duty scenario: approxInnerRadius = 100 - 32 - 15 = 53 is above
    25 + 1.5, no rule fires and the design is reported valid. *)
Example heavy_duty_valid (toString : R -> string) :
  approxInnerRadius HEAVY_DUTY = 53 /\
  getGeometricQuality toString HEAVY_DUTY = mkQuality true [] [].
Proof.
  split; [unfold approxInnerRadius; simpl; lra|].
  rewrite getGeometricQuality_spec. unfold pushed_warnings, pushed_fixes.
  pose proof PI2_1 as Hpi.
  replace (eccentricity_trigger HEAVY_DUTY) with false
    by (symmetry; apply Rltb_false; simpl; lra).
  replace (pin_trigger HEAVY_DUTY) with false
    by (symmetry; apply Rltb_false; simpl; lra).
  replace (wall_trigger HEAVY_DUTY) with false
    by (symmetry; apply Rltb_false; unfold approxInnerRadius; simpl; lra).
  reflexivity.
Qed.

(** Texts of [toFixed] and their reading. *)
Example toFixed_small_negative : toFixed 2 (- 0.004) = "-0.00"%string.
Proof.
  unfold toFixed.
  rewrite (scaled_round_eq 2 (- 0.004) 0).
  - destruct (Rltb_spec (- 0.004) 0) as [_|H]; [reflexivity|lra].
  - rewrite Rabs_left by lra. simpl. lra.
Qed.

Example parseFloat_10_1 : parseFloat "10.1000" = 10.1.
Proof. unfold parseFloat. simpl. lra. Qed.

(** * Properties of the surrounding code *)

(** Where a statement depends on a quotient whose divisor the parameters can
    make zero, the divisor is assumed non-zero: [i / resolution] of the
    sampling loops ([resolution >= 1]), [E * N / R] of the pressure angle
    ([R <> 0]) and [R / (1.5 * N)] of the eccentricity rule ([N <> 0]).  With
    a zero divisor the source computes with [NaN] or an infinity, which the
    real numbers do not have. *)

(** ** Loops over a real bound *)

Lemma loop_count_bounds (n : R) :
  n <= IZR (- Int_part (- n)) < n + 1.
Proof.
  pose proof (base_Int_part (- n)) as [H1 H2].
  rewrite opp_IZR. lra.
Qed.

(** The loop body runs for index [i] exactly when the test [i < n] holds. *)
Lemma loop_count_spec (n : R) (i : nat) :
  (i < loop_count n)%nat <-> INR i < n.
Proof.
  unfold loop_count. pose proof (loop_count_bounds n) as [H1 H2].
  set (c := (- Int_part (- n))%Z) in *.
  rewrite INR_IZR_INZ. split.
  - intros Hi.
    assert (Hz : (Z.of_nat i < c)%Z) by lia.
    assert (Hz' : (Z.of_nat i + 1 <= c)%Z) by lia.
    apply IZR_le in Hz'. rewrite plus_IZR in Hz'. lra.
  - intros Hi.
    assert (Hlt : IZR (Z.of_nat i) < IZR c) by lra.
    apply lt_IZR in Hlt. lia.
Qed.

Lemma loop_count_INR (n : nat) : loop_count (INR n) = n.
Proof.
  unfold loop_count.
  replace (Int_part (- INR n)) with (- Z.of_nat n)%Z.
  - rewrite Z.opp_involutive. apply Nat2Z.id.
  - apply Int_part_spec. rewrite opp_IZR, <- INR_IZR_INZ. lra.
Qed.

Lemma fold_push_all {A B : Type} (f : B -> A) (l : list B) (init : list A) :
  fold_left (fun acc i => acc ++ [f i]) l init = init ++ map f l.
Proof.
  revert init; induction l as [|b l IH]; intros init; simpl.
  - now rewrite app_nil_r.
  - now rewrite IH, <- app_assoc.
Qed.

(** ** generatePinPoints *)

Lemma generatePinPoints_map (p : CycloParams) :
  generatePinPoints p
  = map (fun i => circle_point (pinCircleRadius p)
                    (INR i / pinCount p * 2 * PI))
      (seq 0 (loop_count (pinCount p))).
Proof. unfold generatePinPoints. now rewrite fold_push_all. Qed.

Lemma circle_point_radius (r a : R) : radius_of (circle_point r a) = Rabs r.
Proof.
  unfold radius_of, circle_point. simpl.
  pose proof (sin2_cos2 a) as H. unfold Rsqr in H.
  replace (r * cos a * (r * cos a) + r * sin a * (r * sin a))
    with (r * r * (sin a * sin a + cos a * cos a)) by ring.
  rewrite H, Rmult_1_r. change (r * r) with (Rsqr r). apply sqrt_Rsqr_abs.
Qed.

(** The chord between two points of a circle whose angles differ by 2h. *)
Lemma chord_length (r a h : R) :
  0 <= sin h ->
  dist (circle_point r a) (circle_point r (a + 2 * h)) = 2 * Rabs r * sin h.
Proof.
  intros Hs. unfold dist, circle_point. simpl.
  rewrite cos_plus, sin_plus, cos_2a_sin, sin_2a.
  pose proof (sin2_cos2 a) as Ha. pose proof (sin2_cos2 h) as Hh.
  unfold Rsqr in Ha, Hh.
  set (ca := cos a) in *. set (sa := sin a) in *.
  set (ch := cos h) in *. set (sh := sin h) in *.
  replace ((r * (ca * (1 - 2 * sh * sh) - sa * (2 * sh * ch)) - r * ca)
           * ((r * (ca * (1 - 2 * sh * sh) - sa * (2 * sh * ch)) - r * ca) * 1)
           + (r * (sa * (1 - 2 * sh * sh) + ca * (2 * sh * ch)) - r * sa)
             * ((r * (sa * (1 - 2 * sh * sh) + ca * (2 * sh * ch)) - r * sa) * 1))
    with (4 * (r * r) * (sh * sh) * (sa * sa + ca * ca)
          * (sh * sh + ch * ch)) by ring.
  rewrite Ha, Hh, !Rmult_1_r.
  replace (4 * (r * r) * (sh * sh)) with (Rsqr (2 * Rabs r * sh)).
  - rewrite sqrt_Rsqr; [reflexivity|].
    pose proof (Rabs_pos r). apply Rmult_le_pos; lra.
  - unfold Rsqr.
    replace (2 * Rabs r * sh * (2 * Rabs r * sh))
      with (4 * (Rabs r * Rabs r) * (sh * sh)) by ring.
    rewrite <- Rabs_mult, (Rabs_pos_eq (r * r)); [ring|].
    apply Rle_0_sqr.
Qed.

(** X1. [generatePinPoints] returns one pin for each natural number below
    pinCount (pinCount pins when it is a natural number), pin i being the
    point at angle 2 pi i / pinCount of the pin circle; every pin lies at
    distance |pinCircleRadius| from the centre. *)
Theorem X1_pin_points (p : CycloParams) :
  generatePinPoints p
  = map (fun i => circle_point (pinCircleRadius p)
                    (2 * PI * INR i / pinCount p))
      (seq 0 (List.length (generatePinPoints p))) /\
  (forall i : nat,
     (i < List.length (generatePinPoints p))%nat <-> INR i < pinCount p) /\
  (forall n : nat,
     pinCount p = INR n -> List.length (generatePinPoints p) = n) /\
  Forall (fun pt => radius_of pt = Rabs (pinCircleRadius p))
    (generatePinPoints p).
Proof.
  assert (Hlen : List.length (generatePinPoints p) = loop_count (pinCount p)).
  { rewrite generatePinPoints_map, length_map. apply length_seq. }
  rewrite Hlen. split; [|split; [|split]].
  - rewrite generatePinPoints_map. apply map_ext. intros i.
    f_equal. unfold Rdiv. ring.
  - intros i. apply loop_count_spec.
  - intros n ->. apply loop_count_INR.
  - rewrite generatePinPoints_map. apply Forall_forall. intros pt Hin.
    apply in_map_iff in Hin. destruct Hin as [i [<- _]].
    apply circle_point_radius.
Qed.

Lemma X1_pin_points_witness :
  pinCount DEFAULT_PARAMS = INR 12 /\
  List.length (generatePinPoints DEFAULT_PARAMS) = 12%nat.
Proof.
  assert (H : pinCount DEFAULT_PARAMS = INR 12) by (simpl; lra).
  split; [exact H|].
  exact (proj1 (proj2 (proj2 (X1_pin_points DEFAULT_PARAMS))) 12%nat H).
Defined.

(** X2. With a whole number n >= 1 of pins, neighbouring pins are equally
    spaced: pin i and pin i + 1 are 2 |R| sin (pi / n) apart, and so are the
    last pin and the first. *)
Theorem X2_pin_spacing (p : CycloParams) (n : nat) :
  pinCount p = INR n -> (1 <= n)%nat ->
  let pin := fun i : nat =>
    nth i (generatePinPoints p) (circle_point (pinCircleRadius p) 0) in
  let chord := 2 * Rabs (pinCircleRadius p) * sin (PI / INR n) in
  (forall i : nat, (S i < n)%nat -> dist (pin i) (pin (S i)) = chord) /\
  dist (pin (n - 1)%nat) (pin 0%nat) = chord.
Proof.
  intros HN Hn. cbv zeta.
  assert (Hn0 : 0 < INR n) by (apply lt_0_INR; lia).
  assert (Hsin : 0 <= sin (PI / INR n)).
  { pose proof PI_RGT_0 as Hpi. apply sin_ge_0.
    - left. now apply Rdiv_lt_0_compat.
    - apply (Rmult_le_reg_r (INR n)); [exact Hn0|].
      unfold Rdiv. rewrite Rmult_assoc, Rinv_l by lra.
      assert (1 <= INR n) by (change 1 with (INR 1); apply le_INR; lia).
      nra. }
  assert (Hnth : forall i, (i < n)%nat ->
            nth i (generatePinPoints p) (circle_point (pinCircleRadius p) 0)
            = circle_point (pinCircleRadius p) (INR i / INR n * 2 * PI)).
  { intros i Hi. rewrite generatePinPoints_map, HN, loop_count_INR.
    rewrite (nth_indep _ _ (circle_point (pinCircleRadius p)
                              (INR 0 / INR n * 2 * PI)))
      by (rewrite length_map, length_seq; exact Hi).
    rewrite (map_nth (fun i => circle_point (pinCircleRadius p)
                                 (INR i / INR n * 2 * PI)) (seq 0 n) 0%nat i).
    now rewrite seq_nth. }
  split.
  - intros i Hi. rewrite !Hnth by lia.
    replace (INR (S i) / INR n * 2 * PI)
      with (INR i / INR n * 2 * PI + 2 * (PI / INR n))
      by (rewrite S_INR; field; lra).
    now apply chord_length.
  - rewrite !Hnth by lia.
    replace (circle_point (pinCircleRadius p) (INR 0 / INR n * 2 * PI))
      with (circle_point (pinCircleRadius p)
              (INR (n - 1) / INR n * 2 * PI + 2 * (PI / INR n))).
    + now apply chord_length.
    + unfold circle_point.
      replace (INR (n - 1) / INR n * 2 * PI + 2 * (PI / INR n))
        with (INR 0 / INR n * 2 * PI + 2 * INR 1 * PI)
        by (rewrite minus_INR by lia; simpl; field; lra).
      now rewrite cos_period, sin_period.
Qed.

Lemma X2_pin_spacing_witness :
  pinCount DEFAULT_PARAMS = INR 12 /\ (1 <= 12)%nat /\
  dist (nth 11 (generatePinPoints DEFAULT_PARAMS)
          (circle_point (pinCircleRadius DEFAULT_PARAMS) 0))
       (nth 0 (generatePinPoints DEFAULT_PARAMS)
          (circle_point (pinCircleRadius DEFAULT_PARAMS) 0))
  = 2 * Rabs (pinCircleRadius DEFAULT_PARAMS) * sin (PI / INR 12).
Proof.
  assert (H : pinCount DEFAULT_PARAMS = INR 12) by (simpl; lra).
  assert (H1 : (1 <= 12)%nat) by lia.
  split; [exact H|]. split; [exact H1|].
  exact (proj2 (X2_pin_spacing DEFAULT_PARAMS 12 H H1)).
Defined.

(** ** calculateMinWallThickness *)

(** The running minimum of the walls, from any start value. *)
Lemma min_wall_fold (pts : list Point) (h m0 : R) :
  let r := fold_left
             (fun minDist p =>
                if Rltb (sqrt (x p * x p + y p * y p) - h) minDist
                then sqrt (x p * x p + y p * y p) - h else minDist)
             pts m0 in
  r <= m0 /\
  Forall (fun pt => r <= radius_of pt - h) pts /\
  (r = m0 \/ Exists (fun pt => r = radius_of pt - h) pts).
Proof.
  revert m0; induction pts as [|pt pts IH]; intros m0; simpl.
  - split; [lra|]. split; [constructor|now left].
  - fold (radius_of pt).
    set (m1 := if Rltb (radius_of pt - h) m0 then radius_of pt - h else m0).
    destruct (IH m1) as [H1 [H2 H3]].
    assert (Hm1 : m1 <= m0 /\ m1 <= radius_of pt - h /\
                  (m1 = m0 \/ m1 = radius_of pt - h)).
    { unfold m1. destruct (Rltb_spec (radius_of pt - h) m0); repeat split;
        try lra; auto. }
    destruct Hm1 as [Ha [Hb Hc]].
    split; [lra|]. split.
    + constructor; [lra|exact H2].
    + destruct H3 as [H3|H3].
      * destruct Hc as [Hc|Hc]; [left; congruence|].
        right. apply Exists_cons_hd. congruence.
      * right. now apply Exists_cons_tl.
Qed.

Lemma calculateMinWallThickness_spec (pts : list Point) (h : R) :
  calculateMinWallThickness pts h <= MAX_VALUE /\
  Forall (fun pt => calculateMinWallThickness pts h <= radius_of pt - h) pts /\
  (calculateMinWallThickness pts h = MAX_VALUE \/
   Exists (fun pt => calculateMinWallThickness pts h = radius_of pt - h) pts).
Proof. exact (min_wall_fold pts h MAX_VALUE). Qed.

(** X3. [calculateMinWallThickness] never exceeds Number.MAX_VALUE nor the
    wall (distance from the centre minus holeRadius) of any point; it is
    either Number.MAX_VALUE, as for an empty point list, or the wall of one
    of the points. *)
Theorem X3_min_wall (pts : list Point) (holeRadius : R) :
  let w := calculateMinWallThickness pts holeRadius in
  w <= MAX_VALUE /\
  Forall (fun pt => w <= sqrt (x pt * x pt + y pt * y pt) - holeRadius) pts /\
  (w = MAX_VALUE \/
   Exists (fun pt => w = sqrt (x pt * x pt + y pt * y pt) - holeRadius) pts) /\
  calculateMinWallThickness [] holeRadius = MAX_VALUE.
Proof.
  cbv zeta.
  destruct (calculateMinWallThickness_spec pts holeRadius) as [H1 [H2 H3]].
  split; [exact H1|]. split; [exact H2|]. split; [exact H3|reflexivity].
Qed.

(** ** How far the profile lies from the centre *)

Lemma norm_triangle (a b c d : R) :
  sqrt ((a + c) * (a + c) + (b + d) * (b + d))
  <= sqrt (a * a + b * b) + sqrt (c * c + d * d).
Proof.
  pose proof (triangle (a + c) (b + d) 0 0 c d) as H.
  unfold dist_euc, Rsqr in H.
  replace ((a + c - 0) * (a + c - 0) + (b + d - 0) * (b + d - 0))
    with ((a + c) * (a + c) + (b + d) * (b + d)) in H by ring.
  replace ((a + c - c) * (a + c - c) + (b + d - d) * (b + d - d))
    with (a * a + b * b) in H by ring.
  replace ((c - 0) * (c - 0) + (d - 0) * (d - 0))
    with (c * c + d * d) in H by ring.
  exact H.
Qed.

Lemma norm_scaled_unit (k u v : R) :
  u * u + v * v = 1 -> sqrt (k * u * (k * u) + k * v * (k * v)) = Rabs k.
Proof.
  intros H.
  replace (k * u * (k * u) + k * v * (k * v)) with (k * k * (u * u + v * v))
    by ring.
  rewrite H, Rmult_1_r. change (k * k) with (Rsqr k). apply sqrt_Rsqr_abs.
Qed.

(** The pin-centre locus stays between the circles |R| - |E| and |R| + |E|. *)
Lemma locus_radius_bounds (N R0 E t : R) :
  let s := sqrt (locus_x N R0 E t * locus_x N R0 E t
                 + locus_y N R0 E t * locus_y N R0 E t) in
  Rabs R0 - Rabs E <= s <= Rabs R0 + Rabs E.
Proof.
  cbv zeta. unfold locus_x, locus_y.
  pose proof (sin2_cos2 t) as H1. pose proof (sin2_cos2 (N * t)) as H2.
  unfold Rsqr in H1, H2.
  assert (Hc1 : cos t * cos t + sin t * sin t = 1) by lra.
  assert (Hc2 : cos (N * t) * cos (N * t) + sin (N * t) * sin (N * t) = 1)
    by lra.
  pose proof (norm_scaled_unit R0 _ _ Hc1) as HR.
  pose proof (norm_scaled_unit E _ _ Hc2) as HE.
  pose proof (norm_scaled_unit (- E) _ _ Hc2) as HE'.
  rewrite Rabs_Ropp in HE'.
  split.
  - pose proof (norm_triangle (R0 * cos t - E * cos (N * t))
                  (R0 * sin t - E * sin (N * t))
                  (E * cos (N * t)) (E * sin (N * t))) as H.
    replace (R0 * cos t - E * cos (N * t) + E * cos (N * t))
      with (R0 * cos t) in H by ring.
    replace (R0 * sin t - E * sin (N * t) + E * sin (N * t))
      with (R0 * sin t) in H by ring.
    rewrite HR, HE in H. lra.
  - pose proof (norm_triangle (R0 * cos t) (R0 * sin t)
                  (- E * cos (N * t)) (- E * sin (N * t))) as H.
    replace (R0 * cos t + - E * cos (N * t))
      with (R0 * cos t - E * cos (N * t)) in H by ring.
    replace (R0 * sin t + - E * sin (N * t))
      with (R0 * sin t - E * sin (N * t)) in H by ring.
    rewrite HR, HE' in H. lra.
Qed.

Lemma offset_point_radius_bounds (p : CycloParams) (r t : R) :
  ~ degenerate p t ->
  Rabs (pinCircleRadius p) - Rabs (eccentricity p) - Rabs r
  <= radius_of (offset_point p r t)
  <= Rabs (pinCircleRadius p) + Rabs (eccentricity p) + Rabs r.
Proof.
  intros Hd. unfold radius_of, offset_point. simpl.
  pose proof (normal_unit p t Hd) as Hu.
  assert (Hu' : normal_x p t * normal_x p t + normal_y p t * normal_y p t = 1)
    by (rewrite <- Hu; ring).
  pose proof (norm_scaled_unit r _ _ Hu') as Hr.
  pose proof (norm_scaled_unit (- r) _ _ Hu') as Hr'.
  rewrite Rabs_Ropp in Hr'.
  pose proof (locus_radius_bounds (pinCount p) (pinCircleRadius p)
                (eccentricity p) t) as [Hl Hupper].
  set (sx := locus_x _ _ _ t) in *. set (sy := locus_y _ _ _ t) in *.
  set (n1 := normal_x p t) in *. set (n2 := normal_y p t) in *.
  split.
  - pose proof (norm_triangle (sx + r * n1) (sy + r * n2)
                  (- r * n1) (- r * n2)) as H.
    replace (sx + r * n1 + - r * n1) with sx in H by ring.
    replace (sy + r * n2 + - r * n2) with sy in H by ring.
    rewrite Hr' in H. lra.
  - pose proof (norm_triangle sx sy (r * n1) (r * n2)) as H.
    rewrite Hr in H. lra.
Qed.

Lemma profile_radius_bounds (p : CycloParams) (ov : option R) :
  Forall (fun pt =>
            Rabs (pinCircleRadius p) - Rabs (eccentricity p)
            - Rabs (effective_offset p ov)
            <= radius_of pt
            <= Rabs (pinCircleRadius p) + Rabs (eccentricity p)
               + Rabs (effective_offset p ov))
    (generateCycloidProfile p ov).
Proof.
  rewrite generateCycloidProfile_filter. apply Forall_forall. intros pt Hin.
  apply in_map_iff in Hin. destruct Hin as [i [<- Hi]].
  apply filter_In in Hi. destruct Hi as [_ Hi].
  apply negb_true_iff, degenerateb_false in Hi.
  now apply offset_point_radius_bounds.
Qed.

(** X4. Every point of the profile lies between the circles of radius
    |R| - |E| - |pinRadius + tolerance| and |R| + |E| + |pinRadius + tolerance|
    about the centre, tolerance being the effective one. *)
Theorem X4_profile_annulus (p : CycloParams) (overrideTolerance : option R) :
  let r := pinRadius p + match overrideTolerance with
                         | Some o => o
                         | None => tolerance p
                         end in
  Forall (fun pt =>
            Rabs (pinCircleRadius p) - Rabs (eccentricity p) - Rabs r
            <= sqrt (x pt * x pt + y pt * y pt)
            <= Rabs (pinCircleRadius p) + Rabs (eccentricity p) + Rabs r)
    (generateCycloidProfile p overrideTolerance).
Proof. exact (profile_radius_bounds p overrideTolerance). Qed.

(** X5. The wall thickness handed to the analysis, the minimum over the
    toleranced profile, is at least
    |R| - |E| - |pinRadius + tolerance| - holeRadius, or Number.MAX_VALUE when
    that is smaller. *)
Theorem X5_analysis_wall (p : CycloParams) :
  Rmin MAX_VALUE
    (Rabs (pinCircleRadius p) - Rabs (eccentricity p)
     - Rabs (pinRadius p + tolerance p) - holeRadius p)
  <= analysisMinWall p.
Proof.
  unfold analysisMinWall.
  destruct (calculateMinWallThickness_spec (generateCycloidProfile p None)
              (holeRadius p)) as [_ [_ [Hmax|Hex]]].
  - rewrite Hmax. apply Rmin_l.
  - apply Exists_exists in Hex. destruct Hex as [pt [Hin Heq]].
    rewrite Heq. eapply Rle_trans; [apply Rmin_r|].
    pose proof (profile_radius_bounds p None) as Hb.
    rewrite Forall_forall in Hb. destruct (Hb pt Hin) as [Hl _].
    unfold effective_offset in Hl. lra.
Qed.

(** ** The two samplers agree *)

(** X6. The base of the power in the curvature formula is the squared
    tangent length at the same parameter, so rho = |tangent|^3 / denominator:
    at every parameter t the loop's surfaceCurvature is
    |tangent|^3 / denominator - pinRadius, and it is non-finite exactly when
    the denominator is zero. *)
Theorem X6_curvature_from_tangent (N R0 E r t : R) :
  let len := tangent_len N R0 E t in
  let den := R0 * R0 + E * E * N * N * N
             - R0 * E * N * (N + 1) * cos ((N - 1) * t) in
  surfaceCurvature N R0 E r t = num_minus (js_div (len ^ 3) den) r /\
  (surfaceCurvature N R0 E r t = NonFinite <-> den = 0).
Proof.
  cbv zeta.
  assert (Hc : surfaceCurvature N R0 E r t
               = num_minus
                   (js_div (tangent_len N R0 E t ^ 3)
                      (R0 * R0 + E * E * N * N * N
                       - R0 * E * N * (N + 1) * cos ((N - 1) * t)))
                   r).
  { unfold surfaceCurvature, rho. do 2 f_equal.
    unfold pow15. rewrite <- tangent_len_sq.
    rewrite sqrt_square by apply tangent_len_nonneg. ring. }
  split; [exact Hc|].
  rewrite Hc. unfold js_div.
  destruct (Req_dec_T _ 0) as [H0|H0]; simpl; split; intros H;
    try assumption; try reflexivity; try discriminate; contradiction.
Qed.

(** X7. For a resolution of at least 1, the points returned by
    [calculatePhysicsMetrics] are, in position and normal, the zero-tolerance
    profile of [generateCycloidProfile]: the two functions keep the same
    samples and compute the same geometry. *)
Theorem X7_physics_points_are_profile (p : CycloParams) :
  (1 <= resolution p)%nat ->
  map geometry_of (points (calculatePhysicsMetrics p))
  = generateCycloidProfile p (Some 0) /\
  List.length (points (calculatePhysicsMetrics p))
  = List.length (generateCycloidProfile p (Some 0)).
Proof.
  intros _.
  assert (H : map geometry_of (points (calculatePhysicsMetrics p))
              = generateCycloidProfile p (Some 0)).
  { rewrite calculatePhysicsMetrics_spec, generateCycloidProfile_filter.
    cbn [points]. rewrite map_map. apply map_ext. intros i.
    unfold geometry_of, physics_point, effective_offset. cbn.
    unfold offset_point. now rewrite Rplus_0_r. }
  split; [exact H|]. rewrite <- H. now rewrite length_map.
Qed.

Lemma X7_physics_points_are_profile_witness :
  (1 <= resolution DEFAULT_PARAMS)%nat /\
  List.length (points (calculatePhysicsMetrics DEFAULT_PARAMS))
  = List.length (generateCycloidProfile DEFAULT_PARAMS (Some 0)).
Proof.
  assert (H : (1 <= resolution DEFAULT_PARAMS)%nat) by (simpl; lia).
  split; [exact H|].
  exact (proj2 (X7_physics_points_are_profile DEFAULT_PARAMS H)).
Defined.

(** ** The range of the pressure angle *)

Lemma atan_bounds_nonneg (u : R) : 0 <= u -> 0 <= atan u < PI / 2.
Proof.
  intros Hu. pose proof (atan_bound u) as [_ H2]. split; [|exact H2].
  rewrite <- atan_0. now apply atan_le.
Qed.

Lemma atan2_quadrant (y0 x0 : R) :
  0 <= y0 -> 0 <= x0 -> 0 <= atan2 y0 x0 <= PI / 2.
Proof.
  intros Hy Hx. unfold atan2. pose proof PI_RGT_0 as Hpi.
  destruct (Rltb_spec 0 x0) as [Hpos|Hz].
  - assert (Hq : 0 <= y0 / x0).
    { apply Rmult_le_pos; [exact Hy|]. left. now apply Rinv_0_lt_compat. }
    pose proof (atan_bounds_nonneg _ Hq). lra.
  - destruct (Rltb_spec x0 0) as [Hneg|_]; [lra|].
    destruct (Rltb_spec 0 y0); [lra|].
    destruct (Rltb_spec y0 0); lra.
Qed.

Lemma pressureDeg_range (N R0 E t : R) : 0 <= pressureDeg N R0 E t <= 90.
Proof.
  unfold pressureDeg. pose proof PI_RGT_0 as Hpi.
  pose proof (atan2_quadrant _ _ (Rabs_pos (E * N / R0 * sin (N * t)))
                (Rabs_pos (1 - E * N / R0 * cos (N * t)))) as [H1 H2].
  set (a := atan2 _ _) in *.
  assert (Hk : 0 < 180 / PI) by (apply Rdiv_lt_0_compat; lra).
  split.
  - apply Rmult_le_pos; lra.
  - replace 90 with (PI / 2 * (180 / PI)) by (field; lra).
    apply Rmult_le_compat_r; lra.
Qed.

Lemma max_update_fold_bound (l : list R) (a b : R) :
  a <= b -> Forall (fun d => d <= b) l -> fold_left max_update l a <= b.
Proof.
  intros Ha Hl. revert a Ha. induction Hl as [|d l Hd _ IH]; intros a Ha; simpl.
  - exact Ha.
  - apply IH. unfold max_update, Rgtb. destruct (Rltb_spec a d); lra.
Qed.

Lemma max_update_fold_lt (l : list R) (a b : R) :
  a < b -> Forall (fun d => d < b) l -> fold_left max_update l a < b.
Proof.
  intros Ha Hl. revert a Ha. induction Hl as [|d l Hd _ IH]; intros a Ha; simpl.
  - exact Ha.
  - apply IH. unfold max_update, Rgtb. destruct (Rltb_spec a d); lra.
Qed.

(** X8. For a resolution of at least 1 and a non-zero pinCircleRadius, the
    maxPressureAngle of [calculatePhysicsMetrics] lies between 0 and 90
    degrees, and so does the pressureAngle of every returned point. *)
Theorem X8_pressure_range (p : CycloParams) :
  (1 <= resolution p)%nat -> pinCircleRadius p <> 0 ->
  0 <= maxPressureAngle (calculatePhysicsMetrics p) <= 90 /\
  Forall (fun pt => exists d, pressureAngle pt = Some d /\ 0 <= d <= 90)
    (points (calculatePhysicsMetrics p)).
Proof.
  intros _ _.
  rewrite calculatePhysicsMetrics_spec. cbn [maxPressureAngle points].
  split; [split|].
  - apply max_update_fold_ge_init.
  - apply max_update_fold_bound; [lra|].
    apply Forall_forall. intros d Hd. apply in_map_iff in Hd.
    destruct Hd as [i [<- _]]. apply pressureDeg_range.
  - apply Forall_forall. intros pt Hpt. apply in_map_iff in Hpt.
    destruct Hpt as [i [<- _]]. exists (pressure_at p i).
    split; [reflexivity|apply pressureDeg_range].
Qed.

Lemma X8_pressure_range_witness :
  (1 <= resolution DEFAULT_PARAMS)%nat /\ pinCircleRadius DEFAULT_PARAMS <> 0 /\
  0 <= maxPressureAngle (calculatePhysicsMetrics DEFAULT_PARAMS) <= 90.
Proof.
  assert (H1 : (1 <= resolution DEFAULT_PARAMS)%nat) by (simpl; lia).
  assert (H2 : pinCircleRadius DEFAULT_PARAMS <> 0) by (simpl; lra).
  split; [exact H1|]. split; [exact H2|].
  exact (proj1 (X8_pressure_range DEFAULT_PARAMS H1 H2)).
Defined.

(** Below K = 1/sqrt 2 the pressure angle of a sample stays under 45 degrees. *)
Lemma pressureDeg_below_45 (N R0 E t : R) :
  0 <= E * N / R0 -> (E * N / R0) * (E * N / R0) < / 2 ->
  pressureDeg N R0 E t < 45.
Proof.
  intros HK0 HK2. unfold pressureDeg.
  set (K := E * N / R0) in *.
  pose proof (COS_bound (N * t)) as [Hc1 Hc2].
  pose proof (sin2_cos2 (N * t)) as Hsc. unfold Rsqr in Hsc.
  set (c := cos (N * t)) in *. set (s := sin (N * t)) in *.
  pose proof PI_RGT_0 as Hpi.
  assert (HK1 : K < 1) by nra.
  assert (Hden : 0 < 1 - K * c) by nra.
  rewrite (Rabs_pos_eq (1 - K * c)) by lra.
  rewrite atan2_pos_den by exact Hden.
  assert (Hsq : Rabs (K * s) * Rabs (K * s) < (1 - K * c) * (1 - K * c)).
  { rewrite <- Rabs_mult, Rabs_pos_eq by apply Rle_0_sqr.
    replace ((1 - K * c) * (1 - K * c))
      with (K * s * (K * s)
            + (2 * ((K * c - / 2) * (K * c - / 2)) + (/ 2 - K * K)
               + K * K * (1 - (s * s + c * c)))) by field.
    rewrite Hsc.
    pose proof (Rle_0_sqr (K * c - / 2)) as Hq. unfold Rsqr in Hq. lra. }
  assert (Hlt : Rabs (K * s) < 1 - K * c).
  { pose proof (Rabs_pos (K * s)). nra. }
  assert (Hratio : Rabs (K * s) / (1 - K * c) < 1).
  { apply (Rmult_lt_reg_r (1 - K * c)); [exact Hden|].
    unfold Rdiv. rewrite Rmult_assoc, Rinv_l by lra. lra. }
  apply atan_increasing in Hratio. rewrite atan_1 in Hratio.
  replace 45 with (PI / 4 * (180 / PI)) by (field; lra).
  apply Rmult_lt_compat_r; [|exact Hratio].
  apply Rdiv_lt_0_compat; lra.
Qed.

(** X9. When the eccentricity rule of the advisor is silent
    (E <= R / (1.5 N)) on a design with N > 0, R > 0 and E >= 0, every
    sample has a pressure angle below 45 degrees: maxPressureAngle < 45 and
    the gauge of the control panel reads 'Good Efficiency'. *)
Theorem X9_silent_rule_good_efficiency (p : CycloParams) :
  0 < pinCount p -> 0 < pinCircleRadius p -> 0 <= eccentricity p ->
  eccentricity_trigger p = false ->
  maxPressureAngle (calculatePhysicsMetrics p) < 45 /\
  efficiencyCaption p = "Good Efficiency"%string.
Proof.
  intros HN HR HE Htrig.
  apply Rltb_false in Htrig.
  set (K := eccentricity p * pinCount p / pinCircleRadius p).
  assert (HK0 : 0 <= K).
  { unfold K. apply Rmult_le_pos; [apply Rmult_le_pos; lra|].
    left. now apply Rinv_0_lt_compat. }
  assert (HK : K <= 2 / 3).
  { unfold K.
    apply (Rmult_le_reg_r (pinCircleRadius p)); [exact HR|].
    unfold Rdiv at 1. rewrite Rmult_assoc, Rinv_l by lra.
    assert (Hm : eccentricity p * (1.5 * pinCount p) <= pinCircleRadius p).
    { apply (Rmult_le_compat_r (1.5 * pinCount p)) in Htrig; [|lra].
      unfold Rdiv in Htrig. rewrite Rmult_assoc, Rinv_l in Htrig by lra.
      lra. }
    lra. }
  assert (Hmax : maxPressureAngle (calculatePhysicsMetrics p) < 45).
  { rewrite calculatePhysicsMetrics_spec. cbn [maxPressureAngle].
    apply max_update_fold_lt; [lra|].
    apply Forall_forall. intros d Hd. apply in_map_iff in Hd.
    destruct Hd as [i [<- _]]. unfold pressure_at.
    apply pressureDeg_below_45; fold K; [exact HK0|nra]. }
  split; [exact Hmax|].
  unfold efficiencyCaption, Rgtb.
  destruct (Rltb_spec 45 (maxPressureAngle (calculatePhysicsMetrics p)));
    [lra|reflexivity].
Qed.

Lemma X9_silent_rule_good_efficiency_witness :
  0 < pinCount DEFAULT_PARAMS /\ 0 < pinCircleRadius DEFAULT_PARAMS /\
  0 <= eccentricity DEFAULT_PARAMS /\
  eccentricity_trigger DEFAULT_PARAMS = false /\
  efficiencyCaption DEFAULT_PARAMS = "Good Efficiency"%string.
Proof.
  assert (H1 : 0 < pinCount DEFAULT_PARAMS) by (simpl; lra).
  assert (H2 : 0 < pinCircleRadius DEFAULT_PARAMS) by (simpl; lra).
  assert (H3 : 0 <= eccentricity DEFAULT_PARAMS) by (simpl; lra).
  assert (H4 : eccentricity_trigger DEFAULT_PARAMS = false)
    by (apply Rltb_false; simpl; lra).
  repeat split; try assumption.
  exact (proj2 (X9_silent_rule_good_efficiency DEFAULT_PARAMS H1 H2 H3 H4)).
Defined.

(** ** Which samples are kept *)

Lemma tangent_len_lower_abs (N R0 E t : R) :
  0 <= R0 * E * N -> Rabs (R0 - E * N) <= tangent_len N R0 E t.
Proof.
  intros Hs.
  rewrite <- (sqrt_Rsqr_abs (R0 - E * N)).
  rewrite <- (sqrt_square (tangent_len N R0 E t)) by apply tangent_len_nonneg.
  apply sqrt_le_1_alt. rewrite tangent_len_sq. unfold Rsqr.
  pose proof (COS_bound ((N - 1) * t)) as [_ Hc].
  assert (R0 * E * N * cos ((N - 1) * t) <= R0 * E * N) by nra.
  lra.
Qed.

Lemma filter_length_all {A : Type} (f : A -> bool) (l : list A) :
  List.length (filter f l) = List.length l <-> forall a, In a l -> f a = true.
Proof.
  induction l as [|b l IH]; simpl.
  - split; [intros _ a []|reflexivity].
  - pose proof (filter_length_le f l) as Hle.
    destruct (f b) eqn:Hb; simpl.
    + split.
      * intros Hlen a [<-|Ha]; [exact Hb|]. apply IH; [lia|exact Ha].
      * intros Hall. f_equal. apply IH. intros a Ha. apply Hall. now right.
    + split; [lia|]. intros Hall. specialize (Hall b (or_introl eq_refl)).
      congruence.
Qed.

Lemma emitted_all_iff (p : CycloParams) :
  0 <= pinCircleRadius p * eccentricity p * pinCount p ->
  (List.length (emitted_indices p) = S (resolution p)
   <-> eps <= Rabs (pinCircleRadius p - eccentricity p * pinCount p)).
Proof.
  intros Hs. unfold emitted_indices.
  replace (S (resolution p)) with (List.length (sample_indices p))
    by (unfold sample_indices; apply length_seq).
  rewrite filter_length_all. split.
  - intros Hall.
    assert (H0 : In 0%nat (sample_indices p))
      by (unfold sample_indices; simpl; now left).
    apply Hall, negb_true_iff, degenerateb_false in H0.
    unfold degenerate in H0. rewrite sample_t_0, tangent_len_0 in H0. lra.
  - intros He i _. apply negb_true_iff, degenerateb_false. unfold degenerate.
    pose proof (tangent_len_lower_abs (pinCount p) (pinCircleRadius p)
                  (eccentricity p) (sample_t (resolution p) i) Hs). lra.
Qed.

(** X10. When R * E * N >= 0 the shortest tangent of the whole curve is the
    one at t = 0, of length |R - E N|: for a resolution of at least 1, both
    samplers keep all resolution + 1 samples exactly when |R - E N| >= 1e-6. *)
Theorem X10_all_samples_kept (p : CycloParams) (ov : option R) :
  (1 <= resolution p)%nat ->
  0 <= pinCircleRadius p * eccentricity p * pinCount p ->
  (forall t : R,
     Rabs (pinCircleRadius p - eccentricity p * pinCount p)
     <= tangent_len (pinCount p) (pinCircleRadius p) (eccentricity p) t) /\
  tangent_len (pinCount p) (pinCircleRadius p) (eccentricity p) 0
  = Rabs (pinCircleRadius p - eccentricity p * pinCount p) /\
  (List.length (generateCycloidProfile p ov) = (resolution p + 1)%nat
   <-> eps <= Rabs (pinCircleRadius p - eccentricity p * pinCount p)) /\
  (List.length (points (calculatePhysicsMetrics p)) = (resolution p + 1)%nat
   <-> eps <= Rabs (pinCircleRadius p - eccentricity p * pinCount p)).
Proof.
  intros _ Hs.
  split; [intros t; now apply tangent_len_lower_abs|].
  split; [apply tangent_len_0|].
  rewrite generateCycloidProfile_filter, calculatePhysicsMetrics_spec.
  cbn [points]. rewrite !length_map. fold (emitted_indices p).
  replace (resolution p + 1)%nat with (S (resolution p)) by lia.
  split; now apply emitted_all_iff.
Qed.

Lemma X10_all_samples_kept_witness :
  (1 <= resolution DEFAULT_PARAMS)%nat /\
  0 <= pinCircleRadius DEFAULT_PARAMS * eccentricity DEFAULT_PARAMS
       * pinCount DEFAULT_PARAMS /\
  List.length (generateCycloidProfile DEFAULT_PARAMS None) = 721%nat.
Proof.
  assert (H1 : (1 <= resolution DEFAULT_PARAMS)%nat) by (simpl; lia).
  assert (H : 0 <= pinCircleRadius DEFAULT_PARAMS * eccentricity DEFAULT_PARAMS
                   * pinCount DEFAULT_PARAMS) by (simpl; lra).
  split; [exact H1|]. split; [exact H|].
  apply (proj1 (proj2 (proj2 (X10_all_samples_kept DEFAULT_PARAMS None H1 H)))).
  simpl. unfold eps. rewrite Rabs_pos_eq; lra.
Defined.

(** ** The curve closes and repeats *)

Lemma sample_t_last (res : nat) : (1 <= res)%nat -> sample_t res res = 2 * PI.
Proof.
  intros Hr. unfold sample_t.
  assert (0 < INR res) by (apply lt_0_INR; lia). field. lra.
Qed.

(** With a whole number of pins the samples at t = 0 and t = 2 pi agree. *)
Lemma full_turn (p : CycloParams) (n : nat) (r : R) :
  pinCount p = INR n ->
  tangent_len (pinCount p) (pinCircleRadius p) (eccentricity p) (2 * PI)
  = tangent_len (pinCount p) (pinCircleRadius p) (eccentricity p) 0 /\
  offset_point p r (2 * PI) = offset_point p r 0.
Proof.
  intros HN.
  assert (Hc : cos (pinCount p * (2 * PI)) = cos (pinCount p * 0)).
  { rewrite HN. replace (INR n * (2 * PI)) with (INR n * 0 + 2 * INR n * PI)
      by ring. apply cos_period. }
  assert (Hs : sin (pinCount p * (2 * PI)) = sin (pinCount p * 0)).
  { rewrite HN. replace (INR n * (2 * PI)) with (INR n * 0 + 2 * INR n * PI)
      by ring. apply sin_period. }
  assert (Hdx : dxdt (pinCount p) (pinCircleRadius p) (eccentricity p) (2 * PI)
                = dxdt (pinCount p) (pinCircleRadius p) (eccentricity p) 0).
  { unfold dxdt. now rewrite Hs, sin_2PI, sin_0. }
  assert (Hdy : dydt (pinCount p) (pinCircleRadius p) (eccentricity p) (2 * PI)
                = dydt (pinCount p) (pinCircleRadius p) (eccentricity p) 0).
  { unfold dydt. now rewrite Hc, cos_2PI, cos_0. }
  assert (Hlen : tangent_len (pinCount p) (pinCircleRadius p) (eccentricity p)
                   (2 * PI)
                 = tangent_len (pinCount p) (pinCircleRadius p)
                     (eccentricity p) 0).
  { unfold tangent_len. now rewrite Hdx, Hdy. }
  split; [exact Hlen|].
  unfold offset_point, normal_x, normal_y, locus_x, locus_y.
  now rewrite Hlen, Hdx, Hdy, Hc, Hs, cos_2PI, sin_2PI, cos_0, sin_0.
Qed.

(** X11. With a whole number of pins, a resolution of at least 1 and
    |R - E N| >= 1e-6, the profile is a closed loop with a repeated end
    point: its last point is its first point, the sample at t = 0, and it
    has at least two points. *)
Theorem X11_profile_closes (p : CycloParams) (ov : option R) (n : nat)
    (d : Point) :
  pinCount p = INR n -> (1 <= resolution p)%nat ->
  eps <= Rabs (pinCircleRadius p - eccentricity p * pinCount p) ->
  let first := offset_point p (effective_offset p ov) 0 in
  hd_error (generateCycloidProfile p ov) = Some first /\
  last (generateCycloidProfile p ov) d = first /\
  (2 <= List.length (generateCycloidProfile p ov))%nat.
Proof.
  intros HN Hres He. cbv zeta.
  rewrite generateCycloidProfile_filter. unfold sample_indices.
  assert (H0 : negb (degenerateb p 0) = true).
  { apply negb_true_iff, degenerateb_false. unfold degenerate.
    rewrite sample_t_0, tangent_len_0. lra. }
  assert (Hlast : negb (degenerateb p (resolution p)) = true).
  { apply negb_true_iff, degenerateb_false. unfold degenerate.
    rewrite sample_t_last by exact Hres.
    rewrite (proj1 (full_turn p n 0 HN)), tangent_len_0. lra. }
  split; [|split].
  - simpl. rewrite H0. simpl. now rewrite sample_t_0.
  - rewrite seq_S, filter_app, map_app. simpl. rewrite Hlast. simpl.
    rewrite last_last, sample_t_last by exact Hres.
    apply (full_turn p n _ HN).
  - rewrite seq_S, filter_app, map_app, length_app. simpl. rewrite Hlast.
    simpl. rewrite length_map.
    destruct (resolution p) as [|r']; [lia|]. simpl. rewrite H0. simpl. lia.
Qed.

Lemma X11_profile_closes_witness :
  pinCount DEFAULT_PARAMS = INR 12 /\ (1 <= resolution DEFAULT_PARAMS)%nat /\
  eps <= Rabs (pinCircleRadius DEFAULT_PARAMS
               - eccentricity DEFAULT_PARAMS * pinCount DEFAULT_PARAMS) /\
  last (generateCycloidProfile DEFAULT_PARAMS None)
       (circle_point 0 0)
  = offset_point DEFAULT_PARAMS (effective_offset DEFAULT_PARAMS None) 0.
Proof.
  assert (H1 : pinCount DEFAULT_PARAMS = INR 12) by (simpl; lra).
  assert (H2 : (1 <= resolution DEFAULT_PARAMS)%nat) by (simpl; lia).
  assert (H3 : eps <= Rabs (pinCircleRadius DEFAULT_PARAMS
               - eccentricity DEFAULT_PARAMS * pinCount DEFAULT_PARAMS)).
  { simpl. unfold eps. rewrite Rabs_pos_eq; lra. }
  repeat split; try assumption.
  exact (proj1 (proj2 (X11_profile_closes DEFAULT_PARAMS None 12
                         (circle_point 0 0) H1 H2 H3))).
Defined.

(** Advancing t by 2 pi / (N - 1) turns the locus and its tangent by that
    angle: the curve has N - 1 identical lobes. *)
Lemma lobe_turn (N R0 E t : R) :
  N <> 1 ->
  let a := 2 * PI / (N - 1) in
  locus_x N R0 E (t + a)
  = cos a * locus_x N R0 E t - sin a * locus_y N R0 E t /\
  locus_y N R0 E (t + a)
  = sin a * locus_x N R0 E t + cos a * locus_y N R0 E t /\
  dxdt N R0 E (t + a) = cos a * dxdt N R0 E t - sin a * dydt N R0 E t /\
  dydt N R0 E (t + a) = sin a * dxdt N R0 E t + cos a * dydt N R0 E t.
Proof.
  intros HN. cbv zeta. set (a := 2 * PI / (N - 1)).
  assert (HNa : N * (t + a) = N * t + a + 2 * INR 1 * PI).
  { unfold a. simpl. field. lra. }
  unfold locus_x, locus_y, dxdt, dydt.
  rewrite HNa, cos_period, sin_period, !cos_plus, !sin_plus.
  repeat split; ring.
Qed.

Lemma lobe_turn_len (N R0 E t : R) :
  N <> 1 ->
  tangent_len N R0 E (t + 2 * PI / (N - 1)) = tangent_len N R0 E t.
Proof.
  intros HN. destruct (lobe_turn N R0 E t HN) as [_ [_ [Hdx Hdy]]].
  unfold tangent_len. rewrite Hdx, Hdy. f_equal.
  pose proof (sin2_cos2 (2 * PI / (N - 1))) as H. unfold Rsqr in H.
  set (c := cos _) in *. set (s := sin _) in *.
  set (u := dxdt N R0 E t). set (v := dydt N R0 E t).
  replace ((c * u - s * v) * (c * u - s * v) + (s * u + c * v) * (s * u + c * v))
    with ((s * s + c * c) * (u * u + v * v)) by ring.
  rewrite H. ring.
Qed.

Lemma lobe_turn_sample (p : CycloParams) (r t : R) :
  pinCount p <> 1 ->
  profile_sample (pinCount p) (pinCircleRadius p) r (eccentricity p)
    (t + 2 * PI / (pinCount p - 1))
  = option_map (rotate (2 * PI / (pinCount p - 1)))
      (profile_sample (pinCount p) (pinCircleRadius p) r (eccentricity p) t).
Proof.
  intros HN. rewrite !profile_sample_spec, lobe_turn_len by exact HN.
  destruct (Rltb _ eps); [reflexivity|]. simpl. f_equal.
  destruct (lobe_turn (pinCount p) (pinCircleRadius p) (eccentricity p) t HN)
    as [Hx [Hy [Hdx Hdy]]].
  unfold offset_point, rotate, normal_x, normal_y. simpl.
  rewrite lobe_turn_len, Hx, Hy, Hdx, Hdy by exact HN.
  set (len := tangent_len _ _ _ t). unfold Rdiv.
  f_equal; try (f_equal; ring); ring.
Qed.

(** X12. The sampled curve has N - 1 identical lobes.  For a whole number
    n >= 2 of pins, the sample taken 2 pi / (n - 1) later is the same sample
    turned by that angle about the centre, kept or dropped alike; on a grid
    of resolution k (n - 1) this is the sample k places further. *)
Theorem X12_lobe_symmetry (p : CycloParams) (n k : nat) (r : R) :
  pinCount p = INR n -> (2 <= n)%nat -> (1 <= k)%nat ->
  resolution p = (k * (n - 1))%nat ->
  let a := 2 * PI / (INR n - 1) in
  (forall t : R,
     profile_sample (pinCount p) (pinCircleRadius p) r (eccentricity p) (t + a)
     = option_map (rotate a)
         (profile_sample (pinCount p) (pinCircleRadius p) r (eccentricity p) t))
  /\
  (forall i : nat,
     profile_sample (pinCount p) (pinCircleRadius p) r (eccentricity p)
       (sample_t (resolution p) (i + k))
     = option_map (rotate a)
         (profile_sample (pinCount p) (pinCircleRadius p) r (eccentricity p)
            (sample_t (resolution p) i))).
Proof.
  intros HN Hn Hk Hres. cbv zeta.
  assert (Hn2 : 2 <= INR n) by (change 2 with (INR 2); apply le_INR; lia).
  assert (Hk1 : 1 <= INR k) by (change 1 with (INR 1); apply le_INR; lia).
  assert (HN1 : pinCount p <> 1) by (rewrite HN; lra).
  assert (Hcont : forall t : R,
     profile_sample (pinCount p) (pinCircleRadius p) r (eccentricity p)
       (t + 2 * PI / (INR n - 1))
     = option_map (rotate (2 * PI / (INR n - 1)))
         (profile_sample (pinCount p) (pinCircleRadius p) r (eccentricity p) t)).
  { intros t. rewrite <- HN. now apply lobe_turn_sample. }
  split; [exact Hcont|].
  intros i. rewrite <- Hcont. f_equal.
  unfold sample_t. rewrite Hres, mult_INR, plus_INR, minus_INR by lia.
  simpl. field. lra.
Qed.

Lemma X12_lobe_symmetry_witness :
  pinCount coarse_params = INR 12 /\ (2 <= 12)%nat /\ (1 <= 2)%nat /\
  resolution coarse_params = (2 * (12 - 1))%nat /\
  profile_sample (pinCount coarse_params) (pinCircleRadius coarse_params) 5
    (eccentricity coarse_params) (sample_t (resolution coarse_params) (0 + 2))
  = option_map (rotate (2 * PI / (INR 12 - 1)))
      (profile_sample (pinCount coarse_params) (pinCircleRadius coarse_params)
         5 (eccentricity coarse_params)
         (sample_t (resolution coarse_params) 0)).
Proof.
  assert (H1 : pinCount coarse_params = INR 12) by (simpl; lra).
  assert (H2 : (2 <= 12)%nat) by lia.
  assert (H3 : (1 <= 2)%nat) by lia.
  assert (H4 : resolution coarse_params = (2 * (12 - 1))%nat) by reflexivity.
  repeat split; try assumption.
  exact (proj2 (X12_lobe_symmetry coarse_params 12 2 5 H1 H2 H3 H4) 0%nat).
Defined.

(** ** What the fixes of the advisor achieve *)

Section FixEffects.
Variable toString : R -> string.

(** Each warning text is pushed by its own rule only. *)
Lemma pin_warning_iff (p : CycloParams) :
  In "Pins are too large for spacing."%string (pushed_warnings toString p)
  <-> pin_trigger p = true.
Proof.
  unfold pushed_warnings, eccentricity_warning.
  destruct (eccentricity_trigger p), (pin_trigger p), (wall_trigger p);
    cbn [app In append]; split; intros H; try reflexivity; try discriminate;
    try (now left); try (now right; left);
    repeat (destruct H as [H|H]; try discriminate H); try contradiction.
Qed.

Lemma wall_warning_iff (p : CycloParams) :
  In "Wall thickness is critically low."%string (pushed_warnings toString p)
  <-> wall_trigger p = true.
Proof.
  unfold pushed_warnings, eccentricity_warning.
  destruct (eccentricity_trigger p), (pin_trigger p), (wall_trigger p);
    cbn [app In append]; split; intros H; try reflexivity; try discriminate;
    try (now left); try (now right; left); try (now right; right; left);
    repeat (destruct H as [H|H]; try discriminate H); try contradiction.
Qed.

Lemma eccentricity_warning_iff (p : CycloParams) (e : R) :
  In (eccentricity_warning toString (with_eccentricity p e))
     (pushed_warnings toString p)
  -> eccentricity_trigger p = true.
Proof.
  unfold pushed_warnings, eccentricity_warning.
  destruct (eccentricity_trigger p), (pin_trigger p), (wall_trigger p);
    cbn [app In append]; intros H; try reflexivity;
    repeat (destruct H as [H|H]; try discriminate H); try contradiction.
Qed.

Lemma round_to_lower (d : nat) (v : R) : v - / 2 / 10 ^ d <= round_to d v.
Proof.
  pose proof (round_to_error d v) as H.
  pose proof (Rle_abs (- (round_to d v - v))) as H'.
  rewrite Rabs_Ropp in H'. lra.
Qed.

(** X13. When the pin-crowding rule fires (on a non-zero pinCount), the
    advisor warns and proposes 'Shrink Pins' with pinRadius within 0.005 of
    0.9 * pinSpacing / 2; if pinSpacing >= 0.2, the advisor run on the fixed
    parameters no longer gives the pin warning. *)
Theorem X13_shrink_pins_clears (p : CycloParams) :
  pin_trigger p = true -> pinCount p <> 0 ->
  let q := getGeometricQuality toString p in
  let fx := shrink_pins_fix toString p in
  In "Pins are too large for spacing."%string (warnings q) /\
  In fx (fixes q) /\
  params fx = with_pinRadius p (pinRadius (params fx)) /\
  Rabs (pinRadius (params fx) - 0.9 * pinSpacing p / 2) <= 0.005 /\
  (0.2 <= pinSpacing p ->
   ~ In "Pins are too large for spacing."%string
       (warnings (getGeometricQuality toString (params fx)))).
Proof.
  intros Htrig _. cbv zeta. rewrite !getGeometricQuality_spec.
  cbn [warnings fixes].
  assert (Herr : Rabs (safePinR p - 0.9 * pinSpacing p / 2) <= 0.005).
  { unfold safePinR, pinSpacing.
    replace (0.9 * (2 * PI * pinCircleRadius p / pinCount p) / 2)
      with (2 * PI * pinCircleRadius p / pinCount p * 0.9 / 2) by lra.
    eapply Rle_trans; [apply round_to_error|]. simpl. lra. }
  split; [now apply pin_warning_iff|]. split; [|split; [reflexivity|split]].
  - unfold pushed_fixes. rewrite Htrig.
    apply in_or_app. right. apply in_or_app. left. now left.
  - exact Herr.
  - intros Hsp. rewrite pin_warning_iff. intros Hre.
    apply Rltb_true in Hre. cbn in Hre. fold (pinSpacing p) in Hre.
    pose proof (Rle_abs (safePinR p - 0.9 * pinSpacing p / 2)). lra.
Qed.

(** X14. When the eccentricity rule fires on a design with N > 0 and
    E * N >= 0.1, its second fix, 'Increase Radius', sets pinCircleRadius to
    E * 2 * N within 0.05, and the advisor run on the fixed parameters no
    longer gives the eccentricity warning. *)
Theorem X14_increase_radius_clears (p : CycloParams) :
  eccentricity_trigger p = true -> 0 < pinCount p ->
  0.1 <= eccentricity p * pinCount p ->
  let q := getGeometricQuality toString p in
  let fx := increase_radius_fix toString p in
  In fx (fixes q) /\
  params fx = with_pinCircleRadius p (pinCircleRadius (params fx)) /\
  Rabs (pinCircleRadius (params fx) - eccentricity p * 2 * pinCount p)
  <= 0.05 /\
  eccentricity_trigger (params fx) = false /\
  ~ In (eccentricity_warning toString p)
      (warnings (getGeometricQuality toString (params fx))).
Proof.
  intros Htrig HN HEN. cbv zeta. rewrite !getGeometricQuality_spec.
  cbn [warnings fixes].
  assert (Hclear : eccentricity_trigger (params (increase_radius_fix toString p))
                   = false).
  { apply Rltb_false. cbn.
    pose proof (round_to_lower 1 (eccentricity p * 2 * pinCount p)) as Hl.
    fold (safeR p) in Hl. simpl in Hl.
    apply (Rmult_le_reg_r (1.5 * pinCount p)); [lra|].
    unfold Rdiv. rewrite Rmult_assoc, Rinv_l by lra. lra. }
  split; [|split; [reflexivity|split; [|split; [exact Hclear|]]]].
  - unfold pushed_fixes. rewrite Htrig. apply in_or_app. left. right. now left.
  - unfold increase_radius_fix, safeR. cbn.
    eapply Rle_trans; [apply round_to_error|]. simpl. lra.
  - intros Hin.
    assert (Hw : eccentricity_warning toString p
                 = eccentricity_warning toString
                     (with_eccentricity
                        (params (increase_radius_fix toString p))
                        (eccentricity p))) by reflexivity.
    rewrite Hw in Hin. apply eccentricity_warning_iff in Hin. congruence.
Qed.

End FixEffects.

Lemma X13_shrink_pins_clears_witness :
  pin_trigger fat_pin_params = true /\ pinCount fat_pin_params <> 0 /\
  0.2 <= pinSpacing fat_pin_params /\
  ~ In "Pins are too large for spacing."%string
      (warnings (getGeometricQuality print3
                   (params (shrink_pins_fix print3 fat_pin_params)))).
Proof.
  pose proof PI2_1 as H1. pose proof PI_4 as H2.
  assert (Ht : pin_trigger fat_pin_params = true).
  { apply Rltb_true. simpl. lra. }
  assert (Hs : 0.2 <= pinSpacing fat_pin_params).
  { unfold pinSpacing. simpl. lra. }
  assert (Hn : pinCount fat_pin_params <> 0) by (simpl; lra).
  split; [exact Ht|]. split; [exact Hn|]. split; [exact Hs|].
  exact (proj2 (proj2 (proj2 (proj2
           (X13_shrink_pins_clears print3 fat_pin_params Ht Hn)))) Hs).
Defined.

Lemma X14_increase_radius_clears_witness :
  eccentricity_trigger steep_params = true /\ 0 < pinCount steep_params /\
  0.1 <= eccentricity steep_params * pinCount steep_params /\
  eccentricity_trigger (params (increase_radius_fix print3 steep_params))
  = false.
Proof.
  assert (H1 : eccentricity_trigger steep_params = true)
    by (apply Rltb_true; simpl; lra).
  assert (H2 : 0 < pinCount steep_params) by (simpl; lra).
  assert (H3 : 0.1 <= eccentricity steep_params * pinCount steep_params)
    by (simpl; lra).
  repeat split; try assumption.
  exact (proj1 (proj2 (proj2 (proj2
           (X14_increase_radius_clears print3 steep_params H1 H2 H3))))).
Defined.

Lemma round_to_1_of_2 : round_to 1 2 = 2.
Proof.
  rewrite round_to_nonneg by lra.
  rewrite (scaled_round_eq 1 2 20).
  - simpl. lra.
  - rewrite Rabs_pos_eq by lra. simpl. lra.
Qed.

(** The hole proposed by 'Shrink Center Hole' leaves a wall of 1.5 mm
    exactly when the estimated inner radius is at least 3.5 mm. *)
Lemma safeHole_leaves_wall (p : CycloParams) :
  approxInnerRadius p < safeHole p + 1.5 <-> approxInnerRadius p < 3.5.
Proof.
  unfold safeHole. set (a := approxInnerRadius p).
  destruct (Rle_dec 4 a) as [Hbig|Hsmall].
  - rewrite Rmax_right by lra.
    pose proof (round_to_upper 1 (a - 2)) as Hu. simpl in Hu. split; lra.
  - rewrite Rmax_left by lra. rewrite round_to_1_of_2. split; lra.
Qed.

(** X15. When the wall-thickness rule fires, 'Shrink Center Hole' is
    proposed; the advisor run on the fixed parameters still gives the
    wall-thickness warning exactly when approxInnerRadius < 3.5, since the
    proposed hole is never smaller than 2. *)
Theorem X15_shrink_hole_effect (toString : R -> string) (p : CycloParams) :
  wall_trigger p = true ->
  let fx := shrink_hole_fix toString p in
  In fx (fixes (getGeometricQuality toString p)) /\
  approxInnerRadius (params fx) = approxInnerRadius p /\
  (In "Wall thickness is critically low."%string
      (warnings (getGeometricQuality toString (params fx)))
   <-> approxInnerRadius p < 3.5).
Proof.
  intros Htrig. cbv zeta. rewrite !getGeometricQuality_spec.
  cbn [warnings fixes]. split; [|split; [reflexivity|]].
  - now apply pushed_fixes_wall.
  - rewrite wall_warning_iff, wall_trigger_true. cbn [params shrink_hole_fix].
    change (approxInnerRadius (with_holeRadius p (safeHole p)))
      with (approxInnerRadius p).
    change (holeRadius (with_holeRadius p (safeHole p))) with (safeHole p).
    apply safeHole_leaves_wall.
Qed.

Lemma X15_shrink_hole_effect_witness :
  wall_trigger thin_wall_params = true /\
  In "Wall thickness is critically low."%string
     (warnings (getGeometricQuality print3
                  (params (shrink_hole_fix print3 thin_wall_params)))).
Proof.
  assert (H : wall_trigger thin_wall_params = true)
    by (apply Rltb_true; unfold approxInnerRadius; simpl; lra).
  split; [exact H|].
  apply (proj2 (proj2 (X15_shrink_hole_effect print3 thin_wall_params H))).
  unfold approxInnerRadius. simpl. lra.
Defined.

(** X16. For a non-zero pinCount, the advisor reports a design valid
    exactly when no rule fired, which is exactly when it proposes no fix.  It
    gives at most three warnings and four fixes, every warning comes with a
    fix, and there is one fix per warning plus one more when the eccentricity
    rule fired. *)
Theorem X16_report_shape (toString : R -> string) (p : CycloParams) :
  pinCount p <> 0 ->
  let q := getGeometricQuality toString p in
  (valid q = true <-> warnings q = []) /\
  (warnings q = [] <-> fixes q = []) /\
  (List.length (warnings q) <= 3)%nat /\
  (List.length (fixes q) <= 4)%nat /\
  List.length (fixes q)
  = (List.length (warnings q)
     + if eccentricity_trigger p then 1 else 0)%nat.
Proof.
  intros _. cbv zeta. rewrite getGeometricQuality_spec. cbn [valid warnings fixes].
  unfold pushed_warnings, pushed_fixes.
  destruct (eccentricity_trigger p), (pin_trigger p), (wall_trigger p);
    cbn [app List.length Nat.eqb Nat.add];
    repeat split; intros; try discriminate; try reflexivity; lia.
Qed.

Lemma X16_report_shape_witness :
  pinCount steep_params <> 0 /\
  List.length (fixes (getGeometricQuality print3 steep_params))
  = (List.length (warnings (getGeometricQuality print3 steep_params))
     + if eccentricity_trigger steep_params then 1 else 0)%nat.
Proof.
  assert (H : pinCount steep_params <> 0) by (simpl; lra).
  split; [exact H|].
  exact (proj2 (proj2 (proj2 (proj2 (X16_report_shape print3 steep_params H))))).
Defined.

(** ** The de-duplication pass on arbitrary fix lists *)

Lemma same_fixb_true (f a : GeometricFix) :
  same_fixb f a = true <-> same_fix f a.
Proof.
  unfold same_fixb, same_fix, json_eqb.
  rewrite andb_true_iff, String.eqb_eq.
  destruct (CycloParams_eq_dec (params f) (params a)); split;
    intros [H1 H2]; split; auto; discriminate.
Qed.

Lemma same_fix_refl (a : GeometricFix) : same_fix a a.
Proof. split; reflexivity. Qed.

Lemma same_fix_trans (a b c : GeometricFix) :
  same_fix a b -> same_fix b c -> same_fix a c.
Proof. intros [H1 H2] [H3 H4]. split; congruence. Qed.

Lemma existsb_same_fix (seen : list GeometricFix) (a : GeometricFix) :
  existsb (fun f => same_fixb f a) seen = true
  <-> exists s, In s seen /\ same_fix s a.
Proof.
  rewrite existsb_exists. split; intros [s [Hs H]]; exists s; split; auto;
    now apply same_fixb_true.
Qed.

Lemma findIndex_found_before {A : Type} (f : A -> bool) (pre rest : list A) :
  existsb f pre = true ->
  (0 <= findIndex f (pre ++ rest) < Z.of_nat (List.length pre))%Z.
Proof.
  induction pre as [|a pre IH]; simpl; [discriminate|].
  destruct (f a); simpl; [lia|]. intros H. specialize (IH H).
  destruct (Z.ltb_spec (findIndex f (pre ++ rest)) 0); lia.
Qed.

Lemma uniqueFixes_keep_first (l : list GeometricFix) :
  uniqueFixes l = keep_first [] l.
Proof.
  unfold uniqueFixes.
  assert (H : forall suf pre, l = pre ++ suf ->
            filter_indexed
              (fun fx index =>
                 (Z.of_nat index =?
                  findIndex (fun f => same_fixb f fx) l)%Z)
              (List.length pre) suf = keep_first pre suf).
  { induction suf as [|a suf IH]; intros pre Hl; simpl; [reflexivity|].
    assert (Hnext : filter_indexed
              (fun fx index =>
                 (Z.of_nat index =?
                  findIndex (fun f => same_fixb f fx) l)%Z)
              (S (List.length pre)) suf = keep_first (pre ++ [a]) suf).
    { replace (S (List.length pre)) with (List.length (pre ++ [a]))
        by (rewrite length_app; simpl; lia).
      apply IH. now rewrite <- app_assoc. }
    rewrite Hnext.
    destruct (existsb (fun f => same_fixb f a) pre) eqn:Hex.
    - pose proof (findIndex_found_before _ pre (a :: suf) Hex) as Hlt.
      rewrite <- Hl in Hlt.
      destruct (Z.eqb_spec (Z.of_nat (List.length pre))
                  (findIndex (fun f => same_fixb f a) l)); [lia|reflexivity].
    - rewrite Hl at 1. rewrite findIndex_first, Z.eqb_refl; [reflexivity| |].
      + intros b Hb. destruct (same_fixb b a) eqn:Hba; [|reflexivity].
        assert (existsb (fun f => same_fixb f a) pre = true)
          by (apply existsb_exists; now exists b).
        congruence.
      + apply same_fixb_true, same_fix_refl. }
  exact (H l [] eq_refl).
Qed.

Lemma keep_first_incl (l : list GeometricFix) : forall seen b,
  In b (keep_first seen l) -> In b l.
Proof.
  induction l as [|a l IH]; intros seen b; simpl; [auto|].
  destruct (existsb _ seen).
  - intros H. right. eapply IH, H.
  - intros [H|H]; [now left|right; eapply IH, H].
Qed.

Lemma keep_first_fresh (l : list GeometricFix) : forall seen b s,
  In b (keep_first seen l) -> In s seen -> ~ same_fix s b.
Proof.
  induction l as [|a l IH]; intros seen b s; simpl; [contradiction|].
  destruct (existsb (fun f => same_fixb f a) seen) eqn:Hex.
  - intros Hb Hs. apply (IH _ _ _ Hb). apply in_or_app. now left.
  - intros [<-|Hb] Hs.
    + intros Hsame.
      assert (existsb (fun f => same_fixb f a) seen = true)
        by (apply existsb_same_fix; now exists s).
      congruence.
    + apply (IH _ _ _ Hb). apply in_or_app. now left.
Qed.

Lemma keep_first_distinct (l : list GeometricFix) : forall seen,
  ForallOrdPairs (fun a b => ~ same_fix a b) (keep_first seen l).
Proof.
  induction l as [|a l IH]; intros seen; simpl; [constructor|].
  destruct (existsb _ seen); [apply IH|].
  constructor; [|apply IH].
  apply Forall_forall. intros b Hb.
  apply (keep_first_fresh l (seen ++ [a]) b a Hb).
  apply in_or_app. right. now left.
Qed.

Lemma keep_first_covers (l : list GeometricFix) : forall seen a,
  In a l ->
  (exists s, In s seen /\ same_fix s a)
  \/ (exists b, In b (keep_first seen l) /\ same_fix b a).
Proof.
  induction l as [|a0 l IH]; intros seen a; simpl; [contradiction|].
  destruct (existsb (fun f => same_fixb f a0) seen) eqn:Hex.
  - apply existsb_same_fix in Hex. destruct Hex as [s0 [Hs0 Hsame0]].
    intros [<-|Ha].
    + left. now exists s0.
    + destruct (IH (seen ++ [a0]) a Ha) as [[s [Hs Hsame]]|Hr]; [|now right].
      left. apply in_app_or in Hs. destruct Hs as [Hs|[<-|[]]].
      * now exists s.
      * exists s0. split; [exact Hs0|]. now apply (same_fix_trans _ a0).
  - intros [<-|Ha].
    + right. exists a0. split; [now left|apply same_fix_refl].
    + destruct (IH (seen ++ [a0]) a Ha) as [[s [Hs Hsame]]|[b [Hb Hsame]]].
      * apply in_app_or in Hs. destruct Hs as [Hs|[<-|[]]].
        -- left. now exists s.
        -- right. exists a0. split; [now left|exact Hsame].
      * right. exists b. split; [now right|exact Hsame].
Qed.

Lemma keep_first_fixpoint (l : list GeometricFix) : forall seen,
  ForallOrdPairs (fun a b => ~ same_fix a b) l ->
  (forall s b, In s seen -> In b l -> ~ same_fix s b) ->
  keep_first seen l = l.
Proof.
  induction l as [|a l IH]; intros seen Hpairs Hfresh; simpl; [reflexivity|].
  inversion Hpairs as [|a' l' Ha Hl]; subst.
  destruct (existsb (fun f => same_fixb f a) seen) eqn:Hex.
  - apply existsb_same_fix in Hex. destruct Hex as [s [Hs Hsame]].
    exfalso. apply (Hfresh s a Hs); [now left|exact Hsame].
  - f_equal. apply IH; [exact Hl|].
    intros s b Hs Hb. apply in_app_or in Hs. destruct Hs as [Hs|[<-|[]]].
    + apply Hfresh; [exact Hs|now right].
    + rewrite Forall_forall in Ha. now apply Ha.
Qed.

(** X17. On any list of fixes the de-duplication pass of
    [getGeometricQuality] keeps only fixes of the list, first element first;
    every fix of the list has a kept fix with the same label and parameters;
    no two kept fixes have the same label and parameters; and a second pass
    changes nothing. *)
Theorem X17_unique_fixes (l : list GeometricFix) :
  incl (uniqueFixes l) l /\
  hd_error (uniqueFixes l) = hd_error l /\
  Forall (fun a => Exists (fun b => same_fix b a) (uniqueFixes l)) l /\
  ForallOrdPairs (fun a b => ~ same_fix a b) (uniqueFixes l) /\
  uniqueFixes (uniqueFixes l) = uniqueFixes l.
Proof.
  rewrite !uniqueFixes_keep_first. split; [|split; [|split; [|split]]].
  - intros b Hb. now apply (keep_first_incl l []).
  - destruct l; reflexivity.
  - apply Forall_forall. intros a Ha. apply Exists_exists.
    destruct (keep_first_covers l [] a Ha) as [[s [[] _]]|[b [Hb Hs]]].
    now exists b.
  - apply keep_first_distinct.
  - apply keep_first_fixpoint; [apply keep_first_distinct|].
    intros s b [].
Qed.

(** ** The callers: download and drawing *)

(** X18. For a resolution of at least 1, the downloaded document is the
    export of the toleranced profile: it has one VERTEX per kept sample, at
    most resolution + 1 of them, and a single CIRCLE, the centre bore; the
    housing pins that [handleDownload] passes along leave no trace, whatever
    they are. *)
Theorem X18_download (p : CycloParams) :
  (1 <= resolution p)%nat ->
  let profile := generateCycloidProfile p None in
  dxfContent p = unlines (dxf_lines profile p) /\
  profile
  = map (fun i => offset_point p (pinRadius p + tolerance p)
                    (sample_t (resolution p) i)) (emitted_indices p) /\
  count_lines "VERTEX" (dxf_lines profile p) = List.length (emitted_indices p) /\
  (List.length (emitted_indices p) <= resolution p + 1)%nat /\
  count_lines "CIRCLE" (dxf_lines profile p) = 1%nat /\
  (forall pins : list Point, generateDXF profile pins p = dxfContent p).
Proof.
  intros _. cbv zeta. unfold dxfContent.
  assert (Hp : generateCycloidProfile p None
               = map (fun i => offset_point p (pinRadius p + tolerance p)
                                 (sample_t (resolution p) i))
                   (emitted_indices p))
    by apply generateCycloidProfile_filter.
  split; [apply generateDXF_lines|]. split; [exact Hp|].
  split; [|split; [|split]].
  - rewrite (count_lines_dxf "VERTEX" _ p 1) by reflexivity.
    rewrite Hp, length_map. cbv [count_lines]. simpl. lia.
  - unfold emitted_indices.
    etransitivity; [apply filter_length_le|].
    unfold sample_indices. rewrite length_seq. lia.
  - now rewrite (count_lines_dxf "CIRCLE" _ p 0).
  - reflexivity.
Qed.

Lemma X18_download_witness :
  (1 <= resolution DEFAULT_PARAMS)%nat /\
  (List.length (emitted_indices DEFAULT_PARAMS)
   <= resolution DEFAULT_PARAMS + 1)%nat.
Proof.
  assert (H : (1 <= resolution DEFAULT_PARAMS)%nat) by (simpl; lia).
  split; [exact H|].
  exact (proj1 (proj2 (proj2 (proj2 (X18_download DEFAULT_PARAMS H))))).
Defined.

Lemma outputPinPoints_map (p : CycloParams) :
  outputPinPoints p
  = map (fun i => circle_point (outputPinCircleRadius p)
                    (INR i / INR (outputPinCount p) * 2 * PI))
      (seq 0 (outputPinCount p)).
Proof. unfold outputPinPoints. now rewrite fold_push_all. Qed.

(** X19. The cutouts of [getDiscSVGPath] sit on the output pins that the
    visualizer draws: the path is the outline followed by one cutout about
    each point of [outputPinPoints], in order, all of radius
    outputPinRadius + eccentricity + holeTolerance; there are outputPinCount
    of them, each at distance |outputPinCircleRadius| from the centre. *)
Theorem X19_cutouts_on_output_pins (toString : R -> string)
    (lineGenerator : list Point -> option string)
    (pts : list Point) (p : CycloParams) :
  let holeR := outputPinRadius p + eccentricity p + holeTolerance p in
  getDiscSVGPath toString lineGenerator pts p
  = ((match lineGenerator pts with Some s => s | None => "" end) ++
     render_path toString
       (flat_map (fun pin => hole_cmds holeR (x pin) (y pin))
          (outputPinPoints p)))%string /\
  List.length (outputPinPoints p) = outputPinCount p /\
  Forall (fun pin => radius_of pin = Rabs (outputPinCircleRadius p))
    (outputPinPoints p) /\
  holeR - outputPinRadius p = eccentricity p + holeTolerance p.
Proof.
  cbv zeta. split; [|split; [|split]].
  - rewrite getDiscSVGPath_cmds, outputPinPoints_map. do 2 f_equal.
    induction (seq 0 (outputPinCount p)) as [|i l IH]; [reflexivity|].
    simpl. rewrite IH. unfold hole_cx, hole_cy, hole_angle, hole_radius.
    now rewrite sample_angle.
  - rewrite outputPinPoints_map, length_map. apply length_seq.
  - rewrite outputPinPoints_map. apply Forall_forall. intros pin Hin.
    apply in_map_iff in Hin. destruct Hin as [i [<- _]].
    apply circle_point_radius.
  - ring.
Qed.

(** ** Designs without inflection *)

Lemma min_update_fold_ge (scs : list number) (b : R) : forall m0 : R,
  b <= m0 -> (forall v, In (Finite v) scs -> b <= v) ->
  b <= fold_left min_update scs m0.
Proof.
  induction scs as [|s scs IH]; intros m0 Hm Hall; simpl; [exact Hm|].
  apply IH.
  - destruct s as [v|]; simpl; [|exact Hm].
    destruct (Rltb (Rabs v) (Rabs m0)); [|exact Hm].
    apply Hall. now left.
  - intros v Hv. apply Hall. now right.
Qed.

(** With N >= 1, E >= 0 and E N^2 < R the denominator of rho is positive. *)
Lemma rho_denominator_pos (N R0 E phi : R) :
  1 <= N -> 0 <= E -> E * N * N < R0 ->
  0 < R0 * R0 + E * E * N * N * N - R0 * E * N * (N + 1) * cos phi.
Proof.
  intros HN HE HR.
  pose proof (COS_bound phi) as [_ Hc].
  assert (HEN : 0 <= E * N) by (apply Rmult_le_pos; lra).
  assert (HENN : E * N <= E * N * N).
  { rewrite <- (Rmult_1_r (E * N)) at 1. apply Rmult_le_compat_l; lra. }
  assert (Hk : 0 <= R0 * E * N * (N + 1)).
  { rewrite !Rmult_assoc. apply Rmult_le_pos; [lra|].
    rewrite <- Rmult_assoc. apply Rmult_le_pos; lra. }
  assert (Hle : R0 * E * N * (N + 1) * cos phi <= R0 * E * N * (N + 1)).
  { rewrite <- (Rmult_1_r (R0 * E * N * (N + 1))) at 2.
    apply Rmult_le_compat_l; lra. }
  assert (Hprod : 0 < (R0 - E * N) * (R0 - E * N * N))
    by (apply Rmult_lt_0_compat; lra).
  replace (R0 * R0 + E * E * N * N * N - R0 * E * N * (N + 1) * cos phi)
    with ((R0 - E * N) * (R0 - E * N * N)
          + (R0 * E * N * (N + 1) - R0 * E * N * (N + 1) * cos phi)) by ring.
  lra.
Qed.

(** X20. On a design with resolution >= 1, N >= 1, E >= 0, pinRadius >= 0
    and E N^2 < R the denominator of rho is positive at every sample: every
    returned point has a finite curvatureRadius, not below -pinRadius, and so
    has minCurvatureRadius. *)
Theorem X20_no_inflection (p : CycloParams) :
  (1 <= resolution p)%nat ->
  1 <= pinCount p -> 0 <= eccentricity p -> 0 <= pinRadius p ->
  eccentricity p * pinCount p * pinCount p < pinCircleRadius p ->
  Forall (fun pt => exists v, curvatureRadius pt = Some (Finite v) /\
                              - pinRadius p <= v)
    (points (calculatePhysicsMetrics p)) /\
  - pinRadius p <= minCurvatureRadius (calculatePhysicsMetrics p).
Proof.
  intros _ HN HE Hr HR.
  assert (Hc : forall i, exists v, curvature_at p i = Finite v /\
                                   - pinRadius p <= v).
  { intros i. unfold curvature_at, surfaceCurvature, rho, js_div.
    pose proof (rho_denominator_pos (pinCount p) (pinCircleRadius p)
                  (eccentricity p)
                  ((pinCount p - 1) * sample_t (resolution p) i) HN HE HR)
      as Hden.
    pose proof (term1_nonneg (pinCount p) (pinCircleRadius p) (eccentricity p)
                  ((pinCount p - 1) * sample_t (resolution p) i)) as Ht.
    destruct (Req_dec_T _ 0) as [H0|_]; [lra|]. simpl.
    eexists. split; [reflexivity|].
    match goal with
    | |- - _ <= ?q - _ => assert (0 <= q)
    end.
    { apply Rmult_le_pos.
      - unfold pow15. apply Rmult_le_pos; [exact Ht|apply sqrt_pos].
      - left. now apply Rinv_0_lt_compat. }
    lra. }
  rewrite calculatePhysicsMetrics_spec. cbn [points minCurvatureRadius]. split.
  - apply Forall_forall. intros pt Hpt. apply in_map_iff in Hpt.
    destruct Hpt as [i [<- _]]. destruct (Hc i) as [v [Hv Hge]].
    exists v. split; [|exact Hge]. cbn. now rewrite Hv.
  - apply min_update_fold_ge.
    + pose proof MAX_VALUE_pos. lra.
    + intros v Hv. apply in_map_iff in Hv. destruct Hv as [i [Hi _]].
      destruct (Hc i) as [w [Hw Hge]]. rewrite Hw in Hi.
      inversion Hi; subst. exact Hge.
Qed.

Lemma X20_no_inflection_witness :
  (1 <= resolution gentle_params)%nat /\
  1 <= pinCount gentle_params /\ 0 <= eccentricity gentle_params /\
  0 <= pinRadius gentle_params /\
  eccentricity gentle_params * pinCount gentle_params * pinCount gentle_params
  < pinCircleRadius gentle_params /\
  - pinRadius gentle_params
  <= minCurvatureRadius (calculatePhysicsMetrics gentle_params).
Proof.
  assert (H0 : (1 <= resolution gentle_params)%nat) by (simpl; lia).
  assert (H1 : 1 <= pinCount gentle_params) by (simpl; lra).
  assert (H2 : 0 <= eccentricity gentle_params) by (simpl; lra).
  assert (H3 : 0 <= pinRadius gentle_params) by (simpl; lra).
  assert (H4 : eccentricity gentle_params * pinCount gentle_params
               * pinCount gentle_params < pinCircleRadius gentle_params)
    by (simpl; lra).
  split; [exact H0|]. split; [exact H1|]. split; [exact H2|].
  split; [exact H3|]. split; [exact H4|].
  exact (proj2 (X20_no_inflection gentle_params H0 H1 H2 H3 H4)).
Defined.

(** X21. When the wall-thickness rule fires, 'Shrink Center Hole' is among
    the returned fixes.  If approxInnerRadius >= 4, the
    hole it proposes is within 0.05 of
    approxInnerRadius - 2 and strictly smaller than the current hole; when
    approxInnerRadius < 4 the proposed hole is 2, whatever the current hole,
    so a hole smaller than 2 is enlarged. *)
Theorem X21_shrink_hole_size (toString : R -> string) (p : CycloParams) :
  wall_trigger p = true ->
  let proposed := holeRadius (params (shrink_hole_fix toString p)) in
  In (shrink_hole_fix toString p) (fixes (getGeometricQuality toString p)) /\
  (4 <= approxInnerRadius p ->
   Rabs (proposed - (approxInnerRadius p - 2)) <= 0.05 /\
   proposed < holeRadius p) /\
  (approxInnerRadius p < 4 -> proposed = 2).
Proof.
  intros Htrig. cbv zeta. split.
  { rewrite getGeometricQuality_spec. cbn [fixes].
    now apply pushed_fixes_wall. }
  apply wall_trigger_true in Htrig.
  cbn [params shrink_hole_fix].
  change (holeRadius (with_holeRadius p (safeHole p))) with (safeHole p).
  unfold safeHole. split.
  - intros Hbig. rewrite Rmax_right by lra.
    pose proof (round_to_error 1 (approxInnerRadius p - 2)) as He.
    simpl in He.
    pose proof (Rle_abs (round_to 1 (approxInnerRadius p - 2)
                         - (approxInnerRadius p - 2))).
    split; lra.
  - intros Hsmall. rewrite Rmax_left by lra. apply round_to_1_of_2.
Qed.

Lemma X21_shrink_hole_size_witness :
  wall_trigger thin_wall_params = true /\
  approxInnerRadius thin_wall_params < 4 /\
  holeRadius (params (shrink_hole_fix print3 thin_wall_params)) = 2.
Proof.
  assert (H : wall_trigger thin_wall_params = true)
    by (apply Rltb_true; unfold approxInnerRadius; simpl; lra).
  assert (H4 : approxInnerRadius thin_wall_params < 4)
    by (unfold approxInnerRadius; simpl; lra).
  split; [exact H|]. split; [exact H4|].
  exact (proj2 (proj2 (X21_shrink_hole_size print3 thin_wall_params H)) H4).
Defined.

(** ** The circle: no eccentricity *)

Lemma circle_tangent (N R0 t : R) : 0 <= R0 -> tangent_len N R0 0 t = R0.
Proof.
  intros HR. unfold tangent_len, dxdt, dydt.
  pose proof (sin2_cos2 t) as H. unfold Rsqr in H.
  replace ((- R0 * sin t + 0 * N * sin (N * t))
           * (- R0 * sin t + 0 * N * sin (N * t))
           + (R0 * cos t - 0 * N * cos (N * t))
             * (R0 * cos t - 0 * N * cos (N * t)))
    with (R0 * R0 * (sin t * sin t + cos t * cos t)) by ring.
  rewrite H, Rmult_1_r. now apply sqrt_square.
Qed.

(** X22. Without eccentricity, with R >= 1e-6 and a resolution of at
    least 1, nothing is dropped and
    the profile is the circle of radius R - (pinRadius + tolerance): sample
    i is the point at angle t of that circle, its normal (-cos t, -sin t)
    pointing at the centre, so that a larger offset gives a smaller disc.
    Its curvature radius is R - pinRadius at every sample and
    maxPressureAngle is 0. *)
Theorem X22_circle (p : CycloParams) (ov : option R) :
  (1 <= resolution p)%nat ->
  eccentricity p = 0 -> eps <= pinCircleRadius p ->
  let r := pinRadius p + match ov with Some o => o | None => tolerance p end in
  generateCycloidProfile p ov
  = map (fun i =>
           let t := sample_t (resolution p) i in
           mkPoint ((pinCircleRadius p - r) * cos t)
                   ((pinCircleRadius p - r) * sin t)
                   (Some (- cos t)) (Some (- sin t)) None None)
      (seq 0 (resolution p + 1)) /\
  Forall (fun pt => curvatureRadius pt
                    = Some (Finite (pinCircleRadius p - pinRadius p)))
    (points (calculatePhysicsMetrics p)) /\
  maxPressureAngle (calculatePhysicsMetrics p) = 0.
Proof.
  intros _ HE HR. cbv zeta. pose proof eps_pos as He.
  assert (Hlen : forall t,
            tangent_len (pinCount p) (pinCircleRadius p) (eccentricity p) t
            = pinCircleRadius p).
  { intros t. rewrite HE. apply circle_tangent. lra. }
  assert (Hkeep : emitted_indices p = sample_indices p).
  { unfold emitted_indices.
    assert (H : forall i, negb (degenerateb p i) = true).
    { intros i. apply negb_true_iff, degenerateb_false. unfold degenerate.
      rewrite Hlen. lra. }
    induction (sample_indices p) as [|i l IH]; simpl; [reflexivity|].
    now rewrite H, IH. }
  split; [|split].
  - rewrite generateCycloidProfile_filter. fold (emitted_indices p).
    rewrite Hkeep. unfold sample_indices.
    replace (resolution p + 1)%nat with (S (resolution p)) by lia.
    apply map_ext. intros i. cbv zeta.
    unfold offset_point, normal_x, normal_y, effective_offset.
    rewrite Hlen. unfold locus_x, locus_y, dxdt, dydt. rewrite HE.
    f_equal; try (f_equal; field; lra); field; lra.
  - rewrite calculatePhysicsMetrics_spec. cbn [points].
    apply Forall_forall. intros pt Hpt. apply in_map_iff in Hpt.
    destruct Hpt as [i [<- _]]. cbn. f_equal.
    unfold curvature_at, surfaceCurvature, rho, js_div, pow15. rewrite HE.
    set (c := cos _).
    replace (pinCircleRadius p * pinCircleRadius p
             + 0 * 0 * pinCount p * pinCount p
             - 2 * pinCircleRadius p * 0 * pinCount p * c)
      with (pinCircleRadius p * pinCircleRadius p) by ring.
    replace (pinCircleRadius p * pinCircleRadius p
             + 0 * 0 * pinCount p * pinCount p * pinCount p
             - pinCircleRadius p * 0 * pinCount p * (pinCount p + 1) * c)
      with (pinCircleRadius p * pinCircleRadius p) by ring.
    rewrite sqrt_square by lra.
    destruct (Req_dec_T (pinCircleRadius p * pinCircleRadius p) 0) as [H0|_];
      [nra|].
    simpl. f_equal. field. lra.
  - rewrite calculatePhysicsMetrics_spec. cbn [maxPressureAngle].
    assert (Hp : forall i, pressure_at p i = 0).
    { intros i. unfold pressure_at, pressureDeg. rewrite HE.
      replace (0 * pinCount p / pinCircleRadius p) with 0 by (field; lra).
      rewrite !Rmult_0_l, Rminus_0_r, Rabs_R0, Rabs_R1.
      rewrite atan2_pos_den by lra.
      replace (0 / 1) with 0 by field. rewrite atan_0. ring. }
    clear Hkeep.
    induction (emitted_indices p) as [|i l IH]; [reflexivity|].
    cbn [map fold_left]. rewrite Hp. unfold max_update at 2, Rgtb, Rltb.
    destruct (Rlt_dec 0 0) as [H|_]; [lra|exact IH].
Qed.

Lemma X22_circle_witness :
  (1 <= resolution circle_params)%nat /\
  eccentricity circle_params = 0 /\ eps <= pinCircleRadius circle_params /\
  maxPressureAngle (calculatePhysicsMetrics circle_params) = 0.
Proof.
  assert (H0 : (1 <= resolution circle_params)%nat) by (simpl; lia).
  assert (H1 : eccentricity circle_params = 0) by reflexivity.
  assert (H2 : eps <= pinCircleRadius circle_params)
    by (simpl; unfold eps; lra).
  split; [exact H0|]. split; [exact H1|]. split; [exact H2|].
  exact (proj2 (proj2 (X22_circle circle_params None H0 H1 H2))).
Defined.
